(** * MedQ.tn question notes: placeholder codec and offline-first persistence

    A shallow embedding of [src/components/questions/QuestionNotes.tsx] and of
    the legacy-placeholder migration of [src/components/ui/rich-text-input.tsx].

    JavaScript strings are sequences of code units; the development works with
    code units below 256 ([ascii]), which covers every character the
    placeholder syntax itself is made of.  Regular expressions are embedded by
    the matching function they denote at one position of the subject, and the
    [g] flag by one left-to-right scan shared by [exec] loops and [replace]. *)

From Stdlib Require Import Ascii String List NArith DecimalString.
From stdpp Require Import base tactics option list gmap strings.

Open Scope string_scope.
Open Scope list_scope.
Open Scope nat_scope.

Abbreviation str := (list ascii).
Coercion list_ascii_of_string : string >-> list.

(** ** String primitives *)

Module Js.

(** [WhiteSpace] and [LineTerminator] code units below 256: TAB, LF, VT, FF,
    CR, SP and NBSP.  This is the set [String.prototype.trim] strips. *)
Definition isWhiteSpace (c : ascii) : bool :=
  let n := N_of_ascii c in
  ((9 <=? n) && (n <=? 13) || (n =? 32) || (n =? 160))%N.

Fixpoint trimStart (s : str) : str :=
  match s with
  | c :: r => if isWhiteSpace c then trimStart r else s
  | [] => []
  end.

Definition trimEnd (s : str) : str := rev (trimStart (rev s)).

Definition trim (s : str) : str := trimEnd (trimStart s).

(** [s.startsWith(p)], returning what follows the prefix. *)
Fixpoint stripPrefix (p s : str) : option str :=
  match p, s with
  | [], _ => Some s
  | a :: p', b :: s' => if decide (a = b) then stripPrefix p' s' else None
  | _ :: _, [] => None
  end.

(** The longest run of code units other than [stop], provided [stop] follows
    it: the run and the input after that [stop]. This is what a greedy
    negated class followed by the excluded character matches. *)
Fixpoint breakAt (stop : ascii) (s : str) : option (str * str) :=
  match s with
  | [] => None
  | c :: r =>
      if decide (c = stop) then Some ([], r)
      else '(run, rest) ← breakAt stop r; Some (c :: run, rest)
  end.

(** A regular expression tried at the head of the subject: the captures and
    the input left after the match. *)
Definition Matcher (A : Type) : Type := str → option (A * str).

Inductive piece (A : Type) : Type :=
| Skipped (c : ascii)
| Matched (a : A).
Global Arguments Skipped {A} c.
Global Arguments Matched {A} a.

(** One pass of a [g]-flagged expression over the subject: at each index
    the expression is tried; on success the scan resumes after the match
    ([lastIndex]), otherwise it moves one code unit on. The fuel is the
    length of the subject, which bounds the number of iterations because
    every match of the expressions below is non-empty. *)
Fixpoint scanFrom {A} (re : Matcher A) (fuel : nat) (s : str) : list (piece A) :=
  match fuel, s with
  | S n, c :: r =>
      match re s with
      | Some (a, rest) => Matched a :: scanFrom re n rest
      | None => Skipped c :: scanFrom re n r
      end
  | _, _ => []
  end.

Definition scan {A} (re : Matcher A) (s : str) : list (piece A) :=
  scanFrom re (length s) s.

(** The captures of the matches, and the code units outside them. *)
Fixpoint matched {A} (ps : list (piece A)) : list A :=
  match ps with
  | [] => []
  | Skipped _ :: r => matched r
  | Matched a :: r => a :: matched r
  end.

Fixpoint unmatched {A} (ps : list (piece A)) : str :=
  match ps with
  | [] => []
  | Skipped c :: r => c :: unmatched r
  | Matched _ :: r => unmatched r
  end.

(** [while ((m = re.exec(s)) !== null) out.push(m)] *)
Definition execAll {A} (re : Matcher A) (s : str) : list A := matched (scan re s).

(** [re.test(s)] with [lastIndex = 0] *)
Definition test {A} (re : Matcher A) (s : str) : bool :=
  match execAll re s with [] => false | _ :: _ => true end.

(** [s.replace(re, '')] *)
Definition eraseAll {A} (re : Matcher A) (s : str) : str := unmatched (scan re s).

(** The expression that matches the fixed text [t]. *)
Definition literally (t : str) : Matcher unit :=
  λ s, rest ← stripPrefix t s; Some ((), rest).

(** [SyntaxCharacter] of the pattern grammar. *)
Definition isSyntaxChar (c : ascii) : bool :=
  bool_decide (c ∈ (".*+?^${}()|[]\" : str)).

(** [new RegExp(source)] for the sources made only of ordinary characters
    and backslash-escaped syntax characters, which denote a fixed text.
    [None] stands for every other source, where the constructor may throw
    or build something else than a literal. *)
Fixpoint RegExp (source : str) : option str :=
  match source with
  | [] => Some []
  | c :: r =>
      if decide (c = "\"%char) then
        match r with
        | e :: r' => if isSyntaxChar e then t ← RegExp r'; Some (e :: t) else None
        | [] => None
        end
      else if isSyntaxChar c then None
      else t ← RegExp r; Some (c :: t)
  end.

End Js.

(** ** Placeholder codec of [QuestionNotes] *)

Record ImageData : Type := mkImage {
  id : str;
  url : str;
  description : str;
}.

Global Instance ImageData_eq_dec : EqDecision ImageData.
Proof. solve_decision. Defined.

(** [/\[IMAGE:([^\]]+)\]/] *)
Definition imageRegex : Js.Matcher str :=
  λ s,
    r ← Js.stripPrefix "[IMAGE:" s;
    '(imageId, rest) ← Js.breakAt "]" r;
    match imageId with [] => None | _ :: _ => Some (imageId, rest) end.

Definition extractImageIds (content : str) : list str :=
  Js.execAll imageRegex content.

(** [imageId.replace(/[.*+?^${}()|[\]\\]/g, '\\$&')] *)
Definition escapeRegExp (imageId : str) : str :=
  flat_map (λ c, if Js.isSyntaxChar c then ["\"%char; c] else [c]) imageId.

(** The template literal handed to [new RegExp] in [cleanOrphanedImages]. *)
Definition referenceSource (imageId : str) : str :=
  "\[IMAGE:" ++ escapeRegExp imageId ++ "\]".

(** [cleanedContent.replace(new RegExp(..., 'g'), '')] *)
Definition removeReference (imageId : str) (cleanedContent : str) : option str :=
  t ← Js.RegExp (referenceSource imageId);
  Some (Js.eraseAll (Js.literally t) cleanedContent).

(** The [forEach] of [cleanOrphanedImages], started at [index]. *)
Fixpoint removeBeyond (available : nat) (index : nat) (contentImageIds : list str)
    (cleanedContent : str) : option str :=
  match contentImageIds with
  | [] => Some cleanedContent
  | imageId :: ids =>
      cleaned ← (if decide (available ≤ index)
                 then removeReference imageId cleanedContent
                 else Some cleanedContent);
      removeBeyond available (S index) ids cleaned
  end.

(** [None] is an exception escaping the function. *)
Definition cleanOrphanedImages (content : str) (availableImageUrls : list str)
    : option str :=
  match availableImageUrls with
  | [] => Some (Js.eraseAll imageRegex content)
  | _ :: _ =>
      let contentImageIds := extractImageIds content in
      cleanedContent ←
        removeBeyond (length availableImageUrls) 0 contentImageIds content;
      Some (Js.trim cleanedContent)
  end.

(** The registry [syncWithServer] rebuilds from the cleaned notes. *)
Definition rebuildImages (contentImageIds : list str) (serverImageUrls : list str)
    : list ImageData :=
  filter (λ img, url img ≠ [])
    (imap (λ index imageId,
             {| id := imageId;
                url := default [] (serverImageUrls !! index);
                description := [] |})
          contentImageIds).

(** ** Legacy placeholder migration of [RichTextInput] *)

(** [/\[IMAGE:([^|]+)\|([^\]]+)\]/] *)
Definition legacyRegex : Js.Matcher (str * str) :=
  λ s,
    r ← Js.stripPrefix "[IMAGE:" s;
    '(urlRaw, r1) ← Js.breakAt "|" r;
    '(descRaw, rest) ← Js.breakAt "]" r1;
    match urlRaw, descRaw with
    | _ :: _, _ :: _ => Some ((urlRaw, descRaw), rest)
    | _, _ => None
    end.

(** What [Date.now()] and [Math.random().toString(36).substr(2, 9)] return at
    each call of [generateImageId], and the number of calls made so far. *)
Record Entropy : Type := mkEntropy {
  sample : nat → N * str;
  calls : nat;
}.

Definition generateImageId (e : Entropy) : str * Entropy :=
  let '(millis, suffix) := sample e (calls e) in
  let stamp : str := NilZero.string_of_uint (N.to_uint millis) in
  ("img_" ++ stamp ++ "_" ++ suffix,
   {| sample := sample e; calls := S (calls e) |}).

(** The replacer callback of the migration, run over the pieces of one scan;
    [newImages] is the array it pushes to. *)
Fixpoint migratePieces (ps : list (Js.piece (str * str))) (newImages : list ImageData)
    (e : Entropy) : str * list ImageData * Entropy :=
  match ps with
  | [] => ([], newImages, e)
  | Js.Skipped c :: ps' =>
      let '(working, imgs, e') := migratePieces ps' newImages e in
      (c :: working, imgs, e')
  | Js.Matched (urlRaw, descRaw) :: ps' =>
      let url_ := Js.trim urlRaw in
      let description_ := Js.trim descRaw in
      match List.find (λ img, bool_decide (url img = url_)) newImages with
      | Some existing =>
          let '(working, imgs, e') := migratePieces ps' newImages e in
          ("[IMAGE:" ++ id existing ++ "]" ++ working, imgs, e')
      | None =>
          let '(fresh, e1) := generateImageId e in
          let existing := {| id := fresh; url := url_; description := description_ |} in
          let '(working, imgs, e') := migratePieces ps' (newImages ++ [existing]) e1 in
          ("[IMAGE:" ++ fresh ++ "]" ++ working, imgs, e')
      end
  end.

(** The migration effect: the body and registry it hands to [onChange] and
    [onImagesChange], or the ones it was given when it calls neither. *)
Definition migrateLegacy (value : str) (images : list ImageData) (e : Entropy)
    : str * list ImageData * Entropy :=
  match value with
  | [] => (value, images, e)
  | _ :: _ =>
      if negb (Js.test legacyRegex value) then (value, images, e)
      else
        let '(working, newImages, e') :=
          migratePieces (Js.scan legacyRegex value) images e in
        if decide (working ≠ value) then (working, newImages, e')
        else (value, images, e')
  end.

(** ** The [QuestionNotes] component and its browser environment *)

Inductive SaveState : Type := idle | saving | saved | error | loading.

Global Instance SaveState_eq_dec : EqDecision SaveState.
Proof. solve_decision. Defined.

(** What [JSON.parse(localStorage.getItem(key))] yields: the record this
    component writes, or anything else ([Foreign]: text that does not parse,
    or that parses to something without the fields read here). *)
Inductive Stored : Type :=
| Foreign
| Note (value : str) (images : list ImageData) (lastSavedAt : N).

Global Instance Stored_eq_dec : EqDecision Stored.
Proof. solve_decision. Defined.

Inductive Toast : Type :=
| ConnexionRequise | Sauvegarde | Erreur | Synchronise | ErreurDeSynchronisation | Efface.

(** The variables of one render that the closures created in it read. *)
Record Render : Type := mkRender {
  r_user : option str;
  r_questionId : str;
  r_value : str;
  r_images : list ImageData;
}.

Inductive Callback : Type :=
| Autosave (r : Render)                          (* () => { void save(true); } *)
| ServerSync (r : Render) (content : str) (imageUrls : list str)
                                                 (* () => { syncToServer(cleanedContent, imageUrls, true); } *)
| RevertToIdle.                                  (* () => setSaveState('idle') *)

Record Timer : Type := mkTimer {
  handle : nat;
  due : N;
  callback : Callback;
}.

(** The GET of [syncWithServer], suspended at one of its two [await]s, with
    the effect instance whose [cancelled] flag it reads. *)
Inductive Await : Type := AwaitResponse | AwaitJson.

Global Instance Await_eq_dec : EqDecision Await.
Proof. solve_decision. Defined.

Record Fetch : Type := mkFetch {
  f_instance : nat;
  f_user : str;
  f_questionId : str;
  f_await : Await;
}.

Record Post : Type := mkPost {
  p_userId : str;
  p_questionId : str;
  p_notes : str;
  p_notesImageUrls : list str;
  p_silent : bool;
}.

Record Component : Type := mkComponent {
  (* useState *)
  value : str;
  images : list ImageData;
  imagesId : nat;                     (* identity of the array held by [images] *)
  initialLoaded : bool;
  saveState : SaveState;
  lastSavedAt : option N;
  isEditing : bool;
  (* useRef *)
  lastSavedValueRef : str;
  lastSavedImagesRef : list ImageData;
  debounceRef : option nat;
  syncDebounceRef : option nat;
}.

Record Browser : Type := mkBrowser {
  now : N;
  localStorage : gmap str Stored;
  setItems : list (str * Stored);     (* every completed [setItem], oldest first *)
  timers : list Timer;
  nextHandle : nat;
  fetches : list Fetch;
  posts : list Post;                  (* every POST sent, oldest first *)
  toasts : list Toast;
}.

Record World : Type := mkWorld {
  (* props and context *)
  user : option str;                  (* [user?.id] *)
  questionId : str;
  autoEdit : bool;                    (* the prop, [false] when the parent omits it *)
  comp : Component;
  env : Browser;
  (* the load effect: the instance now mounted and the instances whose
     [cancelled] flag has been set *)
  instance : nat;
  cancelled : list nat;
  (* whether the last run of the autosave effect returned a cleanup *)
  autosaveCleanup : bool;
}.

Definition withComp (f : Component → Component) (w : World) : World :=
  {| user := user w; questionId := questionId w; autoEdit := autoEdit w;
     comp := f (comp w); env := env w;
     instance := instance w; cancelled := cancelled w;
     autosaveCleanup := autosaveCleanup w |}.

Definition withEnv (f : Browser → Browser) (w : World) : World :=
  {| user := user w; questionId := questionId w; autoEdit := autoEdit w;
     comp := comp w; env := f (env w);
     instance := instance w; cancelled := cancelled w;
     autosaveCleanup := autosaveCleanup w |}.

Definition setValue (v : str) : World → World :=
  withComp (λ c, {| value := v; images := images c; imagesId := imagesId c; initialLoaded := initialLoaded c;
    saveState := saveState c; lastSavedAt := lastSavedAt c; isEditing := isEditing c;
    lastSavedValueRef := lastSavedValueRef c; lastSavedImagesRef := lastSavedImagesRef c;
    debounceRef := debounceRef c; syncDebounceRef := syncDebounceRef c |}).

(** Every call site passes a freshly built array. *)
Definition setImages (i : list ImageData) : World → World :=
  withComp (λ c, {| value := value c; images := i; imagesId := S (imagesId c); initialLoaded := initialLoaded c;
    saveState := saveState c; lastSavedAt := lastSavedAt c; isEditing := isEditing c;
    lastSavedValueRef := lastSavedValueRef c; lastSavedImagesRef := lastSavedImagesRef c;
    debounceRef := debounceRef c; syncDebounceRef := syncDebounceRef c |}).

Definition setInitialLoaded (b : bool) : World → World :=
  withComp (λ c, {| value := value c; images := images c; imagesId := imagesId c; initialLoaded := b;
    saveState := saveState c; lastSavedAt := lastSavedAt c; isEditing := isEditing c;
    lastSavedValueRef := lastSavedValueRef c; lastSavedImagesRef := lastSavedImagesRef c;
    debounceRef := debounceRef c; syncDebounceRef := syncDebounceRef c |}).

Definition setSaveState (s : SaveState) : World → World :=
  withComp (λ c, {| value := value c; images := images c; imagesId := imagesId c; initialLoaded := initialLoaded c;
    saveState := s; lastSavedAt := lastSavedAt c; isEditing := isEditing c;
    lastSavedValueRef := lastSavedValueRef c; lastSavedImagesRef := lastSavedImagesRef c;
    debounceRef := debounceRef c; syncDebounceRef := syncDebounceRef c |}).

Definition setLastSavedAt (t : option N) : World → World :=
  withComp (λ c, {| value := value c; images := images c; imagesId := imagesId c; initialLoaded := initialLoaded c;
    saveState := saveState c; lastSavedAt := t; isEditing := isEditing c;
    lastSavedValueRef := lastSavedValueRef c; lastSavedImagesRef := lastSavedImagesRef c;
    debounceRef := debounceRef c; syncDebounceRef := syncDebounceRef c |}).

Definition setIsEditing (b : bool) : World → World :=
  withComp (λ c, {| value := value c; images := images c; imagesId := imagesId c; initialLoaded := initialLoaded c;
    saveState := saveState c; lastSavedAt := lastSavedAt c; isEditing := b;
    lastSavedValueRef := lastSavedValueRef c; lastSavedImagesRef := lastSavedImagesRef c;
    debounceRef := debounceRef c; syncDebounceRef := syncDebounceRef c |}).

Definition setLastSavedValueRef (v : str) : World → World :=
  withComp (λ c, {| value := value c; images := images c; imagesId := imagesId c; initialLoaded := initialLoaded c;
    saveState := saveState c; lastSavedAt := lastSavedAt c; isEditing := isEditing c;
    lastSavedValueRef := v; lastSavedImagesRef := lastSavedImagesRef c;
    debounceRef := debounceRef c; syncDebounceRef := syncDebounceRef c |}).

Definition setLastSavedImagesRef (i : list ImageData) : World → World :=
  withComp (λ c, {| value := value c; images := images c; imagesId := imagesId c; initialLoaded := initialLoaded c;
    saveState := saveState c; lastSavedAt := lastSavedAt c; isEditing := isEditing c;
    lastSavedValueRef := lastSavedValueRef c; lastSavedImagesRef := i;
    debounceRef := debounceRef c; syncDebounceRef := syncDebounceRef c |}).

Definition setDebounceRef (t : option nat) : World → World :=
  withComp (λ c, {| value := value c; images := images c; imagesId := imagesId c; initialLoaded := initialLoaded c;
    saveState := saveState c; lastSavedAt := lastSavedAt c; isEditing := isEditing c;
    lastSavedValueRef := lastSavedValueRef c; lastSavedImagesRef := lastSavedImagesRef c;
    debounceRef := t; syncDebounceRef := syncDebounceRef c |}).

Definition setSyncDebounceRef (t : option nat) : World → World :=
  withComp (λ c, {| value := value c; images := images c; imagesId := imagesId c; initialLoaded := initialLoaded c;
    saveState := saveState c; lastSavedAt := lastSavedAt c; isEditing := isEditing c;
    lastSavedValueRef := lastSavedValueRef c; lastSavedImagesRef := lastSavedImagesRef c;
    debounceRef := debounceRef c; syncDebounceRef := t |}).

Definition setAutosaveCleanup (b : bool) (w : World) : World :=
  {| user := user w; questionId := questionId w; autoEdit := autoEdit w;
     comp := comp w; env := env w;
     instance := instance w; cancelled := cancelled w; autosaveCleanup := b |}.

(** *** Browser primitives *)

Definition setLocalStorage (m : gmap str Stored) (log : list (str * Stored))
    : World → World :=
  withEnv (λ b, {| now := now b; localStorage := m; setItems := log;
    timers := timers b; nextHandle := nextHandle b; fetches := fetches b;
    posts := posts b; toasts := toasts b |}).

Definition setTimers (ts : list Timer) (next : nat) : World → World :=
  withEnv (λ b, {| now := now b; localStorage := localStorage b; setItems := setItems b;
    timers := ts; nextHandle := next; fetches := fetches b;
    posts := posts b; toasts := toasts b |}).

Definition setFetches (fs : list Fetch) : World → World :=
  withEnv (λ b, {| now := now b; localStorage := localStorage b; setItems := setItems b;
    timers := timers b; nextHandle := nextHandle b; fetches := fs;
    posts := posts b; toasts := toasts b |}).

Definition setPosts (ps : list Post) : World → World :=
  withEnv (λ b, {| now := now b; localStorage := localStorage b; setItems := setItems b;
    timers := timers b; nextHandle := nextHandle b; fetches := fetches b;
    posts := ps; toasts := toasts b |}).

Definition toast (t : Toast) : World → World :=
  withEnv (λ b, {| now := now b; localStorage := localStorage b; setItems := setItems b;
    timers := timers b; nextHandle := nextHandle b; fetches := fetches b;
    posts := posts b; toasts := toasts b ++ [t] |}).

Definition elapse (d : N) : World → World :=
  withEnv (λ b, {| now := (now b + d)%N; localStorage := localStorage b;
    setItems := setItems b; timers := timers b; nextHandle := nextHandle b;
    fetches := fetches b; posts := posts b; toasts := toasts b |}).

(** [localStorage.setItem(key, JSON.stringify(item))] when it does not throw *)
Definition setItem (key : str) (item : Stored) (w : World) : World :=
  setLocalStorage (<[key := item]> (localStorage (env w)))
                  (setItems (env w) ++ [(key, item)]) w.

Definition removeItem (key : str) (w : World) : World :=
  setLocalStorage (delete key (localStorage (env w))) (setItems (env w)) w.

(** [setTimeout(cb, delay)]: the handle it returns and the world after it *)
Definition setTimeout (cb : Callback) (delay : N) (w : World) : nat * World :=
  let h := nextHandle (env w) in
  (h, setTimers (timers (env w)
                   ++ [{| handle := h; due := (now (env w) + delay)%N; callback := cb |}])
                (S h) w).

(** [if (ref.current) clearTimeout(ref.current)] *)
Definition cleared (ref : option nat) (ts : list Timer) : list Timer :=
  match ref with
  | Some h => filter (λ t, handle t ≠ h) ts
  | None => ts
  end.

Definition clearTimeout (ref : option nat) (w : World) : World :=
  setTimers (cleared ref (timers (env w))) (nextHandle (env w)) w.

Notation "w |> f" := (f w) (at level 45, left associativity, only parsing).

(** *** The component's functions *)

(** [user?.id] when it is truthy *)
Definition signedIn (u : option str) : option str :=
  match u with
  | Some (c :: s) => Some (c :: s)
  | _ => None
  end.

(** [`notes_${user?.id || 'guest'}_${questionId}`] *)
Definition localStorageKey (u : option str) (q : str) : str :=
  "notes_" ++ default ("guest" : str) (signedIn u) ++ "_" ++ q.

(** [Boolean((value && value.trim()) || images.length > 0)] *)
Definition hasContent (w : World) : bool :=
  bool_decide ((value (comp w) ≠ [] ∧ Js.trim (value (comp w)) ≠ [])
               ∨ images (comp w) ≠ []).

(** Two registries serialise to the same JSON exactly when they are equal. *)
Definition hasChanges (w : World) : bool :=
  bool_decide (value (comp w) ≠ lastSavedValueRef (comp w)
               ∨ images (comp w) ≠ lastSavedImagesRef (comp w)).

Definition currentRender (w : World) : Render :=
  {| r_user := user w; r_questionId := questionId w;
     r_value := value (comp w); r_images := images (comp w) |}.

Definition notify (silent : bool) (t : Toast) (w : World) : World :=
  if silent then w else toast t w.

Definition loadFromLocalStorage (w : World) : World :=
  match localStorage (env w) !! localStorageKey (user w) (questionId w) with
  | Some (Note v imgs t) =>
      if bool_decide (v ≠ [] ∨ imgs ≠ []) then
        w |> setValue v |> setImages imgs
          |> setLastSavedValueRef v |> setLastSavedImagesRef imgs
          |> setLastSavedAt (Some t)
      else w
  | Some Foreign => w
  | None => w
  end.

(** [syncWithServer] up to its first [await] *)
Definition syncWithServer (w : World) : World :=
  match signedIn (user w) with
  | None => w
  | Some uid =>
      if bool_decide (instance w ∈ cancelled w) then w
      else
        w |> setSaveState loading
          |> setFetches (fetches (env w)
                           ++ [{| f_instance := instance w; f_user := uid;
                                  f_questionId := questionId w;
                                  f_await := AwaitResponse |}])
  end.

(** The [finally] block of [syncWithServer], run by instance [e] *)
Definition finallyLoaded (e : nat) (w : World) : World :=
  if bool_decide (e ∈ cancelled w) then w
  else w |> setSaveState idle |> setInitialLoaded true.

(** The body of [if (!cancelled) { ... }] once [res.json()] has resolved *)
Record Payload : Type := mkPayload {
  notes : option str;                  (* [data?.notes] when it is a string *)
  notesImageUrls : option (list str);  (* [data?.notesImageUrls] when it is an array *)
}.

Definition shouldUseServerData (local : option Stored) (serverNotes : str)
    (serverImageUrls : list str) : bool :=
  match local with
  | Some (Note v imgs _) =>
      negb (bool_decide (v = serverNotes ∧ map url imgs = serverImageUrls))
  | Some Foreign => true
  | None => true
  end.

Definition applyServerData (f : Fetch) (data : Payload) (storageOk : bool) (w : World)
    : World :=
  let serverNotes := default [] (notes data) in
  let serverImageUrls := default [] (notesImageUrls data) in
  let key := localStorageKey (Some (f_user f)) (f_questionId f) in
  if shouldUseServerData (localStorage (env w) !! key) serverNotes serverImageUrls
     && bool_decide (serverNotes ≠ [] ∨ serverImageUrls ≠ [])
  then
    match cleanOrphanedImages serverNotes serverImageUrls with
    | None => w
    | Some cleanedNotes =>
        let imageData := rebuildImages (extractImageIds cleanedNotes) serverImageUrls in
        let t := now (env w) in
        let w := w |> setValue cleanedNotes |> setImages imageData
                   |> setLastSavedValueRef cleanedNotes
                   |> setLastSavedImagesRef imageData
                   |> setLastSavedAt (Some t) in
        if storageOk then setItem key (Note cleanedNotes imageData t) w else w
    end
  else w.

Inductive Response : Type := Rejected | Status (ok : bool).

Definition takeFetch (e : nat) (a : Await) (w : World) : option (Fetch * World) :=
  match List.find (λ f, bool_decide (f_instance f = e ∧ f_await f = a))
                  (fetches (env w)) with
  | Some f =>
      Some (f, setFetches (filter (λ g, ¬ (f_instance g = e ∧ f_await g = a))
                                  (fetches (env w))) w)
  | None => None
  end.

(** [await fetch(...)] settles for instance [e] *)
Definition responseSettled (e : nat) (res : Response) (w : World) : World :=
  match takeFetch e AwaitResponse w with
  | None => w
  | Some (f, w) =>
      match res with
      | Rejected => finallyLoaded e w
      | Status ok =>
          if negb ok || bool_decide (e ∈ cancelled w) then finallyLoaded e w
          else setFetches (fetches (env w)
                             ++ [{| f_instance := e; f_user := f_user f;
                                    f_questionId := f_questionId f;
                                    f_await := AwaitJson |}]) w
      end
  end.

(** [await res.json()] settles for instance [e] *)
Definition jsonSettled (e : nat) (data : option Payload) (storageOk : bool) (w : World)
    : World :=
  match takeFetch e AwaitJson w with
  | None => w
  | Some (f, w) =>
      match data with
      | None => finallyLoaded e w
      | Some d =>
          finallyLoaded e
            (if bool_decide (e ∈ cancelled w) then w
             else applyServerData f d storageOk w)
      end
  end.

Definition saveToLocalStorage (key : str) (content : str) (imageData : list ImageData)
    (storageOk : bool) (w : World) : World * bool :=
  if storageOk then
    (w |> setItem key (Note content imageData (now (env w)))
       |> setLastSavedAt (Some (now (env w))), true)
  else (w, false).

(** [syncToServer] up to its [await]: the request it sends *)
Definition syncToServer (r : Render) (content : str) (imageUrls : list str)
    (silent : bool) (w : World) : World :=
  match signedIn (r_user r) with
  | None => w
  | Some uid =>
      setPosts (posts (env w)
                  ++ [{| p_userId := uid; p_questionId := r_questionId r;
                         p_notes := content; p_notesImageUrls := imageUrls;
                         p_silent := silent |}]) w
  end.

(** The response to the [k]-th POST arrives, or its [fetch] rejects *)
Definition postSettled (k : nat) (ok : bool) (w : World) : World :=
  match posts (env w) !! k with
  | Some p => notify (p_silent p) (if ok then Synchronise else ErreurDeSynchronisation) w
  | None => w
  end.

Definition saveFailed (silent : bool) (w : World) : World :=
  w |> setSaveState error |> notify silent Erreur.

Definition save (silent : bool) (r : Render) (storageOk : bool) (w : World) : World :=
  match signedIn (r_user r) with
  | None => notify silent ConnexionRequise w
  | Some _ =>
      let w := setSaveState saving w in
      let imageUrls := map url (r_images r) in
      match cleanOrphanedImages (r_value r) imageUrls with
      | None => saveFailed silent w
      | Some cleanedContent =>
          let '(w, localSaved) :=
            saveToLocalStorage (localStorageKey (r_user r) (r_questionId r))
                               cleanedContent (r_images r) storageOk w in
          if localSaved then
            let w := w |> setValue cleanedContent
                       |> setLastSavedValueRef cleanedContent
                       |> setLastSavedImagesRef (r_images r)
                       |> setSaveState saved
                       |> notify silent Sauvegarde in
            let w := clearTimeout (syncDebounceRef (comp w)) w in
            let '(h, w) := setTimeout (ServerSync r cleanedContent imageUrls) 2000 w in
            let w := setSyncDebounceRef (Some h) w in
            snd (setTimeout RevertToIdle 1200 w)
          else saveFailed silent w
      end
  end.

(** The autosave effect. Its cleanup exists when its previous run went past
    the three guards. *)
Definition autosaveCleanupRun (w : World) : World :=
  if autosaveCleanup w then clearTimeout (debounceRef (comp w)) w else w.

Definition autosaveBody (w : World) : World :=
  if negb (initialLoaded (comp w)) then setAutosaveCleanup false w
  else if negb (hasChanges w) then setAutosaveCleanup false w
  else
    match signedIn (user w) with
    | None => setAutosaveCleanup false w
    | Some _ =>
        let w := clearTimeout (debounceRef (comp w)) w in
        let '(h, w) := setTimeout (Autosave (currentRender w)) 500 w in
        w |> setDebounceRef (Some h) |> setAutosaveCleanup true
    end.

Definition autosaveEffect (w : World) : World :=
  w |> autosaveCleanupRun |> autosaveBody.

(** The effect that enters edit mode:
    [if (autoEdit && !hasContent && initialLoaded) setIsEditing(true)] *)
Definition autoEditEffect (w : World) : World :=
  if autoEdit w && negb (hasContent w) && initialLoaded (comp w)
  then setIsEditing true w else w.

(** The cleanup of the load effect *)
Definition loadCleanup (w : World) : World :=
  let w := {| user := user w; questionId := questionId w; autoEdit := autoEdit w;
              comp := comp w; env := env w;
              instance := instance w; cancelled := instance w :: cancelled w;
              autosaveCleanup := autosaveCleanup w |} in
  w |> clearTimeout (debounceRef (comp w)) |> clearTimeout (syncDebounceRef (comp w)).

(** The body of the load effect *)
Definition loadEffect (w : World) : World :=
  w |> setValue [] |> setImages [] |> setInitialLoaded false |> setSaveState idle
    |> setIsEditing false |> setLastSavedValueRef [] |> setLastSavedImagesRef []
    |> loadFromLocalStorage |> syncWithServer.

(** New props arrive with a different user or question: a new instance of the
    load effect replaces the one mounted. *)
Definition withProps (u : option str) (q : str) (w : World) : World :=
  {| user := u; questionId := q; autoEdit := autoEdit w; comp := comp w; env := env w;
     instance := S (instance w); cancelled := cancelled w;
     autosaveCleanup := autosaveCleanup w |}.

(** The parent passes another [autoEdit]. *)
Definition withAutoEdit (b : bool) (w : World) : World :=
  {| user := user w; questionId := questionId w; autoEdit := b; comp := comp w;
     env := env w; instance := instance w; cancelled := cancelled w;
     autosaveCleanup := autosaveCleanup w |}.

Definition hydrate (u : option str) (q : str) (w : World) : World :=
  w |> loadCleanup |> withProps u q |> loadEffect.

Definition clearNote (storageOk : bool) (w : World) : World :=
  let r := currentRender w in
  let w := w |> setValue [] |> setImages [] |> setIsEditing false in
  let w := if storageOk
           then removeItem (localStorageKey (r_user r) (r_questionId r)) w else w in
  let w := match signedIn (r_user r) with
           | Some _ => syncToServer r [] [] true w
           | None => w
           end in
  w |> setLastSavedValueRef [] |> setLastSavedImagesRef [] |> setLastSavedAt None
    |> toast Efface.

Definition handleEdit (w : World) : World := setIsEditing true w.

Definition handleCancelEdit (w : World) : World :=
  w |> setValue (lastSavedValueRef (comp w))
    |> setImages (lastSavedImagesRef (comp w))
    |> setIsEditing false.

(** [handleSaveEdit] up to its [await]: [save] runs to its end before it
    returns its promise. *)
Definition handleSaveEdit (storageOk : bool) (w : World) : World :=
  save false (currentRender w) storageOk w.

(** A timer callback runs once its delay has passed. *)
Definition fire (h : nat) (storageOk : bool) (w : World) : World :=
  match List.find (λ t, bool_decide (handle t = h)) (timers (env w)) with
  | None => w
  | Some t =>
      if (due t <=? now (env w))%N then
        let w := setTimers (filter (λ t', handle t' ≠ h) (timers (env w)))
                           (nextHandle (env w)) w in
        match callback t with
        | Autosave r => save true r storageOk w
        | ServerSync r content imageUrls => syncToServer r content imageUrls true w
        | RevertToIdle => setSaveState idle w
        end
      else w
  end.

(** *** Events *)

Inductive Event : Type :=
| Navigate (u : option str) (q : str)
| AutoEdit (b : bool)                     (* the parent passes another [autoEdit] *)
| ResponseSettled (e : nat) (res : Response)
| JsonSettled (e : nat) (data : option Payload) (storageOk : bool)
| Change (v : str)                        (* [onChange={setValue}] *)
| ImagesChange (imgs : list ImageData)    (* [onImagesChange={setImages}] *)
| Elapse (d : N)
| Fire (h : nat) (storageOk : bool)
| PostSettled (k : nat) (ok : bool)
| ClickEdit
| ClickCancel
| ClickSave (storageOk : bool)
| ClickClear (storageOk : bool).

Definition handler (ev : Event) (w : World) : World :=
  match ev with
  | Navigate u q =>
      if bool_decide (u = user w ∧ q = questionId w) then w else hydrate u q w
  | AutoEdit b => withAutoEdit b w
  | ResponseSettled e res => responseSettled e res w
  | JsonSettled e data storageOk => jsonSettled e data storageOk w
  | Change v => setValue v w
  | ImagesChange imgs => setImages imgs w
  | Elapse d => elapse d w
  | Fire h storageOk => fire h storageOk w
  | PostSettled k ok => postSettled k ok w
  | ClickEdit => handleEdit w
  | ClickCancel => handleCancelEdit w
  | ClickSave storageOk =>
      if initialLoaded (comp w) then handleSaveEdit storageOk w else w
  | ClickClear storageOk =>
      if initialLoaded (comp w)
         && bool_decide (value (comp w) ≠ [] ∨ images (comp w) ≠ [])
      then clearNote storageOk w else w
  end.

(** The dependencies of the autosave effect that can differ between two
    renders; [hasChanges] is a memo over [value] and [images]. *)
Definition autosaveDeps (w : World) : str * nat * bool * option str :=
  (value (comp w), imagesId (comp w), initialLoaded (comp w), user w).

(** The dependencies of the effect that enters edit mode; [hasContent] is a
    memo over [value] and [images]. *)
Definition autoEditDeps (w : World) : bool * bool * bool :=
  (autoEdit w, hasContent w, initialLoaded (comp w)).

(** The effect that enters edit mode, re-run if one of its dependencies
    changed. *)
Definition afterAutoEdit (before after : World) : World :=
  if decide (autoEditDeps before = autoEditDeps after) then after
  else autoEditEffect after.

(** After the handler, React renders again and re-runs, in the order the
    component declares them, the effects one of whose dependencies changed:
    the effect that enters edit mode, then the autosave effect. Both read the
    state of that render. The effect that reports [hasContent] to the parent
    changes nothing here, and the load effect is re-run by [Navigate]. *)
Definition commit (before after : World) : World :=
  if decide (autosaveDeps before = autosaveDeps after) then afterAutoEdit before after
  else autosaveEffect (afterAutoEdit before after).

(** What a handler does once its [await] has resolved, which is after the
    render its first updates caused and the effects of that render:
    [handleSaveEdit] closes the editor. No dependency of an effect changes in
    the render that follows. *)
Definition resumed (ev : Event) (before w : World) : World :=
  match ev with
  | ClickSave _ => if initialLoaded (comp before) then setIsEditing false w else w
  | _ => w
  end.

Definition step (ev : Event) (w : World) : World :=
  resumed ev w (commit w (handler ev w)).

Arguments step : simpl never.

Definition run (evs : list Event) (w : World) : World := foldl (λ w ev, step ev w) w evs.

Definition unmounted (u : option str) (q : str) (a : bool) (storage : gmap str Stored)
    (t0 : N) : World :=
  {| user := u; questionId := q; autoEdit := a;
     comp := {| value := []; images := []; imagesId := 0; initialLoaded := false;
                saveState := idle; lastSavedAt := None; isEditing := false;
                lastSavedValueRef := []; lastSavedImagesRef := [];
                debounceRef := None; syncDebounceRef := None |};
     env := {| now := t0; localStorage := storage; setItems := []; timers := [];
               nextHandle := 1; fetches := []; posts := []; toasts := [] |};
     instance := 0; cancelled := []; autosaveCleanup := false |}.

(** First render: the effects run in the order the component declares them,
    and again those whose dependencies the load effect has changed. *)
Definition mount (u : option str) (q : str) (a : bool) (storage : gmap str Stored)
    (t0 : N) : World :=
  let w := unmounted u q a storage t0 in
  commit w (autosaveEffect (loadEffect (autoEditEffect w))).

Definition reachable (w : World) : Prop :=
  ∃ u q a storage t0 evs, w = run evs (mount u q a storage t0).

(** ** Reading a body as text and placeholders *)

Definition reference (imageId : str) : str := "[IMAGE:" ++ imageId ++ "]".

Definition pieces (content : str) : list (Js.piece str) := Js.scan imageRegex content.

Definition textOf (ps : list (Js.piece str)) : str :=
  flat_map (λ p, match p with Js.Skipped c => [c] | Js.Matched i => reference i end) ps.

Abbreviation idsOf := (@Js.matched str).

(** The pieces with every placeholder after the first [n] taken out. *)
Fixpoint keepFirst (n : nat) (ps : list (Js.piece str)) : list (Js.piece str) :=
  match ps with
  | [] => []
  | Js.Skipped c :: r => Js.Skipped c :: keepFirst n r
  | Js.Matched i :: r =>
      match n with
      | 0 => keepFirst 0 r
      | S m => Js.Matched i :: keepFirst m r
      end
  end.

(** Every opening bracket of the body starts a placeholder. *)
Definition tidyPiece (p : Js.piece str) : bool :=
  match p with
  | Js.Skipped c => bool_decide (c ≠ "["%char)
  | Js.Matched i => bool_decide ("["%char ∉ i)
  end.

Definition tidy (content : str) : bool := forallb tidyPiece (pieces content).

(** An expression whose every match consumes input. *)
Definition shrinks {A} (re : Js.Matcher A) : Prop :=
  ∀ s a rest, re s = Some (a, rest) → length rest < length s.

(** What remains of the pieces once the placeholders of the ids in [D] are
    taken out. *)
Definition survives (D : list str) (p : Js.piece str) : bool :=
  match p with
  | Js.Skipped _ => true
  | Js.Matched j => bool_decide (j ∉ D)
  end.

Definition without (D : list str) (ps : list (Js.piece str)) : list (Js.piece str) :=
  filter (λ p, survives D p) ps.

(** The [forEach] of [cleanOrphanedImages] over the ids it removes, when no
    expression fails to build. *)
Fixpoint removeIds (ids : list str) (s : str) : str :=
  match ids with
  | [] => s
  | i :: ids => removeIds ids (Js.eraseAll (Js.literally (reference i)) s)
  end.

Definition goodPiece (p : Js.piece str) : Prop :=
  match p with
  | Js.Skipped c => c ≠ "["%char
  | Js.Matched i => i ≠ [] ∧ ("]"%char ∉ i) ∧ ("["%char ∉ i)
  end.

(** The body does not begin with whitespace. *)
Definition startsClean (s : str) : Prop :=
  match s with
  | c :: _ => Js.isWhiteSpace c = false
  | [] => True
  end.

(** [takesOut D s t]: the text [t] is what is left of [s] once placeholders
    with ids of [D] have been taken out of it, one after the other, each a
    whole placeholder of the text as it stands when it is taken out. *)
Inductive takesOut (D : list str) : str → str → Prop :=
| takesOut_nothing s : takesOut D s s
| takesOut_reference a i b t :
    i ∈ D → takesOut D (a ++ b) t → takesOut D (a ++ reference i ++ b) t.

(** The registry of the specification: ids and URLs paired by position,
    records with an empty URL dropped. *)
Definition pairByPosition (ids urls : list str) : list ImageData :=
  filter (λ img, url img ≠ [])
    (zip_with (λ i u, {| id := i; url := u; description := [] |}) ids urls).

(** ** Bookkeeping of the timers and of the fetches in flight *)

Definition isAutosave (t : Timer) : bool :=
  match callback t with Autosave _ => true | _ => false end.

Definition isServerSync (t : Timer) : bool :=
  match callback t with ServerSync _ _ _ => true | _ => false end.

(** Handles are fresh and distinct, each pending debounce timer is the one
    its ref holds, and the refs hold handles that have been handed out. *)
Definition timersOk (ts : list Timer) (next : nat) (dref sref : option nat) : Prop :=
  (∀ t, t ∈ ts → handle t < next)
  ∧ NoDup (handle <$> ts)
  ∧ (∀ t, t ∈ ts → isAutosave t = true → dref = Some (handle t))
  ∧ (∀ t, t ∈ ts → isServerSync t = true → sref = Some (handle t))
  ∧ (∀ h, dref = Some h → h < next)
  ∧ (∀ h, sref = Some h → h < next).

(** Every fetch in flight belongs to the mounted instance of the load effect
    or to one whose [cancelled] flag is set. *)
Definition fetchesOk (fs : list Fetch) (inst : nat) (cancelledInsts : list nat) : Prop :=
  ∀ f, f ∈ fs → f_instance f = inst ∨ f_instance f ∈ cancelledInsts.

Definition tracked (w : World) : Prop :=
  timersOk (timers (env w)) (nextHandle (env w))
           (debounceRef (comp w)) (syncDebounceRef (comp w))
  ∧ fetchesOk (fetches (env w)) (instance w) (cancelled w).

(** The local cache already holds the remote notes and URL list. *)
Definition sameAsLocal (local : option Stored) (serverNotes : str)
    (serverImageUrls : list str) : Prop :=
  ∃ imgs t, local = Some (Note serverNotes imgs t) ∧ map url imgs = serverImageUrls.

(** What a change of the body or the passing of time leaves alone. *)
Definition steady (w w' : World) : Prop :=
  user w' = user w ∧ questionId w' = questionId w
  ∧ images (comp w') = images (comp w)
  ∧ initialLoaded (comp w') = initialLoaded (comp w)
  ∧ lastSavedValueRef (comp w') = lastSavedValueRef (comp w)
  ∧ lastSavedImagesRef (comp w') = lastSavedImagesRef (comp w)
  ∧ localStorage (env w') = localStorage (env w)
  ∧ setItems (env w') = setItems (env w)
  ∧ posts (env w') = posts (env w).

(** ** Sample sessions *)

Definition sampleEntropy : Entropy :=
  {| sample := λ n, ((1700000000000 + N.of_nat n)%N, "k3j9x2q1z" : str); calls := 0 |}.

(** The body a first migration of ["[IMAGE:u|d] x|y]"] returns. *)
Definition remigratedBody : str := "[IMAGE:img_1700000000000_k3j9x2q1z] x|y]".

Definition sampleUser : option str := Some ("u1" : str).

Definition sampleKey : str := localStorageKey sampleUser "q1".

(** A cache that holds the note ["hello"] without images. *)
Definition helloCache : gmap str Stored := {[ sampleKey := Note "hello" [] 5 ]}.

Definition helloRemote : Payload :=
  {| notes := Some ("hello" : str); notesImageUrls := Some [] |}.

Definition emptyRemote : Payload := {| notes := Some []; notesImageUrls := Some [] |}.

Definition twoPlaceholdersRemote : Payload :=
  {| notes := Some ("[IMAGE:a][IMAGE:b]" : str);
     notesImageUrls := Some [("http://x/1.png" : str)] |}.

(** The component mounted over [helloCache], its fetch answered and the body
    of the answer awaited. *)
Definition helloAwaitingJson : World :=
  run [ResponseSettled 0 (Status true)] (mount sampleUser "q1" false helloCache 1000).

(** The component mounted over an empty cache, the remote store unreachable. *)
Definition sampleLoaded : World :=
  run [ResponseSettled 0 (Status false)] (mount sampleUser "q1" false ∅ 1000).

Definition sampleFetch (a : Await) : Fetch :=
  {| f_instance := 0; f_user := "u1"; f_questionId := "q1"; f_await := a |}.

(** A body whose placeholder names no image of the registry. *)
Definition ghostImages : list ImageData :=
  [{| id := "img1"; url := "http://x/1.png"; description := [] |}].

Definition ghostRender : Render :=
  {| r_user := sampleUser; r_questionId := "q1";
     r_value := "[IMAGE:ghost]"; r_images := ghostImages |}.

(** ** Further bookkeeping of the component *)

(** A pending autosave timer was scheduled by a run of the autosave effect
    that left a cleanup behind. *)
Definition armed (w : World) : Prop :=
  ∀ t, t ∈ timers (env w) → isAutosave t = true → autosaveCleanup w = true.

(** The closure of every pending autosave timer is the render on screen, of
    a loaded note and a signed-in user. *)
Definition upToDate (w : World) : Prop :=
  ∀ t r, t ∈ timers (env w) → callback t = Autosave r →
         r = currentRender w ∧ initialLoaded (comp w) = true
         ∧ signedIn (user w) ≠ None.

(** Every request was sent silently and no toast reports on a remote sync. *)
Definition quiet (w : World) : Prop :=
  (∀ p, p ∈ posts (env w) → p_silent p = true)
  ∧ (∀ t, t ∈ toasts (env w) → t ≠ Synchronise ∧ t ≠ ErreurDeSynchronisation).

(** Events of a session in which nobody signs in. *)
Definition guestEvent (ev : Event) : bool :=
  match ev with
  | Navigate u _ => bool_decide (signedIn u = None)
  | _ => true
  end.

(** Nothing is loaded, in flight, pending, sent or written. *)
Definition dormant (w : World) : Prop :=
  initialLoaded (comp w) = false
  ∧ fetches (env w) = [] ∧ timers (env w) = [] ∧ posts (env w) = []
  ∧ setItems (env w) = [] ∧ toasts (env w) = []
  ∧ debounceRef (comp w) = None ∧ syncDebounceRef (comp w) = None.

(** A timer whose handle a debounce ref holds is a timer of that ref's kind:
    clearing through the ref cancels no other timer. *)
Definition ownedOk (ts : list Timer) (dref sref : option nat) : Prop :=
  (∀ t, t ∈ ts → dref = Some (handle t) → isAutosave t = true)
  ∧ (∀ t, t ∈ ts → sref = Some (handle t) → isServerSync t = true).

Definition owned (w : World) : Prop :=
  ownedOk (timers (env w)) (debounceRef (comp w)) (syncDebounceRef (comp w)).

(** ** Editing operations of [RichTextInput] *)

(** [insertImageAtCursor(imageUrl, description)]. [textarea] is the
    [selectionStart] of the textarea the ref holds, or [None] when the ref
    holds none. *)
Definition insertImageAtCursor (value : str) (images : list ImageData)
    (textarea : option nat) (imageUrl description : str) (e : Entropy)
    : str * list ImageData * Entropy :=
  match textarea with
  | None => (value, images, e)
  | Some cursorPos =>
      let beforeCursor := take cursorPos value in
      let afterCursor := drop cursorPos value in
      let '(imageId, e') := generateImageId e in
      let newImage :=
        {| id := imageId; url := imageUrl;
           description := match description with
                          | [] => "Image"
                          | _ :: _ => description
                          end |} in
      let newImages := images ++ [newImage] in
      let imageTag : str := "[IMAGE:" ++ imageId ++ "]" in
      (beforeCursor ++ imageTag ++ afterCursor, newImages, e')
  end.

(** [removeImage(imageId)]: the body and the registry it hands to [onChange]
    and [onImagesChange]. The id goes into the pattern as it is; [None]
    stands for the ids that make a pattern outside the sources [Js.RegExp]
    covers. *)
Definition removeImage (value : str) (images : list ImageData) (imageId : str)
    : option (str * list ImageData) :=
  let newImages := filter (λ img, id img ≠ imageId) images in
  imagePattern ← Js.RegExp ("\[IMAGE:" ++ imageId ++ "\]");
  Some (Js.eraseAll (Js.literally imagePattern) value, newImages).

(** [images.find(img => img.id === imageId)], which [editImage] opens. *)
Definition editImage (images : list ImageData) (imageId : str) : option ImageData :=
  List.find (λ img, bool_decide (id img = imageId)) images.

(** [saveImageEdit]: the registry handed to [onImagesChange]; [editingImage]
    is the image the dialog was opened on and the form holds the two fields
    of the dialog. *)
Definition saveImageEdit (images : list ImageData) (editingImage : option ImageData)
    (form_url form_description : str) : list ImageData :=
  match editingImage with
  | None => images
  | Some editing =>
      map (λ img, if decide (id img = id editing)
                  then {| id := id img; url := form_url;
                          description := form_description |}
                  else img)
          images
  end.

(** An id without pattern syntax characters, as [generateImageId] makes
    them. *)
Definition plainId (imageId : str) : Prop :=
  Forall (λ c, Js.isSyntaxChar c = false) imageId.

(** ** The preview of [RichTextInput] *)

(** [while ((m = re.exec(s)) !== null)]: for each match its [index], its
    text [m[0]] and its captures. [index] is where [s] starts in the subject;
    the fuel bounds the iterations as in [Js.scanFrom]. *)
Fixpoint execFrom {A} (re : Js.Matcher A) (fuel index : nat) (s : str)
    : list (nat * str * A) :=
  match fuel, s with
  | S n, c :: r =>
      match re s with
      | Some (a, rest) =>
          let len := length s - length rest in
          (index, take len s, a) :: execFrom re n (index + len) rest
      | None => execFrom re n (S index) r
      end
  | _, _ => []
  end.

Definition execIndexed {A} (re : Js.Matcher A) (s : str) : list (nat * str * A) :=
  execFrom re (length s) 0 s.

(** The longest run of code units other than a bar and a closing bracket,
    provided a bar follows it: what [[^|\]]+] followed by [\|] matches. *)
Fixpoint breakAtBar (s : str) : option (str * str) :=
  match s with
  | [] => None
  | c :: r =>
      if decide (c = "|"%char) then Some ([], r)
      else if decide (c = "]"%char) then None
      else '(run, rest) ← breakAtBar r; Some (c :: run, rest)
  end.

(** [/\[IMAGE:[^|\]]+\|[^\]]+\]/] *)
Definition legacyTest : Js.Matcher unit :=
  λ s,
    r ← Js.stripPrefix "[IMAGE:" s;
    '(urlRaw, r1) ← breakAtBar r;
    '(descRaw, rest) ← Js.breakAt "]" r1;
    match urlRaw, descRaw with
    | _ :: _, _ :: _ => Some ((), rest)
    | _, _ => None
    end.

Inductive PartType : Type := textPart | imagePart.

Record Part : Type := mkPart {
  part_type : PartType;
  part_content : str;
  part_imageId : option str;
}.

(** [s.substring(from, to)] for [from ≤ to] *)
Definition substring (s : str) (from to : nat) : str := take (to - from) (drop from s).

(** The body of the two [while] loops of [renderPreview]: the parts pushed
    and the value [lastIndex] is left with. *)
Fixpoint pushMatches {A} (processedText : str) (imageIdOf : A → str)
    (ms : list (nat * str * A)) (lastIndex : nat) : list Part * nat :=
  match ms with
  | [] => ([], lastIndex)
  | (index, full, a) :: ms' =>
      let before :=
        if decide (lastIndex < index)
        then [mkPart textPart (substring processedText lastIndex index) None]
        else [] in
      let '(parts, last) :=
        pushMatches processedText imageIdOf ms' (index + length full) in
      (before ++ mkPart imagePart full (Some (imageIdOf a)) :: parts, last)
  end.

(** [if (lastIndex < processedText.length) parts.push(...)] *)
Definition pushRemaining (processedText : str) (lastIndex : nat) : list Part :=
  if decide (lastIndex < length processedText)
  then [mkPart textPart (drop lastIndex processedText) None]
  else [].

(** The [parts] that [renderPreview] maps to elements; [None] is the [null]
    it returns for an empty body without images. *)
Definition renderPreview (value : str) (images : list ImageData) : option (list Part) :=
  if bool_decide (value = [] ∧ images = []) then None
  else
    let processedText := value in
    let '(legacyParts, lastIndex) :=
      if Js.test legacyTest processedText then
        let '(parts, last) :=
          pushMatches processedText
            (λ '(urlRaw, descRaw), "legacy::" ++ Js.trim urlRaw ++ "|" ++ Js.trim descRaw)
            (execIndexed legacyRegex processedText) 0 in
        (parts ++ pushRemaining processedText last, last)
      else ([], 0) in
    let '(imageParts, lastIndex) :=
      pushMatches processedText (λ imageId, imageId)
                  (execIndexed imageRegex processedText) lastIndex in
    let parts := legacyParts ++ imageParts ++ pushRemaining processedText lastIndex in
    Some (match parts, value with
          | [], _ :: _ => [mkPart textPart value None]
          | _, _ => parts
          end).

(** An expression whose every match is a non-empty prefix of the subject. *)
Definition consumes {A} (re : Js.Matcher A) (full : A → str) : Prop :=
  ∀ s a rest, re s = Some (a, rest) → full a ≠ [] ∧ s = full a ++ rest.

Definition contents (parts : list Part) : str := concat (part_content <$> parts).

(** Well-formed parts of a preview: no part is empty, a text part carries no
    id, an image part carries the id its text spells. *)
Definition partOk {A} (full : A → str) (idOf : A → str) (p : Part) : Prop :=
  part_content p ≠ []
  ∧ match part_type p with
    | textPart => part_imageId p = None
    | imagePart => ∃ a, part_imageId p = Some (idOf a) ∧ part_content p = full a
    end.

(** * The comment threads of [LectureComments] *)

Module LectureComments.

#[local] Set Warnings "-register-all".

(** [comment.user] *)
Record Author : Type := mkAuthor {
  name : option str;
  email : option str;
}.

(** A comment with the thread below it; an optional field that is absent is
    [None]. *)
Inductive Comment : Type := mkComment {
  id : str;
  content : str;
  userId : str;
  updatedAt : str;
  isAnonymous : option bool;
  parentCommentId : option str;
  user : option Author;
  replies : option (list Comment);
}.

(** The fields a response of the server carries; [None] is a key that is
    absent, so that the spread leaves the field of the comment alone. *)
Record Fields : Type := mkFields {
  f_id : option str;
  f_content : option str;
  f_userId : option str;
  f_updatedAt : option str;
  f_isAnonymous : option (option bool);
  f_parentCommentId : option (option str);
  f_user : option (option Author);
  f_replies : option (option (list Comment));
}.

(** [{ ...c, replies }] *)
Definition withReplies (c : Comment) (rs : option (list Comment)) : Comment :=
  {| id := id c; content := content c; userId := userId c; updatedAt := updatedAt c;
     isAnonymous := isAnonymous c; parentCommentId := parentCommentId c;
     user := user c; replies := rs |}.

(** [{ ...c, ...updatedComment }] *)
Definition merge (c : Comment) (u : Fields) : Comment :=
  {| id := default (id c) (f_id u);
     content := default (content c) (f_content u);
     userId := default (userId c) (f_userId u);
     updatedAt := default (updatedAt c) (f_updatedAt u);
     isAnonymous := default (isAnonymous c) (f_isAnonymous u);
     parentCommentId := default (parentCommentId c) (f_parentCommentId u);
     user := default (user c) (f_user u);
     replies := default (replies c) (f_replies u) |}.

(** [setComments(prev => [comment, ...prev])] *)
Definition optimisticAdd (comment : Comment) (comments : list Comment) : list Comment :=
  comment :: comments.

(** The number of comments of a thread, which bounds the search below. *)
Fixpoint nodes (c : Comment) : nat :=
  S (match replies c with
     | Some rs => list_sum (map nodes rs)
     | None => 0
     end).

(** The [while (stack.length)] loop of [findRootId]: [shift] takes the first
    comment, [push] appends its replies. *)
Fixpoint searchStack (fuel : nat) (stack : list Comment) (targetId : str) : bool :=
  match fuel, stack with
  | S n, current :: rest =>
      if decide (id current = targetId) then true
      else searchStack n (rest ++ default [] (replies current)) targetId
  | _, _ => false
  end.

(** The test [findRootId] makes on one root. *)
Definition holds (root : Comment) (targetId : str) : bool :=
  bool_decide (id root = targetId)
  || searchStack (nodes root) (default [] (replies root)) targetId.

Definition findRootId (comments : list Comment) (target : Comment) : str :=
  match parentCommentId target with
  | None | Some [] => id target
  | Some (c :: p) =>
      match List.find (λ root, holds root (id target)) comments with
      | Some root => id root
      | None => c :: p
      end
  end.

(** The [insert] of [submitReply] *)
Fixpoint insert (parentId : str) (newReply : Comment) (node : Comment) : Comment :=
  if decide (id node = parentId)
  then withReplies node (Some (newReply :: default [] (replies node)))
  else withReplies node match replies node with
                        | Some rs => Some (map (insert parentId newReply) rs)
                        | None => None
                        end.

(** The comments after [submitReply] has received [newReply]: the root is
    looked up in [comments], the list of the render that made the call, and
    the update is applied to [prev], the list at the time of the response. *)
Definition submitReply (comments prev : list Comment) (parent newReply : Comment)
    : list Comment :=
  let rootId := findRootId comments parent in
  map (λ c, if decide (id c = rootId) then insert (id parent) newReply c else c)
      prev.

(** The comments after [handleEditComment] has received [updatedComment] *)
Definition handleEditComment (comments : list Comment) (commentId : str)
    (updatedComment : Fields) : list Comment :=
  map (λ c, if decide (id c = commentId) then merge c updatedComment
            else withReplies c
                   match replies c with
                   | Some rs =>
                       Some (map (λ r, if decide (id r = commentId)
                                       then merge r updatedComment else r) rs)
                   | None => None
                   end)
      comments.

(** The comments after a successful [handleDeleteComment] *)
Definition handleDeleteComment (comments : list Comment) (commentId : str)
    : list Comment :=
  map (λ c, withReplies c
              match replies c with
              | Some rs => Some (filter (λ r, id r ≠ commentId) rs)
              | None => None
              end)
      (filter (λ c, id c ≠ commentId) comments).

(** [displayName] *)
Definition displayName (c : Comment) : str :=
  match isAnonymous c with
  | Some true => "Anonymous"
  | _ =>
      match user c with
      | Some a =>
          match name a, email a with
          | Some (n :: ns), _ => n :: ns
          | _, Some (m :: ms) => m :: ms
          | _, _ => "User"
          end
      | None => "User"
      end
  end.

(** The ids of a thread, the comment first and then its replies in order. *)
Fixpoint ids (c : Comment) : list str :=
  id c :: match replies c with
          | Some rs => flat_map ids rs
          | None => []
          end.

(** The comments of a thread, each with its own thread. *)
Fixpoint threads (c : Comment) : list Comment :=
  c :: match replies c with
       | Some rs => flat_map threads rs
       | None => []
       end.

(** Sample threads: a comment with a reply that has a reply, and a comment
    without replies. *)
Definition reply2 : Comment :=
  {| id := "c3"; content := "third"; userId := "u2"; updatedAt := "t3";
     isAnonymous := None; parentCommentId := Some ("c2" : str); user := None;
     replies := None |}.

Definition reply1 : Comment :=
  {| id := "c2"; content := "second"; userId := "u1"; updatedAt := "t2";
     isAnonymous := None; parentCommentId := Some ("c1" : str); user := None;
     replies := Some [reply2] |}.

Definition thread1 : Comment :=
  {| id := "c1"; content := "first"; userId := "u2"; updatedAt := "t1";
     isAnonymous := None; parentCommentId := None; user := None;
     replies := Some [reply1] |}.

Definition thread2 : Comment :=
  {| id := "c4"; content := "fourth"; userId := "u1"; updatedAt := "t4";
     isAnonymous := Some true; parentCommentId := None; user := None;
     replies := None |}.

Definition newReply3 : Comment :=
  {| id := "c5"; content := "fifth"; userId := "u1"; updatedAt := "t5";
     isAnonymous := None; parentCommentId := Some ("c3" : str); user := None;
     replies := None |}.

End LectureComments.

#[local] Set Warnings "-clear-no-such-hyp".

(** * Properties *)

(** ** The scan *)

Section scan.
Context {A : Type} (re : Js.Matcher A) (Hre : shrinks re).

Lemma scanFrom_fuel n m s :
  length s ≤ n → length s ≤ m → Js.scanFrom re n s = Js.scanFrom re m s.
Proof using Hre.
  revert m s. induction n as [|n IH]; intros m s Hn Hm.
  - destruct s; [|simpl in Hn; lia]. by destruct m.
  - destruct s as [|c r]; [by destruct m|].
    destruct m as [|m]; [simpl in Hm; lia|]. simpl in *.
    destruct (re (c :: r)) as [[a rest]|] eqn:E.
    + apply Hre in E. simpl in E. f_equal. apply IH; lia.
    + f_equal. apply IH; lia.
Qed.

Lemma scan_nil : Js.scan re [] = [].
Proof. reflexivity. Qed.

Lemma scan_cons c r :
  Js.scan re (c :: r) =
  match re (c :: r) with
  | Some (a, rest) => Js.Matched a :: Js.scan re rest
  | None => Js.Skipped c :: Js.scan re r
  end.
Proof using Hre.
  unfold Js.scan. simpl.
  destruct (re (c :: r)) as [[a rest]|] eqn:E; [|done].
  apply Hre in E. simpl in E. f_equal. apply scanFrom_fuel; lia.
Qed.

Lemma scan_match s a rest :
  re s = Some (a, rest) → Js.scan re s = Js.Matched a :: Js.scan re rest.
Proof using Hre.
  intros E. destruct s as [|c r].
  - apply Hre in E. simpl in E. lia.
  - by rewrite scan_cons, E.
Qed.

Lemma scan_skip c r :
  re (c :: r) = None → Js.scan re (c :: r) = Js.Skipped c :: Js.scan re r.
Proof using Hre. intros E. by rewrite scan_cons, E. Qed.

(** Induction along the scan. *)
Lemma scan_rect (P : str → Prop) :
  P [] →
  (∀ s a rest, re s = Some (a, rest) → P rest → P s) →
  (∀ c r, re (c :: r) = None → P r → P (c :: r)) →
  ∀ s, P s.
Proof using Hre.
  intros Hnil Hmatch Hskip s.
  remember (length s) as n eqn:Hn. revert s Hn.
  induction n as [n IH] using lt_wf_ind. intros [|c r] ->; [done|].
  destruct (re (c :: r)) as [[a rest]|] eqn:E.
  - eapply Hmatch; [done|]. eapply IH; [|done]. by apply Hre in E.
  - apply Hskip; [done|]. eapply IH; [|done]. simpl. lia.
Qed.
End scan.

(** ** The string primitives *)

Lemma stripPrefix_Some p s r : Js.stripPrefix p s = Some r ↔ s = p ++ r.
Proof.
  revert s. induction p as [|a p IH]; intros s; simpl.
  - naive_solver.
  - destruct s as [|b s]; [naive_solver|].
    case_decide; [|naive_solver]. subst. rewrite IH. naive_solver.
Qed.

Lemma stripPrefix_app p r : Js.stripPrefix p (p ++ r) = Some r.
Proof. by apply stripPrefix_Some. Qed.

Lemma breakAt_inv stop s run rest :
  Js.breakAt stop s = Some (run, rest) → s = run ++ stop :: rest ∧ stop ∉ run.
Proof.
  revert run. induction s as [|c s IH]; intros run; simpl; [done|].
  case_decide as Hc.
  - intros [= <- <-]. subst. split; [done|]. apply not_elem_of_nil.
  - destruct (Js.breakAt stop s) as [[run' rest']|]; simpl; [|done].
    intros [= <- <-]. destruct (IH run' eq_refl) as [-> Hn].
    split; [done|]. rewrite not_elem_of_cons. naive_solver.
Qed.

Lemma breakAt_app stop run rest :
  stop ∉ run → Js.breakAt stop (run ++ stop :: rest) = Some (run, rest).
Proof.
  induction run as [|c run IH]; simpl; intros Hn.
  - by rewrite decide_True.
  - rewrite not_elem_of_cons in Hn. destruct Hn as [Hc Hn].
    rewrite decide_False by done. by rewrite IH.
Qed.

Lemma breakAt_None stop s : Js.breakAt stop s = None ↔ stop ∉ s.
Proof.
  induction s as [|c s IH]; simpl.
  - split; [intros _; apply not_elem_of_nil|done].
  - rewrite not_elem_of_cons. case_decide as Hc; [naive_solver|].
    destruct (Js.breakAt stop s) as [[run rest]|]; simpl; naive_solver.
Qed.

Lemma breakAt_length stop s run rest :
  Js.breakAt stop s = Some (run, rest) → length rest < length s.
Proof.
  intros [-> _]%breakAt_inv. rewrite length_app. simpl. lia.
Qed.

(** ** The placeholder expression *)

Lemma imageRegex_inv s i rest :
  imageRegex s = Some (i, rest) →
  s = reference i ++ rest ∧ i ≠ [] ∧ ("]"%char ∉ i).
Proof.
  unfold imageRegex.
  destruct (Js.stripPrefix "[IMAGE:" s) as [r|] eqn:Ep; simpl; [|done].
  apply stripPrefix_Some in Ep. subst s.
  destruct (Js.breakAt "]" r) as [[i' rest']|] eqn:Eb; simpl; [|done].
  apply breakAt_inv in Eb as [-> Hn].
  destruct i' as [|c i']; [done|]. intros [= <- <-].
  split; [|done]. unfold reference. by rewrite <- !app_assoc.
Qed.

Lemma imageRegex_reference i rest :
  i ≠ [] → "]"%char ∉ i → imageRegex (reference i ++ rest) = Some (i, rest).
Proof.
  intros Hi Hn. unfold imageRegex, reference.
  rewrite <- !app_assoc, stripPrefix_app. simpl.
  change ("]" ++ rest) with ("]"%char :: rest).
  rewrite breakAt_app by done. simpl. by destruct i.
Qed.

Lemma imageRegex_head c r : c ≠ "["%char → imageRegex (c :: r) = None.
Proof.
  intros Hc. unfold imageRegex. simpl. by rewrite decide_False by done.
Qed.

Lemma imageRegex_shrinks : shrinks imageRegex.
Proof.
  intros s i rest (-> & _ & _)%imageRegex_inv.
  rewrite length_app. unfold reference. rewrite length_app. simpl. lia.
Qed.

Lemma literally_shrinks t : t ≠ [] → shrinks (Js.literally t).
Proof.
  intros Ht s [] rest. unfold Js.literally.
  destruct (Js.stripPrefix t s) as [r|] eqn:E; simpl; [|done].
  intros [= <-]. apply stripPrefix_Some in E as ->.
  rewrite length_app. destruct t; [done|]. simpl. lia.
Qed.

Lemma reference_nonempty i : reference i ≠ [].
Proof. done. Qed.

Lemma pieces_match s i rest :
  imageRegex s = Some (i, rest) → pieces s = Js.Matched i :: pieces rest.
Proof. apply scan_match, imageRegex_shrinks. Qed.

Lemma pieces_skip c r :
  imageRegex (c :: r) = None → pieces (c :: r) = Js.Skipped c :: pieces r.
Proof. apply scan_skip, imageRegex_shrinks. Qed.

(** The pieces of a body spell the body. *)
Lemma textOf_pieces s : textOf (pieces s) = s.
Proof.
  induction s as [|s i rest E IH|c r E IH] using (scan_rect imageRegex imageRegex_shrinks).
  - done.
  - rewrite (pieces_match _ _ _ E). simpl. rewrite IH.
    by apply imageRegex_inv in E as (-> & _ & _).
  - rewrite (pieces_skip _ _ E). simpl. by rewrite IH.
Qed.

Lemma extractImageIds_idsOf s : extractImageIds s = idsOf (pieces s).
Proof. done. Qed.

Lemma eraseAll_imageRegex s : Js.eraseAll imageRegex s = textOf (keepFirst 0 (pieces s)).
Proof.
  unfold Js.eraseAll. fold (pieces s).
  induction (pieces s) as [|[c|i] ps IH]; simpl; [done| |done].
  by rewrite IH.
Qed.

(** Each id the scan reports is the id of a placeholder present in the body. *)
Lemma extractImageIds_sound s i :
  i ∈ extractImageIds s →
  i ≠ [] ∧ ("]"%char ∉ i) ∧ ∃ before after, s = before ++ reference i ++ after.
Proof.
  rewrite extractImageIds_idsOf.
  induction s as [|s j rest E IH|c r E IH] using (scan_rect imageRegex imageRegex_shrinks).
  - by intros ?%elem_of_nil.
  - rewrite (pieces_match _ _ _ E). simpl.
    apply imageRegex_inv in E as (-> & Hj & Hn).
    intros [->|Hin]%elem_of_cons.
    + split; [done|]. split; [done|]. by exists [], rest.
    + destruct (IH Hin) as (? & ? & before & after & ->).
      split; [done|]. split; [done|]. exists (reference j ++ before), after.
      by rewrite <- app_assoc.
  - rewrite (pieces_skip _ _ E). simpl. intros Hin.
    destruct (IH Hin) as (? & ? & before & after & ->).
    split; [done|]. split; [done|]. by exists (c :: before), after.
Qed.

(** A body without a closing bracket holds no placeholder. *)
Lemma pieces_unterminated s : "]"%char ∉ s → pieces s = map Js.Skipped s.
Proof.
  induction s as [|c r IH]; [done|]. rewrite not_elem_of_cons. intros [Hc Hr].
  rewrite pieces_skip, IH; [done..|].
  destruct (imageRegex (c :: r)) as [[i rest]|] eqn:E; [|done].
  apply imageRegex_inv in E as (E & _ & _). exfalso.
  assert ("]"%char ∈ c :: r) as Hin.
  { rewrite E. unfold reference. rewrite !elem_of_app. left. right. right. left. }
  apply elem_of_cons in Hin. naive_solver.
Qed.

Lemma textOf_skipped s : textOf (map Js.Skipped s) = s.
Proof. induction s; simpl; [done|]. by f_equal. Qed.

Lemma keepFirst_skipped n s : keepFirst n (map Js.Skipped s) = map Js.Skipped s.
Proof. induction s; simpl; [done|]. by f_equal. Qed.

Lemma idsOf_skipped s : idsOf (map (@Js.Skipped str) s) = [].
Proof. by induction s. Qed.

(** ** The constructed expression *)

Lemma RegExp_plain c r :
  Js.isSyntaxChar c = false →
  Js.RegExp (c :: r) = t ← Js.RegExp r; Some (c :: t).
Proof.
  intros Hc. simpl. rewrite Hc.
  case_decide as E; [|done]. subst. done.
Qed.

Lemma RegExp_escaped c r :
  Js.isSyntaxChar c = true →
  Js.RegExp ("\"%char :: c :: r) = t ← Js.RegExp r; Some (c :: t).
Proof. intros Hc. simpl. by rewrite Hc. Qed.

Lemma RegExp_escapeRegExp i tail :
  Js.RegExp (escapeRegExp i ++ tail) = t ← Js.RegExp tail; Some (i ++ t).
Proof.
  induction i as [|c i IH]; simpl.
  - by destruct (Js.RegExp tail).
  - destruct (Js.isSyntaxChar c) eqn:Hc.
    + change (Js.RegExp ("\"%char :: c :: (escapeRegExp i ++ tail)) =
              t ← Js.RegExp tail; Some (c :: i ++ t)).
      rewrite RegExp_escaped, IH by done. by destruct (Js.RegExp tail).
    + change (Js.RegExp (c :: (escapeRegExp i ++ tail)) =
              t ← Js.RegExp tail; Some (c :: i ++ t)).
      rewrite RegExp_plain, IH by done. by destruct (Js.RegExp tail).
Qed.

(** Escaping works: the expression built for an id matches that id's
    placeholder text and nothing else, whatever the id contains. *)
Lemma RegExp_referenceSource i : Js.RegExp (referenceSource i) = Some (reference i).
Proof.
  unfold referenceSource, reference.
  change (Js.RegExp ("\"%char :: "["%char :: ("IMAGE:" ++ escapeRegExp i ++ "\]"))
          = Some ("["%char :: "IMAGE:" ++ i ++ "]")).
  rewrite RegExp_escaped by done.
  change ("IMAGE:" ++ escapeRegExp i ++ "\]")
    with ("I"%char :: "M"%char :: "A"%char :: "G"%char :: "E"%char :: ":"%char
            :: (escapeRegExp i ++ "\]")).
  rewrite !RegExp_plain by done. rewrite RegExp_escapeRegExp. done.
Qed.

Lemma removeReference_eq i s :
  removeReference i s = Some (Js.eraseAll (Js.literally (reference i)) s).
Proof. unfold removeReference. by rewrite RegExp_referenceSource. Qed.

Lemma removeBeyond_eq n k ids s :
  removeBeyond n k ids s = Some (removeIds (drop (n - k) ids) s).
Proof.
  revert k s. induction ids as [|i ids IH]; intros k s; simpl.
  - by rewrite drop_nil.
  - case_decide as Hk.
    + rewrite removeReference_eq. simpl. rewrite (IH (S k)).
      replace (n - k) with 0 by lia. replace (n - S k) with 0 by lia. done.
    + simpl. rewrite IH. replace (n - k) with (S (n - S k)) by lia. done.
Qed.

Lemma cleanOrphanedImages_eq content urls :
  cleanOrphanedImages content urls =
  Some (match urls with
        | [] => Js.eraseAll imageRegex content
        | _ :: _ =>
          Js.trim (removeIds (drop (length urls) (extractImageIds content)) content)
        end).
Proof.
  destruct urls as [|u urls]; [done|]. unfold cleanOrphanedImages.
  rewrite removeBeyond_eq. simpl. by rewrite ?Nat.sub_0_r.
Qed.

(** ** Whitespace *)

Lemma isWhiteSpace_not_bracket c :
  Js.isWhiteSpace c = true → c ≠ "["%char ∧ c ≠ "]"%char.
Proof. intros H. split; intros ->; done. Qed.

Lemma trimStart_suffix s : ∃ w, s = w ++ Js.trimStart s ∧ Forall (λ c, Js.isWhiteSpace c = true) w.
Proof.
  induction s as [|c s (w & E & Hw)]; simpl.
  - by exists [].
  - destruct (Js.isWhiteSpace c) eqn:Hc.
    + exists (c :: w). split; [by rewrite E at 1|]. by constructor.
    + by exists [].
Qed.

Lemma trimEnd_prefix s : ∃ w, s = Js.trimEnd s ++ w ∧ Forall (λ c, Js.isWhiteSpace c = true) w.
Proof.
  unfold Js.trimEnd. destruct (trimStart_suffix (rev s)) as (w & E & Hw).
  exists (rev w). split.
  - rewrite <- rev_app_distr, <- E. by rewrite rev_involutive.
  - by apply Forall_rev.
Qed.

Lemma trimStart_startsClean s : startsClean (Js.trimStart s).
Proof.
  induction s as [|c s IH]; simpl; [done|].
  by destruct (Js.isWhiteSpace c) eqn:Hc.
Qed.

Lemma trimStart_id s : startsClean s → Js.trimStart s = s.
Proof. destruct s as [|c s]; simpl; [done|]. by intros ->. Qed.

Lemma trimStart_idemp s : Js.trimStart (Js.trimStart s) = Js.trimStart s.
Proof. apply trimStart_id, trimStart_startsClean. Qed.

Lemma trimEnd_idemp s : Js.trimEnd (Js.trimEnd s) = Js.trimEnd s.
Proof. unfold Js.trimEnd. by rewrite rev_involutive, trimStart_idemp. Qed.

Lemma trimEnd_startsClean s : startsClean s → startsClean (Js.trimEnd s).
Proof.
  intros Hs. destruct (trimEnd_prefix s) as (w & E & _).
  destruct (Js.trimEnd s) as [|c t]; [done|]. rewrite E in Hs. done.
Qed.

Lemma trim_idemp s : Js.trim (Js.trim s) = Js.trim s.
Proof.
  unfold Js.trim.
  rewrite (trimStart_id (Js.trimEnd _)); [apply trimEnd_idemp|].
  apply trimEnd_startsClean, trimStart_startsClean.
Qed.

(** ** Placeholders and whitespace at the ends of the body *)

Lemma pieces_wf s :
  Forall (λ p, match p with
               | Js.Matched i => i ≠ [] ∧ ("]"%char ∉ i)
               | Js.Skipped _ => True
               end) (pieces s).
Proof.
  induction s as [|s i rest E IH|c r E IH] using (scan_rect imageRegex imageRegex_shrinks).
  - constructor.
  - rewrite (pieces_match _ _ _ E). constructor; [|done].
    by apply imageRegex_inv in E as (_ & ? & ?).
  - rewrite (pieces_skip _ _ E). by constructor.
Qed.

Lemma extractImageIds_closed s : Forall (λ i, "]"%char ∉ i) (extractImageIds s).
Proof.
  rewrite extractImageIds_idsOf.
  induction (pieces_wf s) as [|[c|i] ps Hp _ IH]; simpl; [done..|].
  constructor; [by destruct Hp|done].
Qed.

Lemma extractImageIds_skip_prefix w s :
  Forall (λ c, Js.isWhiteSpace c = true) w →
  extractImageIds (w ++ s) = extractImageIds s.
Proof.
  induction 1 as [|c w Hc _ IH]; simpl; [done|].
  rewrite !extractImageIds_idsOf in *. rewrite pieces_skip; [done|].
  apply imageRegex_head. by apply isWhiteSpace_not_bracket.
Qed.

Lemma imageRegex_app_tail s w :
  "]"%char ∉ w → s ≠ [] → imageRegex s = None → imageRegex (s ++ w) = None.
Proof.
  intros Hw Hs E. destruct (imageRegex (s ++ w)) as [[i rest]|] eqn:E'; [|done].
  exfalso. apply imageRegex_inv in E' as (E' & Hi & Hn).
  apply app_eq_app in E' as [l [[-> ->]|[E1 ->]]].
  - by rewrite imageRegex_reference in E.
  - destruct l as [|c l _] using rev_ind.
    + rewrite app_nil_r in E1. rewrite <- E1, <- (app_nil_r (reference i)) in E.
      by rewrite imageRegex_reference in E.
    + unfold reference in E1. rewrite !app_assoc in E1.
      change ("]" : str) with (["]"%char]) in E1.
      apply app_inj_tail in E1 as [_ <-].
      apply Hw. rewrite !elem_of_app. left. right. left.
Qed.

Lemma extractImageIds_skip_suffix s w :
  "]"%char ∉ w → extractImageIds (s ++ w) = extractImageIds s.
Proof.
  intros Hw. rewrite !extractImageIds_idsOf.
  induction s as [|s i rest E IH|c r E IH] using (scan_rect imageRegex imageRegex_shrinks).
  - simpl. rewrite pieces_unterminated by done. by rewrite idsOf_skipped.
  - rewrite (pieces_match _ _ _ E).
    apply imageRegex_inv in E as (-> & Hi & Hn).
    rewrite <- app_assoc.
    rewrite (pieces_match _ i (rest ++ w)) by by apply imageRegex_reference.
    simpl. by rewrite IH.
  - rewrite (pieces_skip _ _ E). simpl.
    rewrite pieces_skip by (by apply (imageRegex_app_tail (c :: r))).
    done.
Qed.

(** Trimming neither adds nor removes a placeholder. *)
Lemma extractImageIds_trim s : extractImageIds (Js.trim s) = extractImageIds s.
Proof.
  unfold Js.trim.
  destruct (trimStart_suffix s) as (w1 & E1 & H1).
  destruct (trimEnd_prefix (Js.trimStart s)) as (w2 & E2 & H2).
  rewrite E1 at 2. rewrite extractImageIds_skip_prefix by done.
  rewrite E2 at 2. rewrite extractImageIds_skip_suffix; [done|].
  intros Hin. rewrite Forall_forall in H2. by apply H2 in Hin.
Qed.

(** ** Bodies whose every opening bracket starts a placeholder *)

Lemma tidy_good s : tidy s = true → Forall goodPiece (pieces s).
Proof.
  unfold tidy. intros H%Is_true_true_2%forallb_True.
  pose proof (pieces_wf s) as Hwf.
  induction Hwf as [|p ps Hp _ IH]; [done|].
  apply Forall_cons in H as [H1 H2]. constructor; [|by apply IH].
  destruct p as [c|i]; simpl in *.
  - by apply bool_decide_unpack in H1.
  - apply bool_decide_unpack in H1. naive_solver.
Qed.

Lemma pieces_textOf ps : Forall goodPiece ps → pieces (textOf ps) = ps.
Proof.
  induction 1 as [|[c|i] ps Hp _ IH]; simpl; [done| |].
  - rewrite pieces_skip, IH; [done|]. by apply imageRegex_head.
  - destruct Hp as (? & ? & _).
    rewrite (pieces_match _ i (textOf ps)), IH; [done|].
    by apply imageRegex_reference.
Qed.

Lemma pieces_plain t : "["%char ∉ t → pieces t = map Js.Skipped t.
Proof.
  induction t as [|c t IH]; [done|]. rewrite not_elem_of_cons. intros [Hc Ht].
  rewrite pieces_skip, IH; [done..|]. by apply imageRegex_head.
Qed.

Lemma textOf_skip c ps : textOf (Js.Skipped c :: ps) = c :: textOf ps.
Proof. done. Qed.

Lemma textOf_match i ps : textOf (Js.Matched i :: ps) = reference i ++ textOf ps.
Proof. done. Qed.

Lemma without_skip D c ps : without D (Js.Skipped c :: ps) = Js.Skipped c :: without D ps.
Proof. done. Qed.

Lemma without_keep D j ps :
  j ∉ D → without D (Js.Matched j :: ps) = Js.Matched j :: without D ps.
Proof.
  intros Hj. unfold without. rewrite filter_cons_True; [done|].
  simpl. by apply bool_decide_pack.
Qed.

Lemma without_drop D j ps : j ∈ D → without D (Js.Matched j :: ps) = without D ps.
Proof.
  intros Hj. unfold without. rewrite filter_cons_False; [done|].
  simpl. intros H%bool_decide_unpack. done.
Qed.

Section literal.
Context (i : str).
Local Abbreviation lit := (Js.literally (reference i)).

Lemma lit_shrinks : shrinks lit.
Proof. apply literally_shrinks, reference_nonempty. Qed.

Lemma lit_head c r : c ≠ "["%char → lit (c :: r) = None.
Proof. intros Hc. unfold Js.literally. simpl. by rewrite decide_False by done. Qed.

Lemma lit_reference j rest :
  "]"%char ∉ i → "]"%char ∉ j →
  lit (reference j ++ rest) = if decide (i = j) then Some ((), rest) else None.
Proof.
  intros Hi Hj. unfold Js.literally. case_decide as E.
  - subst. by rewrite stripPrefix_app.
  - destruct (Js.stripPrefix _ _) as [r|] eqn:Ep; [|done]. exfalso.
    apply stripPrefix_Some in Ep. unfold reference in Ep.
    rewrite <- !app_assoc in Ep. apply app_inv_head in Ep.
    pose proof (breakAt_app "]"%char j rest Hj) as B1.
    pose proof (breakAt_app "]"%char i r Hi) as B2.
    change ("]" ++ rest) with ("]"%char :: rest) in Ep.
    change ("]" ++ r) with ("]"%char :: r) in Ep.
    rewrite Ep, B2 in B1. naive_solver.
Qed.

Lemma erase_plain t rest :
  "["%char ∉ t → Js.eraseAll lit (t ++ rest) = t ++ Js.eraseAll lit rest.
Proof.
  unfold Js.eraseAll.
  induction t as [|c t IH]; [done|]. rewrite not_elem_of_cons. intros [Hc Ht].
  simpl. rewrite (scan_skip lit lit_shrinks) by by apply lit_head.
  simpl. by rewrite IH.
Qed.

Lemma erase_textOf ps :
  "]"%char ∉ i → Forall goodPiece ps →
  Js.eraseAll lit (textOf ps) = textOf (without [i] ps).
Proof.
  intros Hi. induction 1 as [|[c|j] ps Hp _ IH]; [done| |].
  - rewrite without_skip, !textOf_skip. unfold Js.eraseAll in *.
    rewrite (scan_skip lit lit_shrinks) by by apply lit_head.
    simpl. by rewrite IH.
  - destruct Hp as (Hj & Hjc & Hjo). rewrite textOf_match.
    destruct (decide (i = j)) as [<-|Hne].
    + rewrite without_drop by (rewrite list_elem_of_singleton; naive_solver).
      unfold Js.eraseAll in *.
      rewrite (scan_match lit lit_shrinks _ () (textOf ps)); [done|].
      by rewrite lit_reference, decide_True.
    + rewrite without_keep by (rewrite list_elem_of_singleton; naive_solver).
      rewrite textOf_match, <- IH.
      assert (lit (reference j ++ textOf ps) = None) as Hno
        by by rewrite lit_reference, decide_False.
      change (reference j ++ textOf ps)
        with ("["%char :: ("IMAGE:" ++ j ++ "]") ++ textOf ps) in *.
      unfold Js.eraseAll at 1.
      rewrite (scan_skip lit lit_shrinks) by done.
      cbn [Js.unmatched]. fold (Js.eraseAll lit (("IMAGE:" ++ j ++ "]") ++ textOf ps)).
      rewrite erase_plain; [done|].
      rewrite !elem_of_app. intros [Hin|[Hin|Hin]]; [|done|].
      * by repeat (apply elem_of_cons in Hin as [Hin|Hin]; [done|]);
          apply elem_of_nil in Hin.
      * by repeat (apply elem_of_cons in Hin as [Hin|Hin]; [done|]);
          apply elem_of_nil in Hin.
Qed.
End literal.

Lemma without_nil ps : without [] ps = ps.
Proof.
  induction ps as [|[c|j] ps IH]; [done| |].
  - by rewrite without_skip, IH.
  - rewrite without_keep, IH; [done|]. apply not_elem_of_nil.
Qed.

Lemma without_good D ps : Forall goodPiece ps → Forall goodPiece (without D ps).
Proof.
  rewrite !Forall_forall. intros H p [_ Hp]%list_elem_of_filter. by apply H.
Qed.

Lemma without_without D i ps : without D (without [i] ps) = without (i :: D) ps.
Proof.
  induction ps as [|[c|j] ps IH]; [done| |].
  - by rewrite !without_skip, IH.
  - destruct (decide (j = i)) as [->|Hne].
    + rewrite (without_drop [i]) by left. rewrite (without_drop (i :: D)) by left. done.
    + rewrite (without_keep [i]) by (rewrite list_elem_of_singleton; done).
      destruct (decide (j ∈ D)) as [Hin|Hout].
      * rewrite !without_drop; [done|by right|done].
      * rewrite !without_keep; [by rewrite IH| |done].
        rewrite not_elem_of_cons. done.
Qed.

Lemma without_ext D D' ps :
  (∀ j, j ∈ idsOf ps → j ∈ D ↔ j ∈ D') → without D ps = without D' ps.
Proof.
  induction ps as [|[c|j] ps IH]; intros H; [done| |].
  - rewrite !without_skip, IH; done.
  - simpl in H. destruct (decide (j ∈ D)) as [Hin|Hout].
    + rewrite !without_drop; [|by apply H; [left|]|done].
      apply IH. intros k Hk. apply H. by right.
    + rewrite !without_keep; [|by rewrite <- H; [|left]|done].
      f_equal. apply IH. intros k Hk. apply H. by right.
Qed.

Lemma idsOf_without D ps : idsOf (without D ps) = filter (λ j, j ∉ D) (idsOf ps).
Proof.
  induction ps as [|[c|j] ps IH]; [done| |].
  - by rewrite without_skip.
  - simpl. destruct (decide (j ∈ D)) as [Hin|Hout].
    + rewrite without_drop by done. rewrite filter_cons_False by naive_solver. done.
    + rewrite without_keep by done. rewrite filter_cons_True by done. simpl. by rewrite IH.
Qed.

Lemma removeIds_textOf D ps :
  Forall (λ i, "]"%char ∉ i) D → Forall goodPiece ps →
  removeIds D (textOf ps) = textOf (without D ps).
Proof.
  intros HD. revert ps. induction HD as [|i D Hi _ IH]; intros ps Hps; simpl.
  - by rewrite without_nil.
  - rewrite erase_textOf, IH by (done || by apply without_good).
    by rewrite without_without.
Qed.

Lemma filter_out_all {A} `{EqDecision A} (D k : list A) :
  k ⊆ D → filter (λ j, j ∉ D) k = [].
Proof.
  induction k as [|x k IH]; intros Hk; [done|].
  rewrite filter_cons_False, IH; [done| |].
  - intros y Hy. apply Hk. by right.
  - intros Hx. apply Hx, Hk. left.
Qed.

(** After the first pass at most [n] placeholders are left. *)
Lemma filter_drop_length {A} `{EqDecision A} n (l : list A) :
  length (filter (λ j, j ∉ drop n l) l) ≤ n.
Proof.
  assert (length (take n l) ≤ n) as Hk by (rewrite length_take; lia).
  pose proof (take_drop n l) as E. revert Hk E.
  generalize (drop n l) (take n l). intros D k Hk <-.
  rewrite filter_app, length_app, (filter_out_all D D) by done.
  simpl. rewrite Nat.add_0_r.
  etrans; [apply length_filter|]. lia.
Qed.

Lemma keepFirst_without n ps :
  NoDup (idsOf ps) → without (drop n (idsOf ps)) ps = keepFirst n ps.
Proof.
  revert n. induction ps as [|[c|i] ps IH]; intros n Hnd; [done| |].
  - simpl. rewrite without_skip. f_equal. by apply IH.
  - simpl in *. apply NoDup_cons in Hnd as [Hi Hnd]. destruct n as [|n]; simpl.
    + rewrite without_drop by left. rewrite <- (IH 0 Hnd). simpl.
      apply without_ext. intros j Hj. rewrite elem_of_cons. naive_solver.
    + rewrite without_keep; [by rewrite IH|].
      intros Hin. apply Hi. by apply (subseteq_drop n (idsOf ps)).
Qed.

Lemma unmatched_none {A} (ps : list (Js.piece A)) s :
  ps = map Js.Skipped s → Js.unmatched ps = s.
Proof. intros ->. induction s; simpl; [done|]. by f_equal. Qed.

Lemma idsOf_none ps : idsOf ps = [] → ps = map Js.Skipped (textOf ps).
Proof.
  induction ps as [|[c|i] ps IH]; [done| |done].
  simpl. intros H. f_equal. by apply IH.
Qed.

Lemma pieces_no_ids s : extractImageIds s = [] → pieces s = map Js.Skipped s.
Proof.
  rewrite extractImageIds_idsOf. intros H%idsOf_none.
  by rewrite textOf_pieces in H.
Qed.

Lemma removeIds_nil s : removeIds [] s = s.
Proof. done. Qed.

(** ** Orphan stripping *)

Lemma cleanOrphanedImages_tidy content urls :
  tidy content = true →
  cleanOrphanedImages content urls =
  Some (match urls with
        | [] => textOf (keepFirst 0 (pieces content))
        | _ :: _ =>
            Js.trim (textOf (without (drop (length urls) (extractImageIds content))
                                     (pieces content)))
        end).
Proof.
  intros Ht%tidy_good. rewrite cleanOrphanedImages_eq. f_equal.
  destruct urls as [|u urls]; [apply eraseAll_imageRegex|].
  rewrite <- (textOf_pieces content) at 2.
  rewrite removeIds_textOf; [done| |done].
  apply Forall_drop, extractImageIds_closed.
Qed.

Lemma extractImageIds_textOf ps :
  Forall goodPiece ps → extractImageIds (textOf ps) = idsOf ps.
Proof. intros H. by rewrite extractImageIds_idsOf, pieces_textOf. Qed.

Lemma keepFirst_none ps : keepFirst 0 ps = without (idsOf ps) ps.
Proof.
  induction ps as [|[c|i] ps IH].
  - done.
  - simpl. rewrite without_skip. by rewrite IH.
  - simpl. rewrite without_drop by (simpl; apply elem_of_cons; by left).
    rewrite IH. apply without_ext. intros j Hj. rewrite elem_of_cons. naive_solver.
Qed.

(** The placeholders of a stripped body, when every opening bracket of the
    body starts a placeholder. *)
Lemma cleaned_ids content urls cleaned :
  tidy content = true → cleanOrphanedImages content urls = Some cleaned →
  extractImageIds cleaned
  = filter (λ j, j ∉ drop (length urls) (extractImageIds content))
           (extractImageIds content).
Proof.
  intros Ht Hc. rewrite cleanOrphanedImages_tidy in Hc by done. injection Hc as <-.
  pose proof (tidy_good _ Ht) as Hg.
  destruct urls as [|u urls].
  - rewrite keepFirst_none, <- extractImageIds_idsOf.
    rewrite extractImageIds_textOf by by apply without_good.
    rewrite idsOf_without. by rewrite extractImageIds_idsOf.
  - rewrite extractImageIds_trim.
    rewrite extractImageIds_textOf by by apply without_good.
    rewrite idsOf_without. by rewrite extractImageIds_idsOf.
Qed.

(** C2 (as amended). With an empty URL list every placeholder the scan
    matches is taken out and nothing is trimmed. With [n > 0] URLs, on a body
    whose every opening bracket starts a placeholder and whose placeholder ids
    are pairwise distinct, exactly the placeholders after the first [n] are
    taken out, every other code unit stays where it was, and whitespace is
    then trimmed at both ends of the result. The two-placeholder body with
    one URL keeps its first placeholder only. *)
Theorem cleanOrphanedImages_positional :
  (∀ content,
     cleanOrphanedImages content [] = Some (textOf (keepFirst 0 (pieces content))))
  ∧ (∀ content urls,
       urls ≠ [] → tidy content = true → NoDup (extractImageIds content) →
       cleanOrphanedImages content urls =
       Some (Js.trim (textOf (keepFirst (length urls) (pieces content)))))
  ∧ cleanOrphanedImages "[IMAGE:a][IMAGE:b]" [("u1" : str)] = Some ("[IMAGE:a]" : str).
Proof.
  split; [|split].
  - intros content. by rewrite cleanOrphanedImages_eq, eraseAll_imageRegex.
  - intros content [|u urls] Hne Ht Hnd; [done|].
    rewrite cleanOrphanedImages_tidy by done.
    rewrite extractImageIds_idsOf in *. by rewrite keepFirst_without.
  - by vm_compute.
Qed.

Lemma cleanOrphanedImages_positional_witness :
  cleanOrphanedImages " see [IMAGE:a] then [IMAGE:b] and [IMAGE:c] "
                      [("u1" : str); ("u2" : str)]
  = Some (Js.trim (textOf (keepFirst 2
            (pieces " see [IMAGE:a] then [IMAGE:b] and [IMAGE:c] ")))).
Proof.
  apply (proj1 (proj2 cleanOrphanedImages_positional)).
  - done.
  - vm_compute. reflexivity.
  - vm_compute. repeat constructor; rewrite ?elem_of_cons, ?elem_of_nil; naive_solver.
Defined.

(** C2 as stated fails: removal is by id over the whole body, so a
    placeholder before the URL count goes when a later one repeats its id;
    and with an empty URL list nothing is trimmed. *)
Lemma cleanOrphanedImages_not_positional :
  (cleanOrphanedImages "[IMAGE:a][IMAGE:a]" [("u1" : str)] = Some []
   ∧ textOf (keepFirst 1 (pieces "[IMAGE:a][IMAGE:a]")) = ("[IMAGE:a]" : str))
  ∧ cleanOrphanedImages "note [IMAGE:a]" [] = Some ("note " : str).
Proof. by vm_compute. Qed.

(** ** Stripping takes out whole placeholders only *)

Lemma takesOut_cons D c s t : takesOut D s t → takesOut D (c :: s) (c :: t).
Proof.
  induction 1 as [s|a i b t Hi _ IH]; [constructor|].
  by apply (takesOut_reference D (c :: a)).
Qed.

Lemma takesOut_trans D s t u : takesOut D s t → takesOut D t u → takesOut D s u.
Proof.
  induction 1 as [s|a i b t Hi _ IH]; [done|].
  intros Hu. apply takesOut_reference; [done|by apply IH].
Qed.

Lemma takesOut_mono D D' s t : D ⊆ D' → takesOut D s t → takesOut D' s t.
Proof.
  intros Hsub. induction 1 as [s|a i b t Hi _ IH]; [constructor|].
  apply takesOut_reference; [by apply Hsub|done].
Qed.

Lemma eraseAll_imageRegex_takesOut s :
  takesOut (extractImageIds s) s (Js.eraseAll imageRegex s).
Proof.
  unfold Js.eraseAll. rewrite extractImageIds_idsOf. unfold pieces.
  induction s as [|s i rest E IH|c r E IH] using (scan_rect imageRegex imageRegex_shrinks).
  - constructor.
  - rewrite (scan_match _ imageRegex_shrinks s i rest E). simpl.
    apply imageRegex_inv in E as (-> & _).
    apply (takesOut_reference _ []); [apply elem_of_cons; by left|]. simpl.
    eapply takesOut_mono; [|done]. intros j Hj. apply elem_of_cons. by right.
  - rewrite (scan_skip _ imageRegex_shrinks c r E). simpl. by apply takesOut_cons.
Qed.

Lemma eraseAll_literally_takesOut i s :
  takesOut [i] s (Js.eraseAll (Js.literally (reference i)) s).
Proof.
  pose proof (literally_shrinks (reference i) (reference_nonempty i)) as Hsh.
  unfold Js.eraseAll.
  induction s as [|s [] rest E IH|c r E IH] using (scan_rect _ Hsh).
  - constructor.
  - rewrite (scan_match _ Hsh s () rest E). simpl.
    unfold Js.literally in E.
    destruct (Js.stripPrefix (reference i) s) as [r|] eqn:Ep; [|done].
    injection E as ->. apply stripPrefix_Some in Ep as ->.
    apply (takesOut_reference _ []); [apply elem_of_cons; by left|done].
  - rewrite (scan_skip _ Hsh c r E). simpl. by apply takesOut_cons.
Qed.

Lemma removeIds_takesOut ids s : takesOut ids s (removeIds ids s).
Proof.
  revert s. induction ids as [|i ids IH]; intros s; [constructor|]. simpl.
  eapply takesOut_trans.
  - eapply takesOut_mono; [|apply (eraseAll_literally_takesOut i)].
    intros j ->%list_elem_of_singleton. apply elem_of_cons. by left.
  - eapply takesOut_mono; [|apply IH]. intros j Hj. apply elem_of_cons. by right.
Qed.

(** Text after the last closing bracket is out of reach. *)
Lemma takesOut_tail D s t :
  takesOut D s t →
  ∀ a b, s = a ++ b → "]"%char ∉ b → ∃ a', t = a' ++ b ∧ takesOut D a a'.
Proof.
  induction 1 as [s|x i y t Hi _ IH]; intros a b E Hb.
  - exists a. split; [done|constructor].
  - assert (∃ y', y = y' ++ b ∧ a = x ++ reference i ++ y') as (y' & -> & ->).
    { unfold reference in E.
      assert ((x ++ "[IMAGE:" ++ i) ++ "]"%char :: y = a ++ b) as E'
        by (rewrite <- E; by rewrite <- !app_assoc).
      apply app_eq_inv in E' as [(k & _ & Ek)|(k & Ea & Ek)].
      - exfalso. apply Hb. rewrite Ek. apply elem_of_app. right. apply elem_of_cons. by left.
      - destruct k as [|c k]; simpl in Ek.
        + exfalso. apply Hb. rewrite <- Ek. apply elem_of_cons. by left.
        + injection Ek as <- ->. exists k. split; [done|].
          rewrite Ea. unfold reference. by rewrite <- !app_assoc. }
    destruct (IH (x ++ y') b) as (a' & -> & Ha'); [by rewrite app_assoc|done|].
    exists a'. split; [done|]. by apply takesOut_reference.
Qed.

(** C9 (as amended). Both operations are total and [cleanOrphanedImages]
    raises nothing, whatever the body and the ids in it. Every id reported by
    [extractImageIds] is the non-empty, bracket-free id of a placeholder that
    occurs in the body. [cleanOrphanedImages] takes out of the body nothing
    but whole placeholders with ids that [extractImageIds] reports for it,
    one after the other, and then trims the result when the URL list is not
    empty: text after the last closing bracket of the body, where an
    unterminated token stands, is kept, and a body in which the scan finds no
    placeholder (unterminated or empty-id tokens included) is kept as it is,
    up to that trimming. *)
Theorem codec_total_on_malformed (content : str) (urls : list str) :
  (∃ cleaned, cleanOrphanedImages content urls = Some cleaned)
  ∧ (∀ i, i ∈ extractImageIds content →
          i ≠ [] ∧ ("]"%char ∉ i)
          ∧ ∃ before after, content = before ++ reference i ++ after)
  ∧ ("]"%char ∉ content → extractImageIds content = [])
  ∧ (extractImageIds content = [] →
     cleanOrphanedImages content urls =
     Some (match urls with [] => content | _ :: _ => Js.trim content end))
  ∧ (∃ kept,
       takesOut (extractImageIds content) content kept
       ∧ cleanOrphanedImages content urls
         = Some (match urls with [] => kept | _ :: _ => Js.trim kept end)
       ∧ ∀ a b, content = a ++ b → "]"%char ∉ b → ∃ a', kept = a' ++ b).
Proof.
  split_and!.
  - rewrite cleanOrphanedImages_eq. eauto.
  - apply extractImageIds_sound.
  - intros H. rewrite extractImageIds_idsOf, pieces_unterminated by done.
    apply idsOf_skipped.
  - intros H. rewrite cleanOrphanedImages_eq. f_equal. destruct urls as [|u urls].
    + apply unmatched_none. by apply pieces_no_ids.
    + by rewrite H, drop_nil.
  - assert (∃ kept,
              takesOut (extractImageIds content) content kept
              ∧ cleanOrphanedImages content urls
                = Some (match urls with [] => kept | _ :: _ => Js.trim kept end))
      as (kept & Ht & Hc).
    { rewrite cleanOrphanedImages_eq. destruct urls as [|u urls].
      - eexists. split; [apply eraseAll_imageRegex_takesOut|done].
      - eexists. split; [|done].
        eapply takesOut_mono; [|apply removeIds_takesOut].
        intros j Hj. by apply (subseteq_drop (length (u :: urls))). }
    exists kept. split_and!; [done..|].
    intros a b E Hb. destruct (takesOut_tail _ _ _ Ht a b E Hb) as (a' & -> & _).
    by exists a'.
Qed.

Lemma codec_total_on_malformed_witness :
  cleanOrphanedImages "fig [IMAGE:] and [IMAGE:abc " [("u1" : str)]
  = Some (Js.trim "fig [IMAGE:] and [IMAGE:abc ")
  ∧ ∃ kept a',
      cleanOrphanedImages "x [IMAGE:a][IMAGE:b] and [IMAGE:abc" [("u1" : str)]
      = Some (Js.trim kept)
      ∧ kept = a' ++ (" and [IMAGE:abc" : str).
Proof.
  split.
  - apply (proj1 (proj2 (proj2 (proj2
      (codec_total_on_malformed "fig [IMAGE:] and [IMAGE:abc " [("u1" : str)]))))).
    vm_compute. reflexivity.
  - destruct (proj2 (proj2 (proj2 (proj2
      (codec_total_on_malformed "x [IMAGE:a][IMAGE:b] and [IMAGE:abc" [("u1" : str)])))))
      as (kept & _ & Hc & Htail).
    destruct (Htail ("x [IMAGE:a][IMAGE:b]" : str) (" and [IMAGE:abc" : str)) as (a' & E).
    + reflexivity.
    + apply (bool_decide_unpack _). vm_compute. exact I.
    + exists kept, a'. split; [exact Hc|exact E].
Defined.

(** C9 as stated fails for nested brackets: an opening bracket inside the id
    is an ordinary id character, so the token is matched up to its first
    closing bracket and taken out instead of being left as text. *)
Lemma nested_brackets_are_matched :
  extractImageIds "[IMAGE:a[b]]" = [("a[b" : str)]
  ∧ cleanOrphanedImages "[IMAGE:a[b]]" [] = Some ("]" : str).
Proof. by vm_compute. Qed.

(** C10 (as amended). On a body whose every opening bracket starts a
    placeholder, stripping a second time with the same URL list changes
    nothing. *)
Theorem cleanOrphanedImages_idempotent (content : str) (urls : list str) :
  tidy content = true →
  cleanOrphanedImages content urls ≫= (λ cleaned, cleanOrphanedImages cleaned urls)
  = cleanOrphanedImages content urls.
Proof.
  intros Ht. rewrite (cleanOrphanedImages_tidy content urls Ht). simpl.
  apply tidy_good in Ht. rewrite cleanOrphanedImages_eq. f_equal.
  destruct urls as [|u urls].
  - apply unmatched_none, pieces_plain.
    induction Ht as [|[c|i] ps Hp _ IH]; simpl; [apply not_elem_of_nil| |done].
    rewrite not_elem_of_cons. done.
  - set (D := drop (length (u :: urls)) (extractImageIds content)).
    assert (Forall goodPiece (without D (pieces content))) as Hg by by apply without_good.
    rewrite extractImageIds_trim, extractImageIds_idsOf, pieces_textOf by done.
    rewrite idsOf_without. unfold D. rewrite extractImageIds_idsOf.
    rewrite drop_ge by apply filter_drop_length.
    simpl. apply trim_idemp.
Qed.

Lemma cleanOrphanedImages_idempotent_witness :
  cleanOrphanedImages " [IMAGE:a] x [IMAGE:b][IMAGE:a] " [("u1" : str)]
    ≫= (λ cleaned, cleanOrphanedImages cleaned [("u1" : str)])
  = cleanOrphanedImages " [IMAGE:a] x [IMAGE:b][IMAGE:a] " [("u1" : str)].
Proof.
  apply cleanOrphanedImages_idempotent. vm_compute. reflexivity.
Defined.

(** C10 as stated fails: taking a placeholder out can splice the text around
    it into a new placeholder, which only a second pass takes out. *)
Lemma cleanOrphanedImages_not_idempotent :
  cleanOrphanedImages "[IMA[IMAGE:x]GE:y]" [] = Some ("[IMAGE:y]" : str)
  ∧ cleanOrphanedImages "[IMAGE:y]" [] = Some ([] : str)
  ∧ cleanOrphanedImages "[IMAGE:a][IMA[IMAGE:b]GE:c]" [("u1" : str)]
    = Some ("[IMAGE:a][IMAGE:c]" : str)
  ∧ cleanOrphanedImages "[IMAGE:a][IMAGE:c]" [("u1" : str)] = Some ("[IMAGE:a]" : str).
Proof. by vm_compute. Qed.

(** ** Rebuilding the registry from the remote URL list *)

Lemma filter_imap_no_url (f : nat → str → ImageData) ids :
  (∀ k i, url (f k i) = []) → filter (λ img, url img ≠ []) (imap f ids) = [].
Proof.
  revert f. induction ids as [|i ids IH]; intros f Hf; [done|].
  rewrite imap_cons, filter_cons_False by (rewrite Hf; naive_solver).
  apply IH. intros k j. apply Hf.
Qed.

Lemma rebuildImages_pairs ids urls : rebuildImages ids urls = pairByPosition ids urls.
Proof.
  unfold rebuildImages, pairByPosition.
  revert urls. induction ids as [|i ids IH]; intros urls; [done|].
  destruct urls as [|u urls].
  - by apply filter_imap_no_url.
  - rewrite imap_cons. simpl zip_with. rewrite !filter_cons, <- IH. done.
Qed.

Lemma rebuildImages_elem ids urls img :
  img ∈ rebuildImages ids urls ↔
  ∃ k, ids !! k = Some (id img) ∧ urls !! k = Some (url img)
       ∧ url img ≠ [] ∧ description img = [].
Proof.
  rewrite rebuildImages_pairs. unfold pairByPosition.
  rewrite list_elem_of_filter, list_elem_of_lookup. split.
  - intros (Hu & k & Hk). apply lookup_zip_with_Some in Hk as (i & u & -> & Hi & Hu').
    exists k. by simpl in *.
  - intros (k & Hi & Hu & Hne & Hd). split; [done|]. exists k.
    apply lookup_zip_with_Some. exists (id img), (url img).
    split; [|done]. destruct img; simpl in *; by subst.
Qed.

(** ** Legacy migration *)

(** C7. The code breaks the claim at the body [[IMAGE:u|d] x|y]]. The url
    part of the legacy expression may run over a closing bracket, so the
    placeholder the first migration writes, followed by text that holds a bar
    and a closing bracket, reads as a legacy token again: a second migration
    replaces it and the text after it by a new placeholder and adds a record
    whose URL is the old id and that text. The fallback test of
    [renderPreview], which keeps closing brackets out of the url part, finds
    no legacy token in the output of the first migration. *)
Theorem migrateLegacy_not_idempotent :
  let first := migrateLegacy "[IMAGE:u|d] x|y]" [] sampleEntropy in
  let second := migrateLegacy first.1.1 first.1.2 first.2 in
  first.1.1 = remigratedBody
  ∧ first.1.2 = [{| id := "img_1700000000000_k3j9x2q1z"; url := "u"; description := "d" |}]
  ∧ Js.test legacyTest first.1.1 = false
  ∧ second.1.1 = ("[IMAGE:img_1700000000001_k3j9x2q1z]" : str)
  ∧ second.1.2
    = [{| id := "img_1700000000000_k3j9x2q1z"; url := "u"; description := "d" |};
       {| id := "img_1700000000001_k3j9x2q1z"; url := "img_1700000000000_k3j9x2q1z] x";
          description := "y" |}]
  ∧ second ≠ first.
Proof.
  cbv zeta. split_and!.
  - vm_compute. reflexivity.
  - vm_compute. reflexivity.
  - vm_compute. reflexivity.
  - vm_compute. reflexivity.
  - vm_compute. reflexivity.
  - intros H. apply (f_equal (λ x, length x.1.2)) in H. vm_compute in H. discriminate.
Qed.

(** ** Timers *)

Lemma timersOk_filter (P : Timer → Prop) `{∀ t, Decision (P t)} ts n d s :
  timersOk ts n d s → timersOk (filter P ts) n d s.
Proof.
  intros (Hf & Hn & Ha & Hs & Hd & Hsr). split_and!; [| | | |done..].
  - intros t [_ Ht]%list_elem_of_filter. by apply Hf.
  - eapply sublist_NoDup; [done|]. apply fmap_sublist, sublist_filter.
  - intros t [_ Ht]%list_elem_of_filter. by apply Ha.
  - intros t [_ Ht]%list_elem_of_filter. by apply Hs.
Qed.

Lemma timersOk_cleared ref ts n d s : timersOk ts n d s → timersOk (cleared ref ts) n d s.
Proof. destruct ref; [apply timersOk_filter|done]. Qed.

Lemma cleared_no_autosave ts n d s t :
  timersOk ts n d s → t ∈ cleared d ts → isAutosave t = false.
Proof.
  intros (_ & _ & Ha & _) Ht. destruct (isAutosave t) eqn:E; [|done]. exfalso.
  destruct d as [h|]; simpl in Ht.
  - apply list_elem_of_filter in Ht as [Hne Ht]. specialize (Ha t Ht E). naive_solver.
  - by specialize (Ha t Ht E).
Qed.

Lemma cleared_no_sync ts n d s t :
  timersOk ts n d s → t ∈ cleared s ts → isServerSync t = false.
Proof.
  intros (_ & _ & _ & Hs & _) Ht. destruct (isServerSync t) eqn:E; [|done]. exfalso.
  destruct s as [h|]; simpl in Ht.
  - apply list_elem_of_filter in Ht as [Hne Ht]. specialize (Hs t Ht E). naive_solver.
  - by specialize (Hs t Ht E).
Qed.

Lemma timersOk_push ts n d s d' s' due cb :
  timersOk ts n d s →
  (∀ t, t ∈ ts → isAutosave t = true → d' = Some (handle t)) →
  (∀ t, t ∈ ts → isServerSync t = true → s' = Some (handle t)) →
  (isAutosave (mkTimer n due cb) = true → d' = Some n) →
  (isServerSync (mkTimer n due cb) = true → s' = Some n) →
  (∀ h, d' = Some h → h ≤ n) → (∀ h, s' = Some h → h ≤ n) →
  timersOk (ts ++ [mkTimer n due cb]) (S n) d' s'.
Proof.
  intros (Hf & Hn & _ & _ & _ & _) Ha Hs Hd Hsy Hd' Hs'. split_and!.
  - intros t [Ht|Ht%list_elem_of_singleton]%elem_of_app; [|subst; simpl; lia].
    specialize (Hf t Ht). lia.
  - rewrite fmap_app. apply NoDup_app. split_and!; [done| |apply NoDup_singleton].
    intros h Hh Hh'%list_elem_of_singleton. subst.
    apply list_elem_of_fmap in Hh as (t & E & Ht). specialize (Hf t Ht). simpl in E. lia.
  - intros t [Ht|Ht%list_elem_of_singleton]%elem_of_app; [by apply Ha|subst; by apply Hd].
  - intros t [Ht|Ht%list_elem_of_singleton]%elem_of_app; [by apply Hs|subst; by apply Hsy].
  - intros h Hh. specialize (Hd' h Hh). lia.
  - intros h Hh. specialize (Hs' h Hh). lia.
Qed.

Lemma timersOk_add_idle ts n d s due :
  timersOk ts n d s → timersOk (ts ++ [mkTimer n due RevertToIdle]) (S n) d s.
Proof.
  intros H. pose proof H as (_ & _ & Ha & Hs & Hd & Hsr).
  apply (timersOk_push ts n d s); [done..| |].
  - intros h Hh. specialize (Hd h Hh). lia.
  - intros h Hh. specialize (Hsr h Hh). lia.
Qed.

Lemma timersOk_add_autosave ts n d s due r :
  timersOk ts n d s →
  timersOk (cleared d ts ++ [mkTimer n due (Autosave r)]) (S n) (Some n) s.
Proof.
  intros H. pose proof (timersOk_cleared d _ _ _ _ H) as H'.
  pose proof H' as (_ & _ & _ & Hs & _ & Hsr).
  apply (timersOk_push _ n d s); [done| |done|done|done| |].
  - intros t Ht E. by rewrite (cleared_no_autosave _ _ _ _ _ H Ht) in E.
  - by intros h [= ->].
  - intros h Hh. specialize (Hsr h Hh). lia.
Qed.

Lemma timersOk_add_sync ts n d s due r c urls :
  timersOk ts n d s →
  timersOk (cleared s ts ++ [mkTimer n due (ServerSync r c urls)]) (S n) d (Some n).
Proof.
  intros H. pose proof (timersOk_cleared s _ _ _ _ H) as H'.
  pose proof H' as (_ & _ & Ha & _ & Hd & _).
  apply (timersOk_push _ n d s); [done|done| |done|done| |].
  - intros t Ht E. by rewrite (cleared_no_sync _ _ _ _ _ H Ht) in E.
  - intros h Hh. specialize (Hd h Hh). lia.
  - by intros h [= ->].
Qed.

(** ** The effect that enters edit mode *)

Lemma autoEditEffect_cases w :
  autoEditEffect w = w ∨ autoEditEffect w = setIsEditing true w.
Proof. unfold autoEditEffect. destruct (_ && _); auto. Qed.

Lemma afterAutoEdit_cases before after :
  afterAutoEdit before after = after
  ∨ afterAutoEdit before after = setIsEditing true after.
Proof. unfold afterAutoEdit. case_decide; [by left|apply autoEditEffect_cases]. Qed.

Lemma autoEditEffect_unloaded w : initialLoaded (comp w) = false → autoEditEffect w = w.
Proof. intros H. unfold autoEditEffect. by rewrite H, andb_false_r. Qed.

Lemma afterAutoEdit_unloaded before after :
  initialLoaded (comp after) = false → afterAutoEdit before after = after.
Proof.
  intros H. unfold afterAutoEdit. case_decide; [done|by apply autoEditEffect_unloaded].
Qed.

(** The effect touches [isEditing] and nothing else. *)
Lemma afterAutoEdit_frame before after :
  let w' := afterAutoEdit before after in
  user w' = user after ∧ questionId w' = questionId after ∧ autoEdit w' = autoEdit after
  ∧ env w' = env after ∧ instance w' = instance after ∧ cancelled w' = cancelled after
  ∧ autosaveCleanup w' = autosaveCleanup after
  ∧ value (comp w') = value (comp after) ∧ images (comp w') = images (comp after)
  ∧ imagesId (comp w') = imagesId (comp after)
  ∧ initialLoaded (comp w') = initialLoaded (comp after)
  ∧ saveState (comp w') = saveState (comp after)
  ∧ lastSavedAt (comp w') = lastSavedAt (comp after)
  ∧ lastSavedValueRef (comp w') = lastSavedValueRef (comp after)
  ∧ lastSavedImagesRef (comp w') = lastSavedImagesRef (comp after)
  ∧ debounceRef (comp w') = debounceRef (comp after)
  ∧ syncDebounceRef (comp w') = syncDebounceRef (comp after).
Proof. simpl. by destruct (afterAutoEdit_cases before after) as [-> | ->]. Qed.

(** A handler that leaves the state and the props alone re-runs no effect. *)
Lemma commit_same before after :
  comp after = comp before → user after = user before →
  autoEdit after = autoEdit before → commit before after = after.
Proof.
  intros Hc Hu Ha. unfold commit, afterAutoEdit, autosaveDeps, autoEditDeps, hasContent.
  rewrite Hc, Hu, Ha. by rewrite !decide_True.
Qed.

Lemma resumed_cases ev before w :
  resumed ev before w = w ∨ resumed ev before w = setIsEditing false w.
Proof. destruct ev; simpl; auto. by destruct (initialLoaded (comp before)); auto. Qed.

(** ** The bookkeeping is kept by every step *)

Ltac framed := unfold tracked in *; simpl in *; done.

Lemma tracked_notify silent t w : tracked w → tracked (notify silent t w).
Proof. intros H. unfold notify. destruct silent; framed. Qed.

Lemma tracked_syncToServer r c urls silent w :
  tracked w → tracked (syncToServer r c urls silent w).
Proof. intros H. unfold syncToServer. destruct (signedIn _); framed. Qed.

Lemma tracked_postSettled k ok w : tracked w → tracked (postSettled k ok w).
Proof.
  intros H. unfold postSettled. destruct (_ !! _); [|done]. by apply tracked_notify.
Qed.

Lemma tracked_saveFailed silent w : tracked w → tracked (saveFailed silent w).
Proof. intros H. unfold saveFailed. apply tracked_notify. framed. Qed.

Lemma tracked_save silent r ok w : tracked w → tracked (save silent r ok w).
Proof.
  intros H. unfold save. destruct (signedIn _); [|by apply tracked_notify].
  destruct (cleanOrphanedImages _ _) as [cleaned|]; [|apply tracked_saveFailed; framed].
  unfold saveToLocalStorage. destruct ok; [|apply tracked_saveFailed; framed].
  destruct H as [Ht Hf]. unfold tracked, notify. destruct silent; simpl.
  - split; [|done]. by apply timersOk_add_idle, timersOk_add_sync.
  - split; [|done]. by apply timersOk_add_idle, timersOk_add_sync.
Qed.

Lemma tracked_autosaveCleanupRun w : tracked w → tracked (autosaveCleanupRun w).
Proof.
  intros [Ht Hf]. unfold autosaveCleanupRun. destruct (autosaveCleanup w); [|done].
  split; [|done]. simpl.
  destruct (debounceRef (comp w)); [by apply timersOk_filter|done].
Qed.

Lemma tracked_autosaveBody w : tracked w → tracked (autosaveBody w).
Proof.
  intros H. unfold autosaveBody.
  destruct (initialLoaded (comp w)); simpl; [|framed].
  destruct (hasChanges w); simpl; [|framed].
  destruct (signedIn (user w)); [|framed].
  destruct H as [Ht Hf]. split; [|done]. simpl.
  by apply timersOk_add_autosave.
Qed.

Lemma tracked_autosaveEffect w : tracked w → tracked (autosaveEffect w).
Proof. intros H. by apply tracked_autosaveBody, tracked_autosaveCleanupRun. Qed.

Lemma tracked_setIsEditing b w : tracked w → tracked (setIsEditing b w).
Proof. intros H. framed. Qed.

Lemma tracked_afterAutoEdit before after :
  tracked after → tracked (afterAutoEdit before after).
Proof. intros H. destruct (afterAutoEdit_cases before after) as [-> | ->]; framed. Qed.

Lemma tracked_commit before after : tracked after → tracked (commit before after).
Proof.
  intros H%(tracked_afterAutoEdit before). unfold commit.
  case_decide; [done|]. by apply tracked_autosaveEffect.
Qed.

Lemma tracked_loadFromLocalStorage w : tracked w → tracked (loadFromLocalStorage w).
Proof.
  intros H. unfold loadFromLocalStorage.
  destruct (_ !! _) as [[|v imgs t]|]; [done| |done]. case_bool_decide; framed.
Qed.

Lemma tracked_syncWithServer w : tracked w → tracked (syncWithServer w).
Proof.
  intros [Ht Hf]. unfold syncWithServer. destruct (signedIn _); [|done].
  case_bool_decide; [done|]. split; [done|]. simpl.
  intros f [Hin|Hin%list_elem_of_singleton]%elem_of_app; [by apply Hf|].
  subst. by left.
Qed.

Lemma tracked_loadEffect w : tracked w → tracked (loadEffect w).
Proof.
  intros H. unfold loadEffect.
  apply tracked_syncWithServer, tracked_loadFromLocalStorage. framed.
Qed.

(** After the cleanup of the load effect and the change of props, no debounce
    timer is pending and every fetch in flight is cancelled. *)
Lemma loadCleanup_withProps u q w :
  tracked w →
  let w' := withProps u q (loadCleanup w) in
  tracked w'
  ∧ (∀ t, t ∈ timers (env w') → callback t = RevertToIdle)
  ∧ (∀ f, f ∈ fetches (env w') → f_instance f ∈ cancelled w')
  ∧ instance w :: cancelled w = cancelled w'.
Proof.
  intros [Ht Hf]. unfold loadCleanup, tracked, withProps. simpl.
  pose proof (timersOk_cleared (debounceRef (comp w)) _ _ _ _ Ht) as Ht1.
  pose proof (timersOk_cleared (syncDebounceRef (comp w)) _ _ _ _ Ht1) as Ht2.
  split_and!; [done| | | |done].
  - intros f Hin. right. destruct (Hf f Hin) as [->|?]; [left|by right].
  - intros t Hin.
    pose proof (cleared_no_sync _ _ _ _ _ Ht1 Hin) as Hno2.
    assert (t ∈ cleared (debounceRef (comp w)) (timers (env w))) as Hin1.
    { destruct (syncDebounceRef (comp w)); [|done].
      by apply list_elem_of_filter in Hin as [_ ?]. }
    pose proof (cleared_no_autosave _ _ _ _ _ Ht Hin1) as Hno1.
    unfold isAutosave, isServerSync in *. by destruct (callback t).
  - intros f Hin. destruct (Hf f Hin) as [->|?]; [left|by right].
Qed.

Lemma tracked_hydrate u q w : tracked w → tracked (hydrate u q w).
Proof.
  intros H. unfold hydrate. apply tracked_loadEffect.
  by apply (loadCleanup_withProps u q w).
Qed.

Lemma takeFetch_inv e a w f w0 :
  takeFetch e a w = Some (f, w0) →
  f ∈ fetches (env w) ∧ f_instance f = e ∧ f_await f = a
  ∧ w0 = setFetches (filter (λ g, ¬ (f_instance g = e ∧ f_await g = a)) (fetches (env w))) w.
Proof.
  unfold takeFetch. destruct (List.find _ _) as [g|] eqn:E; simpl; [|done].
  intros [= <- <-]. apply find_some in E as [Hin [? ?]%bool_decide_eq_true].
  by apply list_elem_of_In in Hin.
Qed.

Lemma tracked_takeFetch e a w f w0 :
  takeFetch e a w = Some (f, w0) → tracked w →
  tracked w0 ∧ (e = instance w ∨ e ∈ cancelled w).
Proof.
  intros (Hin & <- & _ & ->)%takeFetch_inv [Ht Hf]. split; [|by apply Hf].
  split; [done|]. simpl. intros g [_ Hg]%list_elem_of_filter. by apply Hf.
Qed.

Lemma tracked_finallyLoaded e w : tracked w → tracked (finallyLoaded e w).
Proof. intros H. unfold finallyLoaded. case_bool_decide; framed. Qed.

Lemma tracked_responseSettled e res w : tracked w → tracked (responseSettled e res w).
Proof.
  intros H. unfold responseSettled.
  destruct (takeFetch _ _ _) as [[f w0]|] eqn:E; [|done].
  destruct (tracked_takeFetch _ _ _ _ _ E H) as [H0 He].
  destruct res as [|ok]; [by apply tracked_finallyLoaded|].
  destruct (negb ok || _); [by apply tracked_finallyLoaded|].
  destruct H0 as [Ht Hf]. split; [done|]. simpl.
  intros g [Hin|Hin%list_elem_of_singleton]%elem_of_app; [by apply Hf|].
  subst. simpl.
  assert (instance w0 = instance w ∧ cancelled w0 = cancelled w) as [-> ->]; [|done].
  by apply takeFetch_inv in E as (_ & _ & _ & ->).
Qed.

Lemma tracked_applyServerData f d ok w : tracked w → tracked (applyServerData f d ok w).
Proof.
  intros H. unfold applyServerData. destruct (_ && _); [|done].
  destruct (cleanOrphanedImages _ _); [|done]. destruct ok; framed.
Qed.

Lemma tracked_jsonSettled e d ok w : tracked w → tracked (jsonSettled e d ok w).
Proof.
  intros H. unfold jsonSettled.
  destruct (takeFetch _ _ _) as [[f w0]|] eqn:E; [|done].
  destruct (tracked_takeFetch _ _ _ _ _ E H) as [H0 He].
  destruct d as [d|]; apply tracked_finallyLoaded; [|done].
  case_bool_decide; [done|]. by apply tracked_applyServerData.
Qed.

Lemma tracked_fire h ok w : tracked w → tracked (fire h ok w).
Proof.
  intros H. unfold fire. destruct (List.find _ _) as [t|]; [|done].
  destruct (_ <=? _)%N; [|done].
  assert (tracked (setTimers (filter (λ t', handle t' ≠ h) (timers (env w)))
                             (nextHandle (env w)) w)) as H'.
  { destruct H as [Ht Hf]. split; [|done]. simpl. by apply timersOk_filter. }
  destruct (callback t).
  - by apply tracked_save.
  - by apply tracked_syncToServer.
  - framed.
Qed.

Lemma tracked_clearNote ok w : tracked w → tracked (clearNote ok w).
Proof.
  intros H. unfold clearNote.
  assert (∀ v, tracked v → tracked (v |> setLastSavedValueRef [] |> setLastSavedImagesRef []
                                      |> setLastSavedAt None |> toast Efface)) as Hend
    by (intros v Hv; framed).
  apply Hend. destruct (signedIn _); [apply tracked_syncToServer|]; destruct ok; framed.
Qed.

Lemma tracked_handler ev w : tracked w → tracked (handler ev w).
Proof.
  intros H. destruct ev; simpl.
  - case_bool_decide; [done|]. by apply tracked_hydrate.
  - framed.
  - by apply tracked_responseSettled.
  - by apply tracked_jsonSettled.
  - framed.
  - framed.
  - framed.
  - by apply tracked_fire.
  - by apply tracked_postSettled.
  - framed.
  - framed.
  - destruct (initialLoaded _); [|done]. unfold handleSaveEdit. by apply tracked_save.
  - destruct (_ && _); [|done]. by apply tracked_clearNote.
Qed.

Lemma tracked_step ev w : tracked w → tracked (step ev w).
Proof.
  intros H. unfold step.
  destruct (resumed_cases ev w (commit w (handler ev w))) as [-> | ->];
    [|apply tracked_setIsEditing]; by apply tracked_commit, tracked_handler.
Qed.

Lemma tracked_run evs w : tracked w → tracked (run evs w).
Proof.
  revert w. induction evs as [|ev evs IH]; intros w H; [done|].
  simpl. by apply IH, tracked_step.
Qed.

Lemma tracked_mount u q a storage t0 : tracked (mount u q a storage t0).
Proof.
  unfold mount. rewrite autoEditEffect_unloaded by done.
  apply tracked_commit, tracked_autosaveEffect, tracked_loadEffect.
  split; simpl.
  - split_and!; [by intros ? ?%elem_of_nil|constructor|by intros ? ?%elem_of_nil..|done|done].
  - by intros ? ?%elem_of_nil.
Qed.

Lemma reachable_tracked w : reachable w → tracked w.
Proof. intros (u & q & a & st & t0 & evs & ->). apply tracked_run, tracked_mount. Qed.

(** ** Cancellation *)

Ltac unfold_ops :=
  unfold step, resumed, commit, afterAutoEdit, autoEditEffect, handler, autosaveEffect,
    autosaveBody, autosaveCleanupRun, hydrate, loadEffect, loadCleanup, withProps,
    syncWithServer, loadFromLocalStorage, responseSettled, jsonSettled, takeFetch,
    finallyLoaded, applyServerData, fire, handleSaveEdit, handleCancelEdit, handleEdit,
    clearNote, save, saveFailed, saveToLocalStorage, syncToServer, postSettled, notify,
    setTimeout, clearTimeout in *.

Lemma autosaveEffect_frame w :
  let w' := autosaveEffect w in
  cancelled w' = cancelled w ∧ instance w' = instance w
  ∧ user w' = user w ∧ questionId w' = questionId w
  ∧ value (comp w') = value (comp w) ∧ images (comp w') = images (comp w)
  ∧ initialLoaded (comp w') = initialLoaded (comp w)
  ∧ saveState (comp w') = saveState (comp w)
  ∧ lastSavedAt (comp w') = lastSavedAt (comp w)
  ∧ lastSavedValueRef (comp w') = lastSavedValueRef (comp w)
  ∧ lastSavedImagesRef (comp w') = lastSavedImagesRef (comp w)
  ∧ syncDebounceRef (comp w') = syncDebounceRef (comp w)
  ∧ now (env w') = now (env w)
  ∧ localStorage (env w') = localStorage (env w)
  ∧ setItems (env w') = setItems (env w)
  ∧ fetches (env w') = fetches (env w)
  ∧ posts (env w') = posts (env w)
  ∧ toasts (env w') = toasts (env w).
Proof. unfold_ops. simpl. repeat (case_match; simpl; simplify_eq/=); done. Qed.

Lemma cancelled_handler ev w :
  cancelled (handler ev w) = cancelled w
  ∨ cancelled (handler ev w) = instance w :: cancelled w.
Proof.
  destruct ev; unfold_ops; simpl;
    repeat ((case_match || case_bool_decide || case_decide); simpl; simplify_eq/=);
    auto.
Qed.

(** ** Saving *)

Lemma save_signed_out silent r ok w :
  signedIn (r_user r) = None →
  comp (save silent r ok w) = comp w
  ∧ localStorage (env (save silent r ok w)) = localStorage (env w)
  ∧ setItems (env (save silent r ok w)) = setItems (env w)
  ∧ timers (env (save silent r ok w)) = timers (env w)
  ∧ posts (env (save silent r ok w)) = posts (env w).
Proof. intros H. unfold save. rewrite H. by destruct silent. Qed.

Lemma save_stored silent r w uid :
  signedIn (r_user r) = Some uid →
  ∃ cleaned,
    cleanOrphanedImages (r_value r) (map url (r_images r)) = Some cleaned
    ∧ let w' := save silent r true w in
      let key := localStorageKey (r_user r) (r_questionId r) in
      let item := Note cleaned (r_images r) (now (env w)) in
      setItems (env w') = setItems (env w) ++ [(key, item)]
      ∧ localStorage (env w') = <[key := item]> (localStorage (env w))
      ∧ value (comp w') = cleaned
      ∧ images (comp w') = images (comp w)
      ∧ imagesId (comp w') = imagesId (comp w)
      ∧ initialLoaded (comp w') = initialLoaded (comp w)
      ∧ saveState (comp w') = saved
      ∧ lastSavedAt (comp w') = Some (now (env w))
      ∧ lastSavedValueRef (comp w') = cleaned
      ∧ lastSavedImagesRef (comp w') = r_images r
      ∧ debounceRef (comp w') = debounceRef (comp w)
      ∧ syncDebounceRef (comp w') = Some (nextHandle (env w))
      ∧ timers (env w')
        = cleared (syncDebounceRef (comp w)) (timers (env w))
            ++ [mkTimer (nextHandle (env w)) (now (env w) + 2000)
                        (ServerSync r cleaned (map url (r_images r)));
                mkTimer (S (nextHandle (env w))) (now (env w) + 1200) RevertToIdle]
      ∧ nextHandle (env w') = S (S (nextHandle (env w)))
      ∧ now (env w') = now (env w)
      ∧ posts (env w') = posts (env w)
      ∧ user w' = user w ∧ questionId w' = questionId w
      ∧ autosaveCleanup w' = autosaveCleanup w.
Proof.
  intros H. rewrite cleanOrphanedImages_eq. eexists. split; [done|].
  unfold save. rewrite H, cleanOrphanedImages_eq. simpl.
  destruct silent; simpl; rewrite <- app_assoc; done.
Qed.

Lemma save_storage_failure silent r w uid :
  signedIn (r_user r) = Some uid →
  let w' := save silent r false w in
  saveState (comp w') = error
  ∧ setItems (env w') = setItems (env w)
  ∧ localStorage (env w') = localStorage (env w)
  ∧ timers (env w') = timers (env w)
  ∧ posts (env w') = posts (env w)
  ∧ value (comp w') = value (comp w)
  ∧ lastSavedValueRef (comp w') = lastSavedValueRef (comp w)
  ∧ lastSavedImagesRef (comp w') = lastSavedImagesRef (comp w)
  ∧ syncDebounceRef (comp w') = syncDebounceRef (comp w).
Proof.
  intros H. unfold save. rewrite H, cleanOrphanedImages_eq. simpl.
  by destruct silent.
Qed.

Lemma syncToServer_comp r c urls silent w : comp (syncToServer r c urls silent w) = comp w.
Proof. unfold syncToServer. by destruct (signedIn _). Qed.

Lemma postSettled_comp k ok w : comp (step (PostSettled k ok) w) = comp w.
Proof.
  assert (comp (postSettled k ok w) = comp w ∧ user (postSettled k ok w) = user w
          ∧ autoEdit (postSettled k ok w) = autoEdit w) as (Hc & Hu & Ha).
  { unfold postSettled, notify. by repeat case_match. }
  unfold step, resumed. simpl. by rewrite commit_same.
Qed.

(** C4. A save by a signed-in user writes the local cache before anything
    else. When the write succeeds the state is [saved], the last-saved
    snapshot is the content written, the previous remote-sync timer is
    cancelled and one is scheduled 2000 ms ahead. When it fails the state is
    [error], the snapshot and the cache are as before and no timer is
    scheduled. Without a user nothing is written or scheduled. Neither sending
    the remote request nor its outcome touches the component state, so a
    remote failure cannot make the state [error]. *)
Theorem save_local_first (silent : bool) (r : Render) (storageOk : bool) (w : World) :
  let w' := save silent r storageOk w in
  let key := localStorageKey (r_user r) (r_questionId r) in
  match signedIn (r_user r), storageOk with
  | None, _ =>
      comp w' = comp w ∧ setItems (env w') = setItems (env w)
      ∧ timers (env w') = timers (env w)
  | Some _, true =>
      ∃ cleaned,
        cleanOrphanedImages (r_value r) (map url (r_images r)) = Some cleaned
        ∧ setItems (env w')
          = setItems (env w) ++ [(key, Note cleaned (r_images r) (now (env w)))]
        ∧ saveState (comp w') = saved
        ∧ lastSavedValueRef (comp w') = cleaned
        ∧ lastSavedImagesRef (comp w') = r_images r
        ∧ syncDebounceRef (comp w') = Some (nextHandle (env w))
        ∧ timers (env w')
          = cleared (syncDebounceRef (comp w)) (timers (env w))
              ++ [mkTimer (nextHandle (env w)) (now (env w) + 2000)
                          (ServerSync r cleaned (map url (r_images r)));
                  mkTimer (S (nextHandle (env w))) (now (env w) + 1200) RevertToIdle]
  | Some _, false =>
      saveState (comp w') = error
      ∧ setItems (env w') = setItems (env w)
      ∧ localStorage (env w') = localStorage (env w)
      ∧ timers (env w') = timers (env w)
      ∧ lastSavedValueRef (comp w') = lastSavedValueRef (comp w)
      ∧ lastSavedImagesRef (comp w') = lastSavedImagesRef (comp w)
  end
  ∧ (∀ c urls sil v, comp (syncToServer r c urls sil v) = comp v)
  ∧ (∀ k ok v, comp (step (PostSettled k ok) v) = comp v).
Proof.
  split; [|split; [intros; apply syncToServer_comp|intros; apply postSettled_comp]].
  destruct (signedIn (r_user r)) as [uid|] eqn:Hu.
  - destruct storageOk.
    + destruct (save_stored silent r w uid Hu) as (cleaned & Hc & H).
      exists cleaned. simpl in H. naive_solver.
    + pose proof (save_storage_failure silent r w uid Hu) as H. simpl in H. naive_solver.
  - pose proof (save_signed_out silent r storageOk w Hu). naive_solver.
Qed.

(** C3 (as amended). What a save by a signed-in user writes to the local
    cache, shows, and schedules for the remote store is the current body put
    through [cleanOrphanedImages] with the URLs of the current images; the
    images are written as they are. When every opening bracket of the body
    starts a placeholder, that body holds no more placeholders than there are
    images. *)
Theorem save_persists_cleaned (silent : bool) (r : Render) (w : World) (uid : str) :
  signedIn (r_user r) = Some uid →
  ∃ cleaned,
    cleanOrphanedImages (r_value r) (map url (r_images r)) = Some cleaned
    ∧ (tidy (r_value r) = true →
       length (extractImageIds cleaned) ≤ length (r_images r))
    ∧ let w' := save silent r true w in
      localStorage (env w') !! localStorageKey (r_user r) (r_questionId r)
      = Some (Note cleaned (r_images r) (now (env w)))
      ∧ value (comp w') = cleaned
      ∧ (∃ t, t ∈ timers (env w')
              ∧ callback t = ServerSync r cleaned (map url (r_images r)))
      ∧ ∀ v, posts (env (syncToServer r cleaned (map url (r_images r)) true v))
             = posts (env v)
                 ++ [{| p_userId := uid; p_questionId := r_questionId r;
                        p_notes := cleaned;
                        p_notesImageUrls := map url (r_images r);
                        p_silent := true |}].
Proof.
  intros Hu. destruct (save_stored silent r w uid Hu) as (cleaned & Hc & H).
  exists cleaned. split; [done|]. simpl in *.
  destruct H as (_ & -> & -> & _ & _ & _ & _ & _ & _ & _ & _ & _ & -> & _).
  split_and!; [|by rewrite lookup_insert_eq|done| |].
  - intros Ht. rewrite (cleaned_ids _ _ _ Ht Hc).
    etrans; [apply filter_drop_length|]. by rewrite length_map.
  - exists (mkTimer (nextHandle (env w)) (now (env w) + 2000)%N
                    (ServerSync r cleaned (map url (r_images r)))).
    split; [|done]. rewrite elem_of_app. right. left.
  - intros v. unfold syncToServer. by rewrite Hu.
Qed.

Lemma save_persists_cleaned_witness :
  ∃ cleaned,
    cleanOrphanedImages "[IMAGE:ghost] then [IMAGE:late] " (map url ghostImages)
    = Some cleaned
    ∧ value (comp (save true
                     {| r_user := sampleUser; r_questionId := "q1";
                        r_value := "[IMAGE:ghost] then [IMAGE:late] ";
                        r_images := ghostImages |} true sampleLoaded)) = cleaned.
Proof.
  destruct (save_persists_cleaned true
              {| r_user := sampleUser; r_questionId := "q1";
                 r_value := "[IMAGE:ghost] then [IMAGE:late] ";
                 r_images := ghostImages |} sampleLoaded "u1")
    as (cleaned & Hc & _ & _ & Hv & _).
  - reflexivity.
  - exists cleaned. split; assumption.
Defined.

(** C3 as stated fails in its last part: stripping goes by the number of
    images, not by their ids, so a placeholder whose id names no image of the
    registry is written to the local cache and sent to the remote store as
    long as the registry is not smaller than the number of placeholders. *)
Lemma save_persists_unbound_placeholder :
  (extractImageIds (r_value ghostRender) = [("ghost" : str)]
   ∧ ("ghost" : str) ∉ map id (r_images ghostRender))
  ∧ currentRender (run [ImagesChange ghostImages; Change "[IMAGE:ghost]"] sampleLoaded)
    = ghostRender
  ∧ localStorage (env (run [ImagesChange ghostImages; Change "[IMAGE:ghost]";
                            ClickSave true] sampleLoaded)) !! sampleKey
    = Some (Note "[IMAGE:ghost]" ghostImages 1000)
  ∧ p_notes <$> posts (env (run [ImagesChange ghostImages; Change "[IMAGE:ghost]";
                                 ClickSave true; Elapse 2000; Fire 3 true] sampleLoaded))
    = [("[IMAGE:ghost]" : str)].
Proof.
  split_and!; try by vm_compute.
  vm_compute. intros H%list_elem_of_singleton. discriminate.
Qed.

(** ** Hydration *)

Lemma shouldUseServerData_spec local serverNotes serverImageUrls :
  shouldUseServerData local serverNotes serverImageUrls = false
  ↔ sameAsLocal local serverNotes serverImageUrls.
Proof.
  unfold shouldUseServerData, sameAsLocal.
  destruct local as [[|v imgs t]|]; [naive_solver| |naive_solver].
  rewrite negb_false_iff, bool_decide_eq_true. naive_solver.
Qed.

Lemma applyServerData_ignored f d ok w :
  let serverNotes := default [] (notes d) in
  let serverImageUrls := default [] (notesImageUrls d) in
  let key := localStorageKey (Some (f_user f)) (f_questionId f) in
  sameAsLocal (localStorage (env w) !! key) serverNotes serverImageUrls
  ∨ (serverNotes = [] ∧ serverImageUrls = []) →
  applyServerData f d ok w = w.
Proof.
  intros sn su key H. unfold applyServerData. fold sn su key.
  destruct H as [H%shouldUseServerData_spec|[-> ->]].
  - by rewrite H.
  - rewrite bool_decide_false by naive_solver. by rewrite andb_false_r.
Qed.

Lemma applyServerData_applied f d ok w :
  let serverNotes := default [] (notes d) in
  let serverImageUrls := default [] (notesImageUrls d) in
  let key := localStorageKey (Some (f_user f)) (f_questionId f) in
  ¬ sameAsLocal (localStorage (env w) !! key) serverNotes serverImageUrls →
  serverNotes ≠ [] ∨ serverImageUrls ≠ [] →
  ∃ cleaned,
    cleanOrphanedImages serverNotes serverImageUrls = Some cleaned
    ∧ let imageData := rebuildImages (extractImageIds cleaned) serverImageUrls in
      let w' := applyServerData f d ok w in
      value (comp w') = cleaned ∧ images (comp w') = imageData
      ∧ lastSavedValueRef (comp w') = cleaned
      ∧ lastSavedImagesRef (comp w') = imageData
      ∧ lastSavedAt (comp w') = Some (now (env w))
      ∧ localStorage (env w')
        = (if ok then <[key := Note cleaned imageData (now (env w))]> (localStorage (env w))
           else localStorage (env w))
      ∧ setItems (env w')
        = (if ok then setItems (env w) ++ [(key, Note cleaned imageData (now (env w)))]
           else setItems (env w)).
Proof.
  intros sn su key Hdiff Hne. unfold applyServerData. fold sn su key.
  destruct (shouldUseServerData _ _ _) eqn:E;
    [|by apply shouldUseServerData_spec in E].
  rewrite bool_decide_true by done. simpl.
  rewrite cleanOrphanedImages_eq. eexists. split; [done|]. by destruct ok.
Qed.

Lemma applyServerData_frame f d ok w :
  cancelled (applyServerData f d ok w) = cancelled w
  ∧ instance (applyServerData f d ok w) = instance w
  ∧ user (applyServerData f d ok w) = user w.
Proof. unfold applyServerData. by repeat case_match. Qed.

Lemma jsonSettled_live e d ok w f :
  e ∉ cancelled w →
  List.find (λ f, bool_decide (f_instance f = e ∧ f_await f = AwaitJson))
            (fetches (env w)) = Some f →
  ∃ w0, localStorage (env w0) = localStorage (env w) ∧ setItems (env w0) = setItems (env w)
        ∧ comp w0 = comp w ∧ now (env w0) = now (env w)
        ∧ jsonSettled e (Some d) ok w
          = applyServerData f d ok w0 |> setSaveState idle |> setInitialLoaded true.
Proof.
  intros Hlive Hf. unfold jsonSettled, takeFetch. rewrite Hf. simpl.
  rewrite bool_decide_false by done. eexists. split_and!; [..|unfold finallyLoaded].
  5: { rewrite bool_decide_false; [done|].
       by destruct (applyServerData_frame f d ok
         (setFetches (filter (λ g, ¬ (f_instance g = e ∧ f_await g = AwaitJson))
                             (fetches (env w))) w)) as (-> & _). }
  all: done.
Qed.

Lemma commit_frame before after :
  let w' := commit before after in
  value (comp w') = value (comp after) ∧ images (comp w') = images (comp after)
  ∧ initialLoaded (comp w') = initialLoaded (comp after)
  ∧ saveState (comp w') = saveState (comp after)
  ∧ lastSavedAt (comp w') = lastSavedAt (comp after)
  ∧ lastSavedValueRef (comp w') = lastSavedValueRef (comp after)
  ∧ lastSavedImagesRef (comp w') = lastSavedImagesRef (comp after)
  ∧ localStorage (env w') = localStorage (env after)
  ∧ setItems (env w') = setItems (env after)
  ∧ posts (env w') = posts (env after)
  ∧ cancelled w' = cancelled after.
Proof.
  pose proof (afterAutoEdit_frame before after) as Hae. simpl in Hae.
  destruct Hae as (_ & _ & _ & He & _ & Hca & _ & Hv & Hi & _ & Hil & Hss & Hat & Hlv & Hli & _).
  unfold commit. case_decide; simpl.
  - by rewrite He, Hca, Hv, Hi, Hil, Hss, Hat, Hlv, Hli.
  - pose proof (autosaveEffect_frame (afterAutoEdit before after)) as Hfr. simpl in Hfr.
    destruct Hfr as (-> & _ & _ & _ & -> & -> & -> & -> & -> & -> & -> & _ & _
                     & -> & -> & _ & -> & _).
    by rewrite He, Hca, Hv, Hi, Hil, Hss, Hat, Hlv, Hli.
Qed.

(** C1 (as amended). When the remote state arrives for the mounted effect:
    if the local cache already holds the remote notes and URL list, or the
    remote state is empty, the body, the registry, the last-saved snapshot and
    the local cache stay as they are; otherwise the remote notes put through
    [cleanOrphanedImages] and the registry rebuilt from them replace the body,
    the registry and the snapshot, and are written to the local cache when the
    write succeeds. Either way loading ends: the state is [idle]. *)
Theorem hydration_reconciles (e : nat) (d : Payload) (storageOk : bool) (w : World)
    (f : Fetch) :
  e ∉ cancelled w →
  List.find (λ f, bool_decide (f_instance f = e ∧ f_await f = AwaitJson))
            (fetches (env w)) = Some f →
  let serverNotes := default [] (notes d) in
  let serverImageUrls := default [] (notesImageUrls d) in
  let key := localStorageKey (Some (f_user f)) (f_questionId f) in
  let w' := step (JsonSettled e (Some d) storageOk) w in
  (sameAsLocal (localStorage (env w) !! key) serverNotes serverImageUrls
   ∨ (serverNotes = [] ∧ serverImageUrls = []) →
   value (comp w') = value (comp w) ∧ images (comp w') = images (comp w)
   ∧ lastSavedValueRef (comp w') = lastSavedValueRef (comp w)
   ∧ lastSavedImagesRef (comp w') = lastSavedImagesRef (comp w)
   ∧ localStorage (env w') = localStorage (env w)
   ∧ setItems (env w') = setItems (env w))
  ∧ (¬ sameAsLocal (localStorage (env w) !! key) serverNotes serverImageUrls →
     serverNotes ≠ [] ∨ serverImageUrls ≠ [] →
     ∃ cleaned,
       cleanOrphanedImages serverNotes serverImageUrls = Some cleaned
       ∧ let imageData := rebuildImages (extractImageIds cleaned) serverImageUrls in
         value (comp w') = cleaned ∧ images (comp w') = imageData
         ∧ lastSavedValueRef (comp w') = cleaned
         ∧ lastSavedImagesRef (comp w') = imageData
         ∧ (storageOk = true →
            localStorage (env w')
            = <[key := Note cleaned imageData (now (env w))]> (localStorage (env w))))
  ∧ saveState (comp w') = idle ∧ initialLoaded (comp w') = true.
Proof.
  intros Hlive Hf sn su key w'. subst w'. unfold step, resumed. simpl handler.
  destruct (jsonSettled_live e d storageOk w f Hlive Hf)
    as (w0 & Hls & Hsi & Hc & Hnow & Hj).
  rewrite Hj.
  pose proof (commit_frame w (applyServerData f d storageOk w0
                                |> setSaveState idle |> setInitialLoaded true)) as Hfr.
  set (W := commit w _) in *. simpl in Hfr.
  destruct Hfr as (Hv & Hi & Hil & Hss & _ & Hlv & Hli & Hl & Hs & _).
  rewrite Hv, Hi, Hil, Hss, Hlv, Hli, Hl, Hs. split_and!; [| |done..].
  - intros H. rewrite applyServerData_ignored; [by rewrite Hc, Hls, Hsi|].
    by rewrite Hls.
  - intros Hdiff Hne.
    destruct (applyServerData_applied f d storageOk w0) as (cleaned & Hcl & H);
      [by rewrite Hls|done|].
    exists cleaned. split; [done|]. simpl in H.
    destruct H as (-> & -> & -> & -> & _ & -> & _).
    split_and!; [done..|]. intros ->. by rewrite Hls, Hnow.
Qed.

Lemma hydration_reconciles_witness :
  value (comp (step (JsonSettled 0 (Some helloRemote) true) helloAwaitingJson))
  = value (comp helloAwaitingJson)
  ∧ localStorage (env (step (JsonSettled 0 (Some helloRemote) true) helloAwaitingJson))
    = localStorage (env helloAwaitingJson)
  ∧ setItems (env (step (JsonSettled 0 (Some helloRemote) true) helloAwaitingJson))
    = setItems (env helloAwaitingJson).
Proof.
  destruct (hydration_reconciles 0 helloRemote true helloAwaitingJson
              (sampleFetch AwaitJson)) as (Hsame & _ & _).
  - vm_compute. intros H. inversion H.
  - vm_compute. reflexivity.
  - cbv zeta in Hsame. destruct Hsame as (Hv & _ & _ & _ & Hl & Hs).
    + left. exists [], 5%N. split; vm_compute; reflexivity.
    + split_and!; assumption.
Defined.

(** C1 as stated fails: a remote state that differs from the cache but is
    empty is not applied, and a remote state that is applied is not written
    as it arrived but after orphan stripping. *)
Lemma empty_remote_is_ignored :
  (¬ sameAsLocal (localStorage (env helloAwaitingJson) !! sampleKey) [] []
   ∧ value (comp (step (JsonSettled 0 (Some emptyRemote) true) helloAwaitingJson))
     = ("hello" : str)
   ∧ localStorage (env (step (JsonSettled 0 (Some emptyRemote) true) helloAwaitingJson))
       !! sampleKey
     = Some (Note "hello" [] 5))
  ∧ value (comp (step (JsonSettled 0 (Some twoPlaceholdersRemote) true)
                      helloAwaitingJson))
    = ("[IMAGE:a]" : str)
  ∧ localStorage (env (step (JsonSettled 0 (Some twoPlaceholdersRemote) true)
                            helloAwaitingJson)) !! sampleKey
    = Some (Note "[IMAGE:a]"
                 [{| id := "a"; url := "http://x/1.png"; description := [] |}] 1000).
Proof.
  split_and!; try by vm_compute.
  intros (imgs & t & H & _). vm_compute in H. discriminate.
Qed.

(** C6. When the remote state arrives for the mounted effect and is applied,
    the body shown is the remote notes put through [cleanOrphanedImages], and
    the registry shown, kept as the snapshot and written to the cache pairs
    the ids of that body with the remote URLs by position: a record is in it
    exactly when its id and its URL stand at the same position of the two
    lists, the URL is not empty and the description is empty, so the ids that
    have no URL at their position and the records whose URL is empty are
    dropped. A remote body [[IMAGE:temp]] with one URL is displayed with its
    placeholder bound to a record carrying that URL. *)
Theorem hydration_rebuilds_registry :
  (∀ e d storageOk w f,
     e ∉ cancelled w →
     List.find (λ f, bool_decide (f_instance f = e ∧ f_await f = AwaitJson))
               (fetches (env w)) = Some f →
     let serverNotes := default [] (notes d) in
     let serverImageUrls := default [] (notesImageUrls d) in
     let key := localStorageKey (Some (f_user f)) (f_questionId f) in
     let w' := step (JsonSettled e (Some d) storageOk) w in
     ¬ sameAsLocal (localStorage (env w) !! key) serverNotes serverImageUrls →
     serverNotes ≠ [] ∨ serverImageUrls ≠ [] →
     ∃ cleaned,
       cleanOrphanedImages serverNotes serverImageUrls = Some cleaned
       ∧ value (comp w') = cleaned
       ∧ images (comp w') = pairByPosition (extractImageIds cleaned) serverImageUrls
       ∧ lastSavedImagesRef (comp w') = images (comp w')
       ∧ (storageOk = true →
          localStorage (env w') !! key
          = Some (Note cleaned (images (comp w')) (now (env w))))
       ∧ ∀ img,
           img ∈ images (comp w') ↔
           ∃ k, extractImageIds cleaned !! k = Some (id img)
                ∧ serverImageUrls !! k = Some (url img)
                ∧ url img ≠ [] ∧ description img = [])
  ∧ (∀ ids urls, rebuildImages ids urls = pairByPosition ids urls)
  ∧ (∀ ids urls img,
       img ∈ rebuildImages ids urls ↔
       ∃ k, ids !! k = Some (id img) ∧ urls !! k = Some (url img)
            ∧ url img ≠ [] ∧ description img = [])
  ∧ (let remote := {| notes := Some ("[IMAGE:temp]" : str);
                      notesImageUrls := Some [("http://x/1.png" : str)] |} in
     let w := run [ResponseSettled 0 (Status true); JsonSettled 0 (Some remote) true]
                  (mount (Some ("u1" : str)) "q1" false ∅ 1000) in
     value (comp w) = ("[IMAGE:temp]" : str)
     ∧ images (comp w)
       = [{| id := "temp"; url := "http://x/1.png"; description := [] |}]).
Proof.
  split_and!.
  - intros e d storageOk w f Hlive Hf sn su key w' Hdiff Hne. subst w'.
    unfold step, resumed. simpl handler.
    destruct (jsonSettled_live e d storageOk w f Hlive Hf)
      as (w0 & Hls & Hsi & Hc & Hnow & Hj).
    rewrite Hj.
    pose proof (commit_frame w (applyServerData f d storageOk w0
                                  |> setSaveState idle |> setInitialLoaded true)) as Hfr.
    cbv zeta in Hfr. revert Hfr.
    generalize (commit w (applyServerData f d storageOk w0
                            |> setSaveState idle |> setInitialLoaded true)).
    intros W Hfr. simpl in Hfr.
    destruct Hfr as (Hv & Hi & _ & _ & _ & _ & Hli & Hl & _).
    rewrite Hv, Hi, Hli, Hl.
    destruct (applyServerData_applied f d storageOk w0) as (cleaned & Hcl & H);
      [by rewrite Hls|done|].
    exists cleaned. split; [done|]. simpl in H.
    destruct H as (-> & -> & _ & -> & _ & -> & _).
    fold sn su. rewrite <- rebuildImages_pairs.
    split_and!; [done..| |].
    + intros ->. fold key. by rewrite lookup_insert_eq, Hnow.
    + intros img. apply rebuildImages_elem.
  - apply rebuildImages_pairs.
  - apply rebuildImages_elem.
  - by vm_compute.
Qed.

Lemma hydration_rebuilds_registry_witness :
  images (comp (step (JsonSettled 0 (Some twoPlaceholdersRemote) true) helloAwaitingJson))
  = [{| id := "a"; url := "http://x/1.png"; description := [] |}]
  ∧ images (comp (step (JsonSettled 0
                          (Some {| notes := Some ("[IMAGE:a][IMAGE:b][IMAGE:a]" : str);
                                   notesImageUrls := Some [("http://x/1.png" : str)] |})
                          true) helloAwaitingJson))
    = [].
Proof.
  split.
  - destruct (proj1 hydration_rebuilds_registry 0 twoPlaceholdersRemote true
                helloAwaitingJson (sampleFetch AwaitJson))
      as (cleaned & Hc & _ & Hi & _).
    + vm_compute. intros H. inversion H.
    + vm_compute. reflexivity.
    + intros (imgs & t & H & _). vm_compute in H. discriminate.
    + left. discriminate.
    + cbv zeta in Hi. rewrite Hi. vm_compute in Hc. injection Hc as <-. reflexivity.
  - destruct (proj1 hydration_rebuilds_registry 0
                {| notes := Some ("[IMAGE:a][IMAGE:b][IMAGE:a]" : str);
                   notesImageUrls := Some [("http://x/1.png" : str)] |} true
                helloAwaitingJson (sampleFetch AwaitJson))
      as (cleaned & Hc & _ & Hi & _).
    + vm_compute. intros H. inversion H.
    + vm_compute. reflexivity.
    + intros (imgs & t & H & _). vm_compute in H. discriminate.
    + left. discriminate.
    + cbv zeta in Hi. rewrite Hi. vm_compute in Hc. injection Hc as <-. reflexivity.
Defined.

(** ** Switching the document *)

Lemma cancelled_step ev w x : x ∈ cancelled w → x ∈ cancelled (step ev w).
Proof.
  intros Hx. unfold step.
  assert (cancelled (resumed ev w (commit w (handler ev w)))
          = cancelled (commit w (handler ev w))) as ->
    by (by destruct (resumed_cases ev w (commit w (handler ev w))) as [-> | ->]).
  destruct (commit_frame w (handler ev w)) as (_ & _ & _ & _ & _ & _ & _ & _ & _ & _ & ->).
  destruct (cancelled_handler ev w) as [->| ->]; [done|by right].
Qed.

Lemma cancelled_run evs w x : x ∈ cancelled w → x ∈ cancelled (run evs w).
Proof.
  revert w. induction evs as [|ev evs IH]; intros w Hx; [done|].
  simpl. by apply IH, cancelled_step.
Qed.

Lemma responseSettled_stale e res w :
  e ∈ cancelled w →
  let w' := responseSettled e res w in
  comp w' = comp w ∧ user w' = user w ∧ localStorage (env w') = localStorage (env w)
  ∧ setItems (env w') = setItems (env w) ∧ timers (env w') = timers (env w)
  ∧ posts (env w') = posts (env w) ∧ autoEdit w' = autoEdit w.
Proof.
  intros He. unfold responseSettled, takeFetch, finallyLoaded.
  destruct (List.find _ _); [|done]. simpl.
  destruct res as [|ok]; simpl;
    rewrite ?(bool_decide_true (e ∈ cancelled w)), ?orb_true_r by done; done.
Qed.

Lemma jsonSettled_stale e d ok w :
  e ∈ cancelled w →
  let w' := jsonSettled e d ok w in
  comp w' = comp w ∧ user w' = user w ∧ localStorage (env w') = localStorage (env w)
  ∧ setItems (env w') = setItems (env w) ∧ timers (env w') = timers (env w)
  ∧ posts (env w') = posts (env w) ∧ autoEdit w' = autoEdit w.
Proof.
  intros He. unfold jsonSettled, takeFetch, finallyLoaded.
  destruct (List.find _ _); [|done]. simpl.
  destruct d as [d|]; simpl;
    rewrite ?(bool_decide_true (e ∈ cancelled w)) by done; done.
Qed.

Lemma loadEffect_frame w :
  timers (env (loadEffect w)) = timers (env w)
  ∧ cancelled (loadEffect w) = cancelled w
  ∧ initialLoaded (comp (loadEffect w)) = false.
Proof.
  unfold loadEffect, syncWithServer, loadFromLocalStorage. simpl.
  repeat (case_match; simpl); done.
Qed.

Lemma autosaveEffect_unloaded w :
  initialLoaded (comp w) = false →
  ∀ t, t ∈ timers (env (autosaveEffect w)) → t ∈ timers (env w).
Proof.
  intros Hl t. unfold autosaveEffect, autosaveBody, autosaveCleanupRun.
  destruct (autosaveCleanup w); simpl; rewrite Hl; simpl; [|done].
  destruct (debounceRef (comp w)); simpl; [|done].
  by intros [_ ?]%list_elem_of_filter.
Qed.

(** C5. When the user or the question changes while fetches are in flight:
    no debounce timer of the previous document stays pending (the timers left
    are the ones that only revert the status display), and whatever happens
    next, the arrival of the response or of the body of any of those fetches
    changes neither the component state nor the local cache. *)
Theorem stale_fetch_discarded (w : World) (u : option str) (q : str) (f : Fetch) :
  reachable w → ¬ (u = user w ∧ q = questionId w) → f ∈ fetches (env w) →
  let w1 := step (Navigate u q) w in
  (∀ t, t ∈ timers (env w1) → callback t = RevertToIdle)
  ∧ ∀ evs res data storageOk,
      let w2 := run evs w1 in
      let a := step (ResponseSettled (f_instance f) res) w2 in
      let b := step (JsonSettled (f_instance f) data storageOk) w2 in
      (comp a = comp w2 ∧ localStorage (env a) = localStorage (env w2))
      ∧ (comp b = comp w2 ∧ localStorage (env b) = localStorage (env w2)).
Proof.
  intros Hr%reachable_tracked Hdeps Hf w1.
  pose proof (loadCleanup_withProps u q w Hr) as Hcl.
  set (W := withProps u q (loadCleanup w)) in *.
  destruct Hcl as (_ & Hidle & Hc & _).
  assert (f ∈ fetches (env W)) as HfW by done.
  assert (w1 = commit w (loadEffect W)) as Hw1.
  { unfold w1, step, resumed. simpl. by rewrite bool_decide_false. }
  destruct (loadEffect_frame W) as (Ht & Hca & Hl).
  split.
  - intros t Ht1. apply Hidle. rewrite <- Ht. rewrite Hw1 in Ht1.
    pose proof (afterAutoEdit_frame w (loadEffect W)) as Hae. simpl in Hae.
    destruct Hae as (_ & _ & _ & He & _ & _ & _ & _ & _ & _ & Hil & _).
    rewrite <- He. unfold commit in Ht1. case_decide; [done|].
    apply autosaveEffect_unloaded in Ht1; [done|]. by rewrite Hil.
  - intros evs res data storageOk w2 a b.
    assert (f_instance f ∈ cancelled w2) as Hstale.
    { apply cancelled_run. rewrite Hw1.
      destruct (commit_frame w (loadEffect W))
        as (_ & _ & _ & _ & _ & _ & _ & _ & _ & _ & ->).
      rewrite Hca. by apply Hc. }
    split.
    + destruct (responseSettled_stale _ res w2 Hstale)
        as (Hco & Hu & Hls & _ & _ & _ & Ha).
      unfold a, step, resumed. simpl handler. by rewrite commit_same.
    + destruct (jsonSettled_stale _ data storageOk w2 Hstale)
        as (Hco & Hu & Hls & _ & _ & _ & Ha).
      unfold b, step, resumed. simpl handler. by rewrite commit_same.
Qed.

Lemma run_nil w : run [] w = w.
Proof. reflexivity. Qed.

Lemma run_app evs evs' w : run (evs ++ evs') w = run evs' (run evs w).
Proof. apply foldl_app. Qed.

Lemma reachable_mount u q a storage t0 : reachable (mount u q a storage t0).
Proof. exists u, q, a, storage, t0, []. symmetry. apply run_nil. Qed.

Lemma reachable_run evs w : reachable w → reachable (run evs w).
Proof.
  intros (u & q & a & storage & t0 & evs0 & ->).
  exists u, q, a, storage, t0, (evs0 ++ evs). symmetry. apply run_app.
Qed.

Lemma stale_fetch_discarded_witness :
  comp (step (JsonSettled 0 (Some helloRemote) true)
          (run [ResponseSettled 0 (Status true)]
               (step (Navigate sampleUser "q2") (mount sampleUser "q1" false ∅ 1000))))
  = comp (run [ResponseSettled 0 (Status true)]
              (step (Navigate sampleUser "q2") (mount sampleUser "q1" false ∅ 1000))).
Proof.
  destruct (stale_fetch_discarded (mount sampleUser "q1" false ∅ 1000) sampleUser "q2"
              (sampleFetch AwaitResponse)) as [_ H].
  - apply reachable_mount.
  - intros [_ H]. vm_compute in H. discriminate.
  - vm_compute. left.
  - exact (proj1 (proj2 (H [ResponseSettled 0 (Status true)] Rejected
                           (Some helloRemote) true))).
Defined.

(** ** Debounced autosave *)

Lemma find_timer ts t :
  NoDup (handle <$> ts) → t ∈ ts →
  List.find (λ t', bool_decide (handle t' = handle t)) ts = Some t.
Proof.
  induction ts as [|x ts IH]; intros Hnd Hin; [by apply elem_of_nil in Hin|].
  rewrite fmap_cons in Hnd. apply NoDup_cons in Hnd as [Hx Hnd]. simpl.
  apply elem_of_cons in Hin as [->|Hin].
  - by rewrite bool_decide_true.
  - rewrite bool_decide_false; [by apply IH|].
    intros E. apply Hx. rewrite E. apply list_elem_of_fmap. by exists t.
Qed.

Lemma filter_none {A} (P : A → Prop) `{∀ x, Decision (P x)} (l : list A) :
  (∀ x, x ∈ l → ¬ P x) → filter P l = [].
Proof.
  induction l as [|x l IH]; intros Hl; [done|].
  rewrite filter_cons_False by (apply Hl; left). apply IH. intros y Hy. apply Hl. by right.
Qed.

Lemma step_change v w :
  step (Change v) w
  = if decide (v = value (comp w)) then setValue v w
    else autosaveEffect (afterAutoEdit w (setValue v w)).
Proof.
  unfold step, resumed, commit, autosaveDeps. simpl.
  case_decide as E1; case_decide as E2; [|naive_solver..].
  unfold afterAutoEdit, autoEditDeps, hasContent. simpl. rewrite decide_True; [done|].
  by rewrite E2.
Qed.

Lemma change_frame v w :
  let w' := step (Change v) w in
  value (comp w') = v ∧ steady w w' ∧ now (env w') = now (env w)
  ∧ (tracked w → tracked w').
Proof.
  simpl. split_and!; [| | |apply tracked_step].
  all: rewrite step_change; case_decide; [done|];
    destruct (afterAutoEdit_cases w (setValue v w)) as [-> | ->];
    [pose proof (autosaveEffect_frame (setValue v w)) as Hfr
    |pose proof (autosaveEffect_frame (setIsEditing true (setValue v w))) as Hfr];
    simpl in Hfr; unfold steady; naive_solver.
Qed.

Lemma elapse_frame d w :
  let w' := step (Elapse d) w in
  value (comp w') = value (comp w) ∧ steady w w' ∧ now (env w') = (now (env w) + d)%N
  ∧ (tracked w → tracked w') ∧ timers (env w') = timers (env w).
Proof.
  simpl. unfold step, resumed. simpl handler. rewrite commit_same by done.
  split_and!; [done..| |done]. intros H. framed.
Qed.

Lemma change_schedules w v uid :
  tracked w → initialLoaded (comp w) = true → signedIn (user w) = Some uid →
  v ≠ value (comp w) →
  v ≠ lastSavedValueRef (comp w) ∨ images (comp w) ≠ lastSavedImagesRef (comp w) →
  let w' := step (Change v) w in
  let t := mkTimer (nextHandle (env w)) (now (env w) + 500)
                   (Autosave {| r_user := user w; r_questionId := questionId w;
                                r_value := v; r_images := images (comp w) |}) in
  filter (λ x, isAutosave x) (timers (env w')) = [t] ∧ t ∈ timers (env w').
Proof.
  intros [Ht _] Hl Hu Hv Hch. simpl. rewrite step_change, decide_False by done.
  unfold autosaveEffect, autosaveBody.
  set (W := autosaveCleanupRun (afterAutoEdit w (setValue v w))).
  assert (initialLoaded (comp W) = true ∧ user W = user w ∧ hasChanges W = true
          ∧ nextHandle (env W) = nextHandle (env w) ∧ now (env W) = now (env w)
          ∧ debounceRef (comp W) = debounceRef (comp w)
          ∧ questionId W = questionId w ∧ value (comp W) = v
          ∧ images (comp W) = images (comp w)
          ∧ (timers (env W) = timers (env w)
             ∨ timers (env W) = cleared (debounceRef (comp w)) (timers (env w))))
    as (HWl & HWu & HWc & HWn & HWt & HWd & HWq & HWv & HWi & HWts).
  { unfold W, autosaveCleanupRun, hasChanges.
    destruct (afterAutoEdit_cases w (setValue v w)) as [-> | ->];
    destruct (autosaveCleanup _); simpl; rewrite Hl;
      (split_and!; [done|done|by apply bool_decide_eq_true|done..| ]); auto. }
  rewrite HWl, HWc, HWu, Hu. unfold currentRender. simpl.
  rewrite ?HWn, ?HWt, ?HWd, ?HWu, ?HWq, ?HWv, ?HWi.
  assert (∀ x, x ∈ cleared (debounceRef (comp w)) (timers (env W)) → ¬ isAutosave x)
    as Hnone.
  { intros x Hx.
    assert (isAutosave x = false) as ->; [|by intros []].
    apply (cleared_no_autosave (timers (env w)) _ _ _ x Ht).
    destruct HWts as [E|E]; rewrite E in Hx; [done|].
    destruct (debounceRef (comp w)); [|done]. simpl in *.
    by apply list_elem_of_filter in Hx as [_ ?]. }
  split.
  - rewrite filter_app, (filter_none _ _ Hnone). by rewrite filter_cons_True.
  - rewrite elem_of_app. right. left.
Qed.

Lemma fire_found W t ok :
  tracked W → t ∈ timers (env W) → (due t <=? now (env W))%N = true →
  fire (handle t) ok W
  = let W0 := setTimers (filter (λ t', handle t' ≠ handle t) (timers (env W)))
                        (nextHandle (env W)) W in
    match callback t with
    | Autosave r => save true r ok W0
    | ServerSync r content imageUrls => syncToServer r content imageUrls true W0
    | RevertToIdle => setSaveState idle W0
    end.
Proof.
  intros [(_ & Hnd & _) _] Hin Hdue. unfold fire.
  by rewrite (find_timer _ _ Hnd Hin), Hdue.
Qed.

(** A timer does nothing before its delay has passed. *)
Lemma fire_early W t ok :
  tracked W → t ∈ timers (env W) → (now (env W) < due t)%N →
  step (Fire (handle t) ok) W = W.
Proof.
  intros [(_ & Hnd & _) _] Hin Hdue. unfold step, resumed. simpl. unfold fire.
  rewrite (find_timer _ _ Hnd Hin).
  destruct (due t <=? now (env W))%N eqn:E; [apply N.leb_le in E; lia|].
  by apply commit_same.
Qed.

Lemma autosaveEffect_unchanged S :
  hasChanges S = false →
  timers (env (autosaveEffect S)) = timers (env S)
  ∨ timers (env (autosaveEffect S)) = cleared (debounceRef (comp S)) (timers (env S)).
Proof.
  intros H. unfold autosaveEffect, autosaveBody, autosaveCleanupRun.
  destruct (autosaveCleanup S); simpl.
  - assert (hasChanges (clearTimeout (debounceRef (comp S)) S) = false) as -> by done.
    destruct (initialLoaded (comp S)); simpl; auto.
  - rewrite H. destruct (initialLoaded (comp S)); simpl; auto.
Qed.

Lemma commit_unchanged before after :
  now (env (commit before after)) = now (env after)
  ∧ (hasChanges after = false →
     timers (env (commit before after)) = timers (env after)
     ∨ timers (env (commit before after))
       = cleared (debounceRef (comp after)) (timers (env after))).
Proof.
  pose proof (afterAutoEdit_frame before after) as Hae. simpl in Hae.
  destruct Hae as (_ & _ & _ & He & _ & _ & _ & Hv & Hi & _ & _ & _ & _ & Hlv & Hli & Hd & _).
  unfold commit. split.
  - case_decide; [by rewrite He|].
    pose proof (autosaveEffect_frame (afterAutoEdit before after)) as Hfr. simpl in Hfr.
    destruct Hfr as (_ & _ & _ & _ & _ & _ & _ & _ & _ & _ & _ & _ & -> & _).
    by rewrite He.
  - intros Hnc. case_decide; [left; by rewrite He|].
    assert (hasChanges (afterAutoEdit before after) = false) as Hnc'.
    { unfold hasChanges in *. by rewrite Hv, Hi, Hlv, Hli. }
    destruct (autosaveEffect_unchanged _ Hnc') as [E|E]; rewrite E, He, ?Hd; auto.
Qed.

Lemma fire_autosave W t r uid :
  tracked W → t ∈ timers (env W) → callback t = Autosave r →
  (due t ≤ now (env W))%N → signedIn (r_user r) = Some uid →
  r_images r = images (comp W) →
  let W' := step (Fire (handle t) true) W in
  ∃ cleaned,
    cleanOrphanedImages (r_value r) (map url (r_images r)) = Some cleaned
    ∧ setItems (env W')
      = setItems (env W)
          ++ [(localStorageKey (r_user r) (r_questionId r),
               Note cleaned (r_images r) (now (env W)))]
    ∧ filter (λ x, isAutosave x) (timers (env W')) = []
    ∧ filter (λ x, isServerSync x) (timers (env W'))
      = [mkTimer (nextHandle (env W)) (now (env W) + 2000)
                 (ServerSync r cleaned (map url (r_images r)))]
    ∧ posts (env W') = posts (env W)
    ∧ now (env W') = now (env W)
    ∧ tracked W'.
Proof.
  intros HW Hin Hcb Hdue Hu Himg W'.
  unfold W', step, resumed. simpl handler.
  rewrite fire_found by (done || by apply N.leb_le). rewrite Hcb. simpl.
  set (W0 := setTimers _ _ W).
  destruct (save_stored true r W0 uid Hu) as (cleaned & Hc & HS).
  exists cleaned. split; [done|]. simpl in HS.
  set (S0 := save true r true W0) in *.
  destruct HS as (Hsi & _ & Hv & Hi & _ & _ & _ & _ & Hlv & Hli & Hd & _ & Hts & _
                  & Hnow & Hp & _).
  destruct HW as [Ht Hfe]. pose proof Ht as (Hfr & Hnd & Ha & Hs & Hdr & Hsr).
  assert (debounceRef (comp W) = Some (handle t)) as Hdref
    by (apply Ha; [done|]; unfold isAutosave; by rewrite Hcb).
  pose proof (Hfr t Hin) as Hlt.
  set (ts0 := filter (λ t', handle t' ≠ handle t) (timers (env W))) in *.
  assert (timersOk ts0 (nextHandle (env W)) (debounceRef (comp W))
                   (syncDebounceRef (comp W))) as Ht0 by by apply timersOk_filter.
  set (A := cleared (syncDebounceRef (comp W)) ts0) in *.
  assert (∀ x, x ∈ A → ¬ isAutosave x) as HA1.
  { intros x Hx Hax. apply Is_true_true in Hax.
    assert (x ∈ ts0) as Hx0.
    { unfold A in Hx. destruct (syncDebounceRef (comp W)); [|done].
      by apply list_elem_of_filter in Hx as [_ ?]. }
    apply list_elem_of_filter in Hx0 as [Hne Hx0].
    specialize (Ha x Hx0 Hax). congruence. }
  assert (∀ x, x ∈ A → ¬ isServerSync x) as HA2.
  { intros x Hx Hsx. apply Is_true_true in Hsx.
    by rewrite (cleared_no_sync _ _ _ _ _ Ht0 Hx) in Hsx. }
  assert (hasChanges S0 = false) as Hnc.
  { unfold hasChanges. apply bool_decide_eq_false. rewrite Hv, Hlv, Hi, Hli. naive_solver. }
  pose proof (commit_frame W S0) as Hcf. simpl in Hcf.
  destruct Hcf as (_ & _ & _ & _ & _ & _ & _ & _ & -> & -> & _).
  rewrite Hsi, Hp.
  assert (now (env (commit W S0)) = now (env W)) as ->.
  { by rewrite (proj1 (commit_unchanged W S0)). }
  split_and!; [done| | |done|done|by apply tracked_commit, tracked_save].
  - assert (∀ x, x ∈ timers (env (commit W S0)) → ¬ isAutosave x) as Hno;
      [|by apply filter_none].
    intros x Hx.
    assert (x ∈ timers (env S0)) as HxS.
    { destruct (proj2 (commit_unchanged W S0) Hnc) as [E|E]; rewrite E in Hx; [done|].
      destruct (debounceRef (comp S0)); [|done].
      by apply list_elem_of_filter in Hx as [_ ?]. }
    rewrite Hts in HxS. apply elem_of_app in HxS as [HxA|HxN]; [by apply HA1|].
    apply elem_of_cons in HxN as [->|HxN]; [by intros []|].
    apply list_elem_of_singleton in HxN as ->. by intros [].
  - assert (timers (env (commit W S0)) = timers (env S0)
            ∨ timers (env (commit W S0))
              = filter (λ t', handle t' ≠ handle t) (timers (env S0))) as [-> | ->].
    { destruct (proj2 (commit_unchanged W S0) Hnc) as [E|E]; rewrite E; [by left|].
      right. by rewrite Hd, Hdref. }
    + rewrite Hts, filter_app, (filter_none _ _ HA2). simpl.
      rewrite filter_cons_True by done. by rewrite filter_cons_False by by intros [].
    + rewrite Hts, !filter_app.
      rewrite (filter_none (λ x, isServerSync x)).
      2:{ intros x [_ Hx]%list_elem_of_filter. by apply HA2. }
      simpl. rewrite (filter_cons_True (λ t', handle t' ≠ handle t)) by (simpl; lia).
      rewrite (filter_cons_True (λ t', handle t' ≠ handle t)) by (simpl; lia).
      rewrite filter_nil.
      rewrite filter_cons_True by done. by rewrite filter_cons_False by by intros [].
Qed.

Lemma fire_sync W t r c urls uid ok :
  tracked W → t ∈ timers (env W) → callback t = ServerSync r c urls →
  (due t ≤ now (env W))%N → signedIn (r_user r) = Some uid →
  let W' := step (Fire (handle t) ok) W in
  posts (env W')
  = posts (env W)
      ++ [{| p_userId := uid; p_questionId := r_questionId r; p_notes := c;
             p_notesImageUrls := urls; p_silent := true |}]
  ∧ comp W' = comp W ∧ setItems (env W') = setItems (env W).
Proof.
  intros HW Hin Hcb Hdue Hu W'. unfold W', step, resumed. simpl handler.
  rewrite fire_found by (done || by apply N.leb_le). rewrite Hcb. simpl.
  unfold syncToServer. rewrite Hu. by rewrite commit_same.
Qed.

Lemma steady_trans a b c : steady a b → steady b c → steady a c.
Proof.
  unfold steady. intros (?&?&?&?&?&?&?&?&?) (?&?&?&?&?&?&?&?&?).
  split_and!; congruence.
Qed.

Lemma autosaveBody_idle v :
  hasChanges v = false ∨ signedIn (user v) = None →
  autosaveBody v = setAutosaveCleanup false v.
Proof.
  intros [H|H]; unfold autosaveBody; rewrite H; simpl.
  - by destruct (initialLoaded (comp v)).
  - by destruct (initialLoaded (comp v)), (hasChanges v).
Qed.

(** C8. The body of the autosave effect does nothing when the content equals
    the last-saved snapshot or nobody is signed in. When the body changes
    twice less than 500 ms apart, one autosave timer is pending afterwards:
    it is due 500 ms after the second change and saves the second content;
    nothing has been written yet. When it fires, one item is written to the
    local cache, holding the second content put through
    [cleanOrphanedImages]; no autosave timer is left and one remote-sync timer
    is pending, due 2000 ms after the save; it does nothing when fired
    earlier and sends one request with the saved content when fired then. *)
Theorem autosave_debounced :
  (∀ v, hasChanges v = false ∨ signedIn (user v) = None →
        autosaveBody v = setAutosaveCleanup false v)
  ∧ ∀ (w : World) (v1 v2 : str) (d wait : N) (uid : str),
      reachable w → initialLoaded (comp w) = true → signedIn (user w) = Some uid →
      v2 ≠ v1 →
      v2 ≠ lastSavedValueRef (comp w) ∨ images (comp w) ≠ lastSavedImagesRef (comp w) →
      (d < 500)%N → (500 ≤ wait)%N →
      let r2 := {| r_user := user w; r_questionId := questionId w;
                   r_value := v2; r_images := images (comp w) |} in
      let urls := map url (images (comp w)) in
      let w2 := run [Change v1; Elapse d; Change v2] w in
      ∃ h cleaned,
        cleanOrphanedImages v2 urls = Some cleaned
        ∧ filter (λ x, isAutosave x) (timers (env w2))
          = [mkTimer h (now (env w) + d + 500) (Autosave r2)]
        ∧ setItems (env w2) = setItems (env w)
        ∧ let w3 := run [Elapse wait; Fire h true] w2 in
          setItems (env w3)
          = setItems (env w)
              ++ [(localStorageKey (user w) (questionId w),
                   Note cleaned (images (comp w)) (now (env w) + d + wait))]
          ∧ filter (λ x, isAutosave x) (timers (env w3)) = []
          ∧ posts (env w3) = posts (env w)
          ∧ ∃ h',
              filter (λ x, isServerSync x) (timers (env w3))
              = [mkTimer h' (now (env w) + d + wait + 2000) (ServerSync r2 cleaned urls)]
              ∧ (∀ early ok, (early < 2000)%N →
                   run [Elapse early; Fire h' ok] w3 = step (Elapse early) w3)
              ∧ (∀ late ok, (2000 ≤ late)%N →
                   posts (env (run [Elapse late; Fire h' ok] w3))
                   = posts (env w)
                       ++ [{| p_userId := uid; p_questionId := questionId w;
                              p_notes := cleaned; p_notesImageUrls := urls;
                              p_silent := true |}]).
Proof.
  split; [apply autosaveBody_idle|].
  intros w v1 v2 d wait uid Hr%reachable_tracked Hl Hu Hv Hch Hd Hwait r2 urls w2.
  unfold w2. clear w2. cbn [run foldl].
  pose proof (change_frame v1 w) as H1. cbv zeta in H1.
  revert H1. generalize (step (Change v1) w). intros w1 (Hv1 & Hst1 & Hn1 & Htr1).
  pose proof (elapse_frame d w1) as H1'. cbv zeta in H1'.
  revert H1'. generalize (step (Elapse d) w1). intros w1' (Hv1' & Hst1' & Hn1' & Htr1' & _).
  pose proof (steady_trans _ _ _ Hst1 Hst1') as Hst01.
  pose proof Hst01 as (Eu & Eq & Ei & El & Elv & Eli & Els & Esi & Ep).
  assert (tracked w1') as Ht1' by auto.
  pose proof (change_schedules w1' v2 uid) as Hcs. cbv zeta in Hcs.
  pose proof (change_frame v2 w1') as H2. cbv zeta in H2.
  revert Hcs H2. generalize (step (Change v2) w1'). intros W2 Hcs (Hv2 & Hst2 & Hn2 & Htr2).
  destruct Hcs as [Hfil Hin];
    [done|congruence|congruence|congruence|rewrite Elv, Ei, Eli; done|].
  rewrite Eu, Eq, Ei, Hn1', Hn1 in Hfil, Hin.
  pose proof (steady_trans _ _ _ Hst01 Hst2) as Hst02.
  pose proof (elapse_frame wait W2) as H3. cbv zeta in H3.
  set (t2 := mkTimer (nextHandle (env w1')) (now (env w) + d + 500) (Autosave r2)) in *.
  exists (nextHandle (env w1')).
  revert H3. generalize (step (Elapse wait) W2). intros W3 (Hv3 & Hst3 & Hn3 & Htr3 & Hts3).
  pose proof (steady_trans _ _ _ Hst02 Hst3)
    as (Eu3 & Eq3 & Ei3 & El3 & Elv3 & Eli3 & Els3 & Esi3 & Ep3).
  assert (tracked W3) as HtW3 by auto.
  pose proof (fire_autosave W3 t2 r2 uid HtW3) as Hfa. cbv zeta in Hfa.
  change (handle t2) with (nextHandle (env w1')) in Hfa.
  revert Hfa. generalize (step (Fire (nextHandle (env w1')) true) W3). intros W4 Hfa.
  destruct Hfa as (cleaned & Hc & Hsi & Hna & Hsy & Hp & Hnow & HT);
    [by rewrite Hts3|done| |done|by rewrite Ei3|].
  { change (due t2) with (now (env w) + d + 500)%N. rewrite Hn3, Hn2, Hn1', Hn1. lia. }
  change (r_images r2) with (images (comp w)) in *.
  change (r_value r2) with v2 in *.
  change (r_user r2) with (user w) in *.
  change (r_questionId r2) with (questionId w) in *.
  exists cleaned.
  split_and!; [done|done|by destruct Hst02 as (_&_&_&_&_&_&_&?&_)| | | |].
  - by rewrite Hsi, Esi3, Hn3, Hn2, Hn1', Hn1.
  - done.
  - by rewrite Hp, Ep3.
  - set (t4 := mkTimer (nextHandle (env W3)) (now (env W3) + 2000)
                       (ServerSync r2 cleaned urls)) in *.
    assert (t4 ∈ timers (env W4)) as Hin4.
    { assert (t4 ∈ filter (λ x, isServerSync x) (timers (env W4))) as Hx
        by (rewrite Hsy; left).
      by apply list_elem_of_filter in Hx as [_ ?]. }
    exists (nextHandle (env W3)). split_and!.
    + rewrite Hsy. unfold t4. by rewrite Hn3, Hn2, Hn1', Hn1.
    + intros early ok Hearly. cbn [run foldl].
      pose proof (elapse_frame early W4) as H5. cbv zeta in H5.
      revert H5. generalize (step (Elapse early) W4).
      intros W5 (_ & _ & Hn5 & Htr5 & Hts5).
      apply (fire_early W5 t4 ok); [auto|by rewrite Hts5|].
      change (due t4) with (now (env W3) + 2000)%N. rewrite Hn5, Hnow. lia.
    + intros late ok Hlate. cbn [run foldl].
      pose proof (elapse_frame late W4) as H5. cbv zeta in H5.
      revert H5. generalize (step (Elapse late) W4).
      intros W5 (_ & Hst5 & Hn5 & Htr5 & Hts5).
      pose proof (fire_sync W5 t4 r2 cleaned urls uid ok) as Hfs.
      cbv zeta in Hfs.
      destruct Hfs as (Hps & _); [auto|by rewrite Hts5|done| |done|].
      * change (due t4) with (now (env W3) + 2000)%N. rewrite Hn5, Hnow. lia.
      * change (handle t4) with (nextHandle (env W3)) in Hps. rewrite Hps.
        destruct Hst5 as (_ & _ & _ & _ & _ & _ & _ & _ & ->). by rewrite Hp, Ep3.
Qed.

Lemma autosave_debounced_witness :
  ∃ h cleaned,
    cleanOrphanedImages "ab" [] = Some cleaned
    ∧ setItems (env (run [Elapse 500; Fire h true]
                         (run [Change "a"; Elapse 100; Change "ab"] sampleLoaded)))
      = [(sampleKey, Note cleaned [] 1600)].
Proof.
  destruct (proj2 autosave_debounced sampleLoaded "a" "ab" 100%N 500%N "u1")
    as (h & cleaned & Hc & _ & _ & Hs & _).
  - exists sampleUser, ("q1" : str), false, ∅, 1000%N, [ResponseSettled 0 (Status false)].
    reflexivity.
  - vm_compute. reflexivity.
  - vm_compute. reflexivity.
  - vm_compute. discriminate.
  - left. vm_compute. discriminate.
  - reflexivity.
  - vm_compute. discriminate.
  - exists h, cleaned. split; [exact Hc|exact Hs].
Defined.

(** * Further properties of the component *)

(** ** Debounce timers *)

Lemma filter_same_handle (P : Timer → bool) ts h :
  NoDup (handle <$> ts) →
  (∀ t, t ∈ ts → P t = true → handle t = h) →
  length (filter (λ t, P t) ts) ≤ 1.
Proof.
  induction ts as [|a ts IH]; intros Hnd Hall; [simpl; lia|].
  apply NoDup_cons in Hnd as [Ha Hnd].
  destruct (P a) eqn:Pa.
  - rewrite filter_cons_True by by rewrite Pa.
    assert (filter (λ t, P t) ts = []) as ->; [|simpl; lia].
    apply filter_none. intros x Hx HPx. apply Is_true_true in HPx.
    apply Ha. apply list_elem_of_fmap. exists x. split; [|done].
    rewrite (Hall a) by (done || (apply elem_of_cons; by left)).
    symmetry. apply Hall; [apply elem_of_cons; by right|done].
  - rewrite filter_cons_False by (rewrite Pa; simpl; tauto).
    apply IH; [done|]. intros t Ht. apply Hall. apply elem_of_cons. by right.
Qed.

(** In every state the component can reach, at most one autosave timer and
    at most one remote-sync timer are pending, and each is the timer whose
    handle its ref holds. *)
Theorem pending_debounce_timers_unique (w : World) :
  reachable w →
  length (filter (λ t, isAutosave t) (timers (env w))) ≤ 1
  ∧ length (filter (λ t, isServerSync t) (timers (env w))) ≤ 1
  ∧ (∀ t, t ∈ timers (env w) → isAutosave t = true →
          debounceRef (comp w) = Some (handle t))
  ∧ (∀ t, t ∈ timers (env w) → isServerSync t = true →
          syncDebounceRef (comp w) = Some (handle t)).
Proof.
  intros [(Hfr & Hnd & Ha & Hs & _) _]%reachable_tracked.
  split_and!; [| |done|done].
  - destruct (debounceRef (comp w)) as [h|] eqn:E.
    + apply (filter_same_handle _ _ h); [done|].
      intros t Ht Pt. specialize (Ha t Ht Pt). congruence.
    + apply (filter_same_handle _ _ 0); [done|].
      intros t Ht Pt. by specialize (Ha t Ht Pt).
  - destruct (syncDebounceRef (comp w)) as [h|] eqn:E.
    + apply (filter_same_handle _ _ h); [done|].
      intros t Ht Pt. specialize (Hs t Ht Pt). congruence.
    + apply (filter_same_handle _ _ 0); [done|].
      intros t Ht Pt. by specialize (Hs t Ht Pt).
Qed.

Lemma pending_debounce_timers_unique_witness :
  length (filter (λ t, isAutosave t)
            (timers (env (run [Change "a"; Elapse 100; Change "ab"; ClickSave true]
                              sampleLoaded)))) ≤ 1.
Proof.
  refine (proj1 (pending_debounce_timers_unique
                   (run [Change "a"; Elapse 100; Change "ab"; ClickSave true]
                        sampleLoaded) _)).
  apply reachable_run. unfold sampleLoaded. apply reachable_run, reachable_mount.
Defined.

(** ** The pending autosave is the one of the render on screen *)

Ltac timers_in :=
  repeat match goal with
         | H : _ ∈ _ ++ _ |- _ => apply elem_of_app in H as [H|H]
         | H : _ ∈ filter _ _ |- _ => apply list_elem_of_filter in H as [_ H]
         | H : _ ∈ [_] |- _ => apply list_elem_of_singleton in H; subst
         | H : _ ∈ [] |- _ => by apply elem_of_nil in H
         | H : _ ∈ cleared _ _ |- _ => unfold cleared in H
         | H : _ ∈ match ?r with Some _ => _ | None => _ end |- _ => destruct r
         end.

Lemma save_autosave_timers silent r ok w t :
  t ∈ timers (env (save silent r ok w)) → isAutosave t = true → t ∈ timers (env w).
Proof.
  unfold save, saveFailed, saveToLocalStorage, notify.
  destruct (signedIn (r_user r)), (cleanOrphanedImages (r_value r) (map url (r_images r))),
    ok, silent; simpl; intros Hin Ha; timers_in; done.
Qed.

Lemma fire_autosave_timers h ok w t :
  t ∈ timers (env (fire h ok w)) → isAutosave t = true → t ∈ timers (env w).
Proof.
  unfold fire. destruct (List.find _ _) as [t0|]; [|done].
  destruct (_ <=? _)%N; [|done]. destruct (callback t0).
  - intros Hin Ha. apply save_autosave_timers in Hin; [|done]. simpl in Hin. by timers_in.
  - unfold syncToServer. destruct (signedIn _); simpl; intros Hin Ha; by timers_in.
  - simpl. intros Hin Ha. by timers_in.
Qed.

(** No handler schedules an autosave; only the effect does. *)
Lemma handler_autosave_timers ev w t :
  t ∈ timers (env (handler ev w)) → isAutosave t = true → t ∈ timers (env w).
Proof.
  destruct ev; simpl.
  - case_bool_decide; [done|]. unfold hydrate.
    rewrite (proj1 (loadEffect_frame _)). unfold withProps, loadCleanup. simpl.
    intros Hin _. by timers_in.
  - done.
  - unfold responseSettled, takeFetch, finallyLoaded.
    repeat (case_match; simpl; simplify_eq/=); done.
  - unfold jsonSettled, takeFetch, finallyLoaded, applyServerData.
    repeat (case_match; simpl; simplify_eq/=); done.
  - done.
  - done.
  - done.
  - apply fire_autosave_timers.
  - unfold postSettled, notify. repeat (case_match; simpl); done.
  - done.
  - done.
  - destruct (initialLoaded _); [|done]. unfold handleSaveEdit. simpl.
    apply save_autosave_timers.
  - destruct (_ && _); [|done]. unfold clearNote, syncToServer.
    repeat (case_match; simpl); done.
Qed.

Lemma handler_autosaveCleanup ev w : autosaveCleanup (handler ev w) = autosaveCleanup w.
Proof.
  destruct ev; unfold_ops; simpl;
    repeat ((case_match || case_bool_decide); simpl; simplify_eq/=); done.
Qed.

Lemma armed_handler ev w : armed w → armed (handler ev w).
Proof.
  intros H t Hin Ha. rewrite handler_autosaveCleanup.
  apply (H t); [|done]. by apply (handler_autosave_timers ev).
Qed.

Lemma armed_setIsEditing b w : armed w → armed (setIsEditing b w).
Proof. intros H. exact H. Qed.

Lemma upToDate_setIsEditing b w : upToDate w → upToDate (setIsEditing b w).
Proof. intros H. exact H. Qed.

Lemma autosaveCleanupRun_disarms w t :
  tracked w → armed w → t ∈ timers (env (autosaveCleanupRun w)) → isAutosave t = false.
Proof.
  intros [Ht _] Harm. unfold autosaveCleanupRun.
  destruct (autosaveCleanup w) eqn:E.
  - simpl. apply (cleared_no_autosave _ _ _ _ _ Ht).
  - intros Hin. destruct (isAutosave t) eqn:Ea; [|done].
    specialize (Harm t Hin Ea). congruence.
Qed.

Lemma autosaveCleanupRun_render w :
  currentRender (autosaveCleanupRun w) = currentRender w
  ∧ debounceRef (comp (autosaveCleanupRun w)) = debounceRef (comp w)
  ∧ hasChanges (autosaveCleanupRun w) = hasChanges w
  ∧ initialLoaded (comp (autosaveCleanupRun w)) = initialLoaded (comp w).
Proof. unfold autosaveCleanupRun. by destruct (autosaveCleanup w). Qed.

(** What the body of the autosave effect leaves pending. *)
Lemma autosaveBody_timers v :
  (timers (env (autosaveBody v)) = timers (env v) ∧ autosaveCleanup (autosaveBody v) = false
   ∧ (initialLoaded (comp v) = false ∨ hasChanges v = false ∨ signedIn (user v) = None))
  ∨ (timers (env (autosaveBody v))
     = cleared (debounceRef (comp v)) (timers (env v))
         ++ [mkTimer (nextHandle (env v)) (now (env v) + 500) (Autosave (currentRender v))]
     ∧ autosaveCleanup (autosaveBody v) = true
     ∧ initialLoaded (comp v) = true ∧ hasChanges v = true
     ∧ signedIn (user v) ≠ None).
Proof.
  unfold autosaveBody.
  destruct (initialLoaded (comp v)); simpl; [|left; auto].
  destruct (hasChanges v); simpl; [|left; auto].
  destruct (signedIn (user v)); simpl; [|left; auto].
  right. auto.
Qed.

Lemma autosaveBody_render v :
  currentRender (autosaveBody v) = currentRender v
  ∧ initialLoaded (comp (autosaveBody v)) = initialLoaded (comp v)
  ∧ user (autosaveBody v) = user v.
Proof.
  unfold autosaveBody. by repeat (case_match; simpl).
Qed.

(** After a run of the autosave effect the only autosave timer, if any, is
    the one it has just scheduled for the render on screen. *)
Lemma autosaveEffect_sound w :
  tracked w → armed w → armed (autosaveEffect w) ∧ upToDate (autosaveEffect w).
Proof.
  intros Ht Ha. unfold autosaveEffect.
  pose proof (autosaveCleanupRun_disarms w) as Hno.
  destruct (autosaveBody_timers (autosaveCleanupRun w))
    as [(E & Ef & _)|(E & Ef & El & _ & Hs)].
  - split.
    + intros t Hin Hat. rewrite E in Hin. by rewrite (Hno t Ht Ha Hin) in Hat.
    + intros t r Hin Hcb. rewrite E in Hin. specialize (Hno t Ht Ha Hin).
      unfold isAutosave in Hno. by rewrite Hcb in Hno.
  - split; [by intros ? ? ?|].
    intros t r Hin Hcb. rewrite E in Hin.
    destruct (autosaveBody_render (autosaveCleanupRun w)) as (-> & -> & ->).
    apply elem_of_app in Hin as [Hin|Hin%list_elem_of_singleton].
    + assert (t ∈ timers (env (autosaveCleanupRun w))) as Hin'.
      { destruct (debounceRef _); [|done]. by apply list_elem_of_filter in Hin as [_ ?]. }
      specialize (Hno t Ht Ha Hin'). unfold isAutosave in Hno. by rewrite Hcb in Hno.
    + subst t. simpl in Hcb. split_and!; [congruence|done|done].
Qed.

Lemma save_render silent r ok w :
  autosaveDeps (save silent r ok w) = autosaveDeps w →
  currentRender (save silent r ok w) = currentRender w.
Proof.
  unfold save, saveFailed, saveToLocalStorage, notify, autosaveDeps, currentRender.
  destruct (signedIn (r_user r)), (cleanOrphanedImages (r_value r) (map url (r_images r))),
    ok, silent; simpl; intros H;
    first [done | (injection H as Hv; by rewrite Hv)].
Qed.

Lemma fire_render h ok w :
  autosaveDeps (fire h ok w) = autosaveDeps w →
  currentRender (fire h ok w) = currentRender w.
Proof.
  unfold fire. destruct (List.find _ _) as [t0|]; [|done].
  destruct (_ <=? _)%N; [|done]. destruct (callback t0).
  - intros H. by rewrite save_render.
  - unfold syncToServer. by destruct (signedIn _).
  - done.
Qed.

(** A handler that leaves the dependencies of the autosave effect alone
    leaves the render alone, or leaves no autosave pending. *)
Lemma handler_render ev w :
  tracked w → autosaveDeps (handler ev w) = autosaveDeps w →
  currentRender (handler ev w) = currentRender w
  ∨ ∀ t, t ∈ timers (env (handler ev w)) → isAutosave t = false.
Proof.
  intros Ht. destruct ev; simpl.
  - case_bool_decide; [by left|]. intros _. right. unfold hydrate.
    rewrite (proj1 (loadEffect_frame _)).
    destruct (loadCleanup_withProps u q w Ht) as (_ & Hidle & _).
    intros t Hin. unfold isAutosave. by rewrite (Hidle t Hin).
  - by left.
  - left. revert H. unfold responseSettled, takeFetch, finallyLoaded, autosaveDeps,
      currentRender.
    repeat (case_match; simpl; simplify_eq/=); done.
  - left. revert H. unfold jsonSettled, takeFetch, finallyLoaded, applyServerData,
      autosaveDeps, currentRender, setItem.
    repeat (case_match; simpl; simplify_eq/=); try done; intros [= ? ?]; lia.
  - left. revert H. unfold autosaveDeps, currentRender. simpl. by intros [= ->].
  - left. revert H. unfold autosaveDeps. simpl. intros [= ?]. lia.
  - by left.
  - left. by apply fire_render.
  - left. unfold postSettled, notify. by repeat (case_match; simpl).
  - by left.
  - left. revert H. unfold autosaveDeps. simpl. intros [= ? ?]. lia.
  - left. revert H. destruct (initialLoaded _) eqn:E; [|done]. unfold handleSaveEdit.
    apply save_render.
  - left. revert H. destruct (_ && _); [|done]. unfold clearNote, syncToServer, autosaveDeps.
    repeat (case_match; simpl); intros [= ? ?]; lia.
Qed.

Lemma upToDate_commit ev w :
  tracked w → armed w → upToDate w →
  armed (step ev w) ∧ upToDate (step ev w).
Proof.
  intros Ht Ha Hu.
  pose proof (armed_handler ev w Ha) as HA.
  pose proof (tracked_handler ev w Ht) as HT.
  assert (autosaveDeps w = autosaveDeps (handler ev w) → upToDate (handler ev w)) as HU.
  { intros Hd t r Hin Hcb.
    destruct (handler_render ev w Ht (eq_sym Hd)) as [-> | Hno].
    + unfold autosaveDeps in Hd. injection Hd as _ _ <- <-.
      apply (Hu t); [|done]. apply (handler_autosave_timers ev); [done|].
      unfold isAutosave. by rewrite Hcb.
    + specialize (Hno t Hin). unfold isAutosave in Hno. by rewrite Hcb in Hno. }
  assert (armed (commit w (handler ev w)) ∧ upToDate (commit w (handler ev w))) as [H1 H2].
  { unfold commit.
    destruct (afterAutoEdit_cases w (handler ev w)) as [-> | ->]; case_decide as Hd.
    - split; [done|by apply HU].
    - by apply autosaveEffect_sound.
    - split; [by apply armed_setIsEditing|by apply upToDate_setIsEditing, HU].
    - apply autosaveEffect_sound;
        [by apply tracked_setIsEditing|by apply armed_setIsEditing]. }
  unfold step. destruct (resumed_cases ev w (commit w (handler ev w))) as [-> | ->].
  - done.
  - split; [by apply armed_setIsEditing|by apply upToDate_setIsEditing].
Qed.

Lemma upToDate_run evs w :
  tracked w → armed w → upToDate w → armed (run evs w) ∧ upToDate (run evs w).
Proof.
  revert w. induction evs as [|ev evs IH]; intros w Ht Ha Hu; [done|].
  simpl. destruct (upToDate_commit ev w Ht Ha Hu). apply IH; [by apply tracked_step|done..].
Qed.

Lemma upToDate_mount u q a storage t0 :
  armed (mount u q a storage t0) ∧ upToDate (mount u q a storage t0).
Proof.
  unfold mount. rewrite autoEditEffect_unloaded by done.
  assert (tracked (loadEffect (unmounted u q a storage t0))) as Ht.
  { apply tracked_loadEffect. split; simpl.
    - split_and!; [by intros ? ?%elem_of_nil|constructor|by intros ? ?%elem_of_nil..
                  |done|done].
    - by intros ? ?%elem_of_nil. }
  assert (armed (loadEffect (unmounted u q a storage t0))) as Ha.
  { intros t. rewrite (proj1 (loadEffect_frame _)). simpl. by intros ?%elem_of_nil. }
  destruct (autosaveEffect_sound _ Ht Ha) as [Ha1 Hu1].
  pose proof (tracked_autosaveEffect _ Ht) as Ht1.
  unfold commit.
  destruct (afterAutoEdit_cases (unmounted u q a storage t0)
              (autosaveEffect (loadEffect (unmounted u q a storage t0)))) as [-> | ->];
    case_decide.
  - done.
  - by apply autosaveEffect_sound.
  - split; [by apply armed_setIsEditing|by apply upToDate_setIsEditing].
  - apply autosaveEffect_sound; [by apply tracked_setIsEditing|by apply armed_setIsEditing].
Qed.

(** Whatever the session, an autosave that is pending holds the user, the
    question, the body and the images of the render on screen, the note is
    loaded and somebody is signed in: when it fires it saves what is
    displayed, not an older state. *)
Theorem pending_autosave_is_current (w : World) (t : Timer) (r : Render) :
  reachable w → t ∈ timers (env w) → callback t = Autosave r →
  r = currentRender w ∧ initialLoaded (comp w) = true ∧ signedIn (user w) ≠ None
  ∧ debounceRef (comp w) = Some (handle t).
Proof.
  intros Hr Hin Hcb. pose proof (reachable_tracked w Hr) as [(_ & _ & Hd & _) _].
  destruct Hr as (u & q & a & storage & t0 & evs & ->).
  destruct (upToDate_mount u q a storage t0) as [Ha Hu].
  destruct (upToDate_run evs _ (tracked_mount u q a storage t0) Ha Hu) as [Ha' Hu'].
  assert (isAutosave t = true) as Hat by (unfold isAutosave; by rewrite Hcb).
  destruct (Hu' t r Hin Hcb) as (? & ? & ?).
  split_and!; [done..|by apply Hd].
Qed.

Lemma pending_autosave_is_current_witness :
  {| r_user := sampleUser; r_questionId := "q1"; r_value := "a"; r_images := [] |}
  = currentRender (run [Change "a"] sampleLoaded).
Proof.
  refine (proj1 (pending_autosave_is_current (run [Change "a"] sampleLoaded)
            (mkTimer 1 1500 (Autosave {| r_user := sampleUser; r_questionId := "q1";
                                         r_value := "a"; r_images := [] |})) _ _ _ _)).
  - apply reachable_run. unfold sampleLoaded. apply reachable_run, reachable_mount.
  - vm_compute. left.
  - reflexivity.
Defined.

(** ** A debounce ref cancels its own timer only *)

Lemma ownedOk_filter (P : Timer → Prop) `{∀ t, Decision (P t)} ts d s :
  ownedOk ts d s → ownedOk (filter P ts) d s.
Proof.
  intros [Hd Hs]. split; intros t [_ Ht]%list_elem_of_filter; [by apply Hd|by apply Hs].
Qed.

Lemma ownedOk_cleared ref ts d s : ownedOk ts d s → ownedOk (cleared ref ts) d s.
Proof. destruct ref; [apply ownedOk_filter|done]. Qed.

Lemma ownedOk_add_idle ts n d s due :
  timersOk ts n d s → ownedOk ts d s →
  ownedOk (ts ++ [mkTimer n due RevertToIdle]) d s.
Proof.
  intros (_ & _ & _ & _ & Hdr & Hsr) [Hd Hs].
  split; intros t [Ht|Ht%list_elem_of_singleton]%elem_of_app E.
  - by apply Hd.
  - rewrite Ht in E. specialize (Hdr _ E). simpl in Hdr. lia.
  - by apply Hs.
  - rewrite Ht in E. specialize (Hsr _ E). simpl in Hsr. lia.
Qed.

Lemma ownedOk_add_autosave ts n d s due r :
  timersOk ts n d s → ownedOk ts d s →
  ownedOk (cleared d ts ++ [mkTimer n due (Autosave r)]) (Some n) s.
Proof.
  intros Hok [Hd Hs]. pose proof (timersOk_cleared d _ _ _ _ Hok) as (Hf & _ & _ & _ & _ & Hsr).
  destruct (ownedOk_cleared d ts d s (conj Hd Hs)) as [Hd' Hs'].
  split; intros t [Ht|Ht%list_elem_of_singleton]%elem_of_app E.
  - injection E as E. specialize (Hf t Ht). lia.
  - by rewrite Ht.
  - by apply Hs'.
  - rewrite Ht in E. specialize (Hsr _ E). simpl in Hsr. lia.
Qed.

Lemma ownedOk_add_sync ts n d s due r c urls :
  timersOk ts n d s → ownedOk ts d s →
  ownedOk (cleared s ts ++ [mkTimer n due (ServerSync r c urls)]) d (Some n).
Proof.
  intros Hok [Hd Hs]. pose proof (timersOk_cleared s _ _ _ _ Hok) as (Hf & _ & _ & _ & Hdr & _).
  destruct (ownedOk_cleared s ts d s (conj Hd Hs)) as [Hd' Hs'].
  split; intros t [Ht|Ht%list_elem_of_singleton]%elem_of_app E.
  - by apply Hd'.
  - rewrite Ht in E. specialize (Hdr _ E). simpl in Hdr. lia.
  - injection E as E. specialize (Hf t Ht). lia.
  - by rewrite Ht.
Qed.

Lemma owned_frame w w' :
  timers (env w') = timers (env w) → debounceRef (comp w') = debounceRef (comp w) →
  syncDebounceRef (comp w') = syncDebounceRef (comp w) → owned w → owned w'.
Proof. unfold owned. by intros -> -> ->. Qed.

Lemma owned_save silent r ok w : tracked w → owned w → owned (save silent r ok w).
Proof.
  intros [Ht _] Ho. unfold save, saveFailed, saveToLocalStorage, notify.
  destruct (signedIn (r_user r)), (cleanOrphanedImages (r_value r) (map url (r_images r))),
    ok, silent; try done; unfold owned; simpl;
    (apply ownedOk_add_idle; [by apply timersOk_add_sync|by apply ownedOk_add_sync]).
Qed.

Lemma owned_fire h ok w : tracked w → owned w → owned (fire h ok w).
Proof.
  intros Ht Ho. unfold fire. destruct (List.find _ _) as [t|]; [|done].
  destruct (_ <=? _)%N; [|done].
  set (w0 := setTimers _ _ w).
  assert (tracked w0) as Ht0.
  { destruct Ht as [Ht Hf]. split; [|done]. simpl. by apply timersOk_filter. }
  assert (owned w0) as Ho0 by by apply ownedOk_filter.
  destruct (callback t).
  - by apply owned_save.
  - unfold syncToServer. by destruct (signedIn _).
  - done.
Qed.

Lemma owned_hydrate u q w : owned w → owned (hydrate u q w).
Proof.
  intros Ho. unfold hydrate.
  assert (owned (withProps u q (loadCleanup w))) as Ho'.
  { unfold owned, withProps, loadCleanup. simpl. by apply ownedOk_cleared, ownedOk_cleared. }
  revert Ho'. generalize (withProps u q (loadCleanup w)). intros v Hv.
  apply (owned_frame v); [| | |done];
    unfold loadEffect, syncWithServer, loadFromLocalStorage; simpl;
    repeat (case_match; simpl); done.
Qed.

Lemma owned_handler ev w : tracked w → owned w → owned (handler ev w).
Proof.
  intros Ht Ho. destruct ev; simpl.
  - case_bool_decide; [done|]. by apply owned_hydrate.
  - done.
  - apply (owned_frame w); [| | |done];
      unfold responseSettled, takeFetch, finallyLoaded;
      repeat (case_match; simpl; simplify_eq/=); done.
  - apply (owned_frame w); [| | |done];
      unfold jsonSettled, takeFetch, finallyLoaded, applyServerData;
      repeat (case_match; simpl; simplify_eq/=); done.
  - done.
  - done.
  - done.
  - by apply owned_fire.
  - apply (owned_frame w); [| | |done]; unfold postSettled, notify;
      repeat (case_match; simpl); done.
  - done.
  - done.
  - destruct (initialLoaded _); [|done]. unfold handleSaveEdit. by apply owned_save.
  - destruct (_ && _); [|done].
    apply (owned_frame w); [| | |done]; unfold clearNote, syncToServer;
      repeat (case_match; simpl); done.
Qed.

Lemma owned_autosaveEffect w : tracked w → owned w → owned (autosaveEffect w).
Proof.
  intros [Ht _] Ho. unfold autosaveEffect, autosaveCleanupRun, autosaveBody.
  destruct (autosaveCleanup w); simpl.
  - assert (hasChanges (clearTimeout (debounceRef (comp w)) w) = hasChanges w) as -> by done.
    destruct (initialLoaded (comp w)); simpl; [|by apply ownedOk_cleared].
    destruct (hasChanges w); simpl; [|by apply ownedOk_cleared].
    destruct (signedIn (user w)); simpl; [|by apply ownedOk_cleared].
    unfold owned. simpl.
    apply ownedOk_add_autosave; [by apply timersOk_cleared|by apply ownedOk_cleared].
  - destruct (initialLoaded (comp w)); simpl; [|done].
    destruct (hasChanges w); simpl; [|done].
    destruct (signedIn (user w)); simpl; [|done].
    unfold owned. simpl. by apply ownedOk_add_autosave.
Qed.

Lemma owned_afterAutoEdit before after :
  owned after → owned (afterAutoEdit before after).
Proof. intros H. destruct (afterAutoEdit_cases before after) as [-> | ->]; exact H. Qed.

Lemma owned_commit before after :
  tracked after → owned after → owned (commit before after).
Proof.
  intros Ht%(tracked_afterAutoEdit before) Ho%(owned_afterAutoEdit before).
  unfold commit. case_decide; [done|]. by apply owned_autosaveEffect.
Qed.

Lemma owned_step ev w : tracked w → owned w → owned (step ev w).
Proof.
  intros Ht Ho.
  assert (owned (commit w (handler ev w))) as H
    by (apply owned_commit; [by apply tracked_handler|by apply owned_handler]).
  unfold step. by destruct (resumed_cases ev w (commit w (handler ev w))) as [-> | ->].
Qed.

Lemma owned_run evs w : tracked w → owned w → owned (run evs w).
Proof.
  revert w. induction evs as [|ev evs IH]; intros w Ht Ho; [done|].
  simpl. apply IH; [by apply tracked_step|by apply owned_step].
Qed.

Lemma owned_mount u q a storage t0 : owned (mount u q a storage t0).
Proof.
  unfold mount. rewrite autoEditEffect_unloaded by done.
  assert (tracked (loadEffect (unmounted u q a storage t0))) as Ht.
  { apply tracked_loadEffect. split; simpl.
    - split_and!; [by intros ? ?%elem_of_nil|constructor|by intros ? ?%elem_of_nil..
                  |done|done].
    - by intros ? ?%elem_of_nil. }
  assert (owned (loadEffect (unmounted u q a storage t0))) as Ho.
  { split; intros t; rewrite (proj1 (loadEffect_frame _)); simpl; by intros ?%elem_of_nil. }
  apply owned_commit; [by apply tracked_autosaveEffect|by apply owned_autosaveEffect].
Qed.

(** The invariants of a reachable state, together. *)
Lemma reachable_sound w : reachable w → tracked w ∧ owned w ∧ armed w ∧ upToDate w.
Proof.
  intros Hr. pose proof (reachable_tracked w Hr) as Ht.
  destruct Hr as (u & q & a & storage & t0 & evs & ->).
  destruct (upToDate_mount u q a storage t0) as [Ha Hu].
  destruct (upToDate_run evs _ (tracked_mount u q a storage t0) Ha Hu) as [Ha' Hu'].
  split_and!; [done| |done|done].
  apply owned_run; [apply tracked_mount|apply owned_mount].
Qed.

(** ** What the autosave effect leaves pending when it schedules nothing *)

Lemma filter_ext_in {A} (P Q : A → Prop) `{∀ x, Decision (P x)} `{∀ x, Decision (Q x)}
    (l : list A) :
  (∀ x, x ∈ l → P x ↔ Q x) → filter P l = filter Q l.
Proof.
  induction l as [|a l IH]; intros Hl; [done|].
  assert (filter P l = filter Q l) as E.
  { apply IH. intros x Hx. apply Hl. apply elem_of_cons. by right. }
  assert (P a ↔ Q a) as Ha by (apply Hl, elem_of_cons; by left).
  destruct (decide (P a)) as [Hp|Hp].
  - rewrite !filter_cons_True by tauto. by rewrite E.
  - rewrite !filter_cons_False by tauto. done.
Qed.

Lemma filter_all {A} (P : A → Prop) `{∀ x, Decision (P x)} (l : list A) :
  (∀ x, x ∈ l → P x) → filter P l = l.
Proof.
  induction l as [|a l IH]; intros Hl; [done|].
  rewrite filter_cons_True by (apply Hl, elem_of_cons; by left).
  rewrite IH; [done|]. intros x Hx. apply Hl, elem_of_cons. by right.
Qed.

Lemma autosaveCleanupRun_timers w :
  tracked w → owned w → armed w →
  timers (env (autosaveCleanupRun w)) = filter (λ t, isAutosave t = false) (timers (env w)).
Proof.
  intros [(_ & _ & Ha & _) _] [Hd _] Harm. unfold autosaveCleanupRun.
  destruct (autosaveCleanup w) eqn:E; simpl.
  - destruct (debounceRef (comp w)) as [h|] eqn:Er; simpl.
    + apply filter_ext_in. intros t Ht. split.
      * intros Hne. destruct (isAutosave t) eqn:Et; [|done].
        specialize (Ha t Ht Et). congruence.
      * intros Hno Heq. rewrite <- Heq in Hd.
        specialize (Hd t Ht eq_refl). congruence.
    + symmetry. apply filter_all. intros t Ht.
      destruct (isAutosave t) eqn:Et; [|done]. by specialize (Ha t Ht Et).
  - symmetry. apply filter_all. intros t Ht.
    destruct (isAutosave t) eqn:Et; [|done]. specialize (Harm t Ht Et). congruence.
Qed.

Lemma autosaveEffect_idle w :
  tracked w → owned w → armed w →
  initialLoaded (comp w) = false ∨ hasChanges w = false ∨ signedIn (user w) = None →
  timers (env (autosaveEffect w)) = filter (λ t, isAutosave t = false) (timers (env w)).
Proof.
  intros Ht Ho Ha Hg. unfold autosaveEffect.
  rewrite <- (autosaveCleanupRun_timers w Ht Ho Ha).
  pose proof (autosaveCleanupRun_render w) as (_ & _ & Hc & Hl).
  assert (user (autosaveCleanupRun w) = user w) as Hu
    by (unfold autosaveCleanupRun; by destruct (autosaveCleanup w)).
  unfold autosaveBody. rewrite Hc, Hl, Hu.
  destruct Hg as [-> | [-> | ->]]; simpl; [done| |].
  - by destruct (initialLoaded (comp w)).
  - by destruct (initialLoaded (comp w)), (hasChanges w).
Qed.

Lemma autosaveEffect_isEditing w :
  isEditing (comp (autosaveEffect w)) = isEditing (comp w)
  ∧ toasts (env (autosaveEffect w)) = toasts (env w).
Proof.
  unfold autosaveEffect, autosaveCleanupRun, autosaveBody.
  by repeat (case_match; simpl).
Qed.

Lemma armed_afterAutoEdit before after :
  armed after → armed (afterAutoEdit before after).
Proof. intros H. destruct (afterAutoEdit_cases before after) as [-> | ->]; exact H. Qed.

(** What the effect that enters edit mode leaves in [isEditing]. *)
Lemma afterAutoEdit_isEditing before after :
  isEditing (comp (afterAutoEdit before after))
  = if decide (autoEditDeps before = autoEditDeps after) then isEditing (comp after)
    else autoEdit after && negb (hasContent after) && initialLoaded (comp after)
         || isEditing (comp after).
Proof.
  unfold afterAutoEdit, autoEditEffect. case_decide; [done|].
  by destruct (autoEdit after && negb (hasContent after) && initialLoaded (comp after)).
Qed.

(** A handler that closes the editor and keeps [autoEdit] and
    [initialLoaded]: the editor opens again exactly when [autoEdit] is on, the
    note is loaded and the handler has emptied it. *)
Lemma closing_isEditing w after :
  isEditing (comp after) = false → autoEdit after = autoEdit w →
  initialLoaded (comp after) = initialLoaded (comp w) →
  isEditing (comp (commit w after))
  = autoEdit w && hasContent w && negb (hasContent after) && initialLoaded (comp w).
Proof.
  intros He Ha Hl.
  assert (isEditing (comp (commit w after)) = isEditing (comp (afterAutoEdit w after)))
    as ->.
  { unfold commit. case_decide; [done|]. apply autosaveEffect_isEditing. }
  rewrite afterAutoEdit_isEditing, He, Ha, Hl. unfold autoEditDeps. rewrite Ha, Hl.
  case_decide as E.
  - injection E as ->. by destruct (autoEdit w), (hasContent after).
  - destruct (hasContent w), (hasContent after); try done;
      by destruct (autoEdit w), (initialLoaded (comp w)).
Qed.

Lemma commit_hasContent w after : hasContent (commit w after) = hasContent after.
Proof.
  destruct (commit_frame w after) as (Hv & Hi & _). unfold hasContent. by rewrite Hv, Hi.
Qed.

Lemma filter_sync_not_autosave (ts : list Timer) :
  filter (λ t, isServerSync t) (filter (λ t, isAutosave t = false) ts)
  = filter (λ t, isServerSync t) ts.
Proof.
  rewrite list_filter_filter. apply filter_ext_in. intros t _.
  unfold isServerSync, isAutosave. destruct (callback t); simpl; naive_solver.
Qed.

Lemma filter_autosave_not_autosave (ts : list Timer) :
  filter (λ t, isAutosave t) (filter (λ t, isAutosave t = false) ts) = [].
Proof.
  apply filter_none. intros t [Hno _]%list_elem_of_filter Ht.
  apply Is_true_true in Ht. congruence.
Qed.

(** ** Cancelling an edit *)

(** Cancelling an edit puts the last-saved body and images back on screen,
    leaves nothing unsaved and writes and sends nothing; the autosave that
    was pending for the discarded edits is cancelled, every other timer stays
    pending. The editor closes, unless [autoEdit] is on, the note is loaded
    and cancelling has emptied a note that had content: then the effect that
    enters edit mode opens it again. *)
Theorem cancel_edit_discards_pending_autosave (w : World) :
  reachable w →
  let w' := step ClickCancel w in
  value (comp w') = lastSavedValueRef (comp w)
  ∧ images (comp w') = lastSavedImagesRef (comp w)
  ∧ hasChanges w' = false
  ∧ isEditing (comp w')
    = autoEdit w && hasContent w && negb (hasContent w') && initialLoaded (comp w)
  ∧ localStorage (env w') = localStorage (env w)
  ∧ setItems (env w') = setItems (env w)
  ∧ posts (env w') = posts (env w)
  ∧ timers (env w') = filter (λ t, isAutosave t = false) (timers (env w)).
Proof.
  intros (Ht & Ho & Ha & _)%reachable_sound w'. subst w'.
  pose proof (tracked_afterAutoEdit w _ (tracked_handler ClickCancel w Ht)) as Ht1.
  pose proof (owned_afterAutoEdit w _ (owned_handler ClickCancel w Ht Ho)) as Ho1.
  pose proof (armed_afterAutoEdit w _ (armed_handler ClickCancel w Ha)) as Ha1.
  pose proof (closing_isEditing w (handleCancelEdit w) eq_refl eq_refl eq_refl) as He.
  rewrite <- (commit_hasContent w (handleCancelEdit w)) in He.
  pose proof (afterAutoEdit_frame w (handleCancelEdit w)) as Hae. simpl in Hae.
  destruct Hae as (_ & _ & _ & Henv & _ & _ & _ & HvA & HiA & _ & _ & _ & _ & HlvA
                   & HliA & _).
  assert (commit w (handleCancelEdit w)
          = autosaveEffect (afterAutoEdit w (handleCancelEdit w))) as Hw'.
  { unfold commit. rewrite decide_False; [done|].
    unfold autosaveDeps. simpl. intros [= _ ?]. lia. }
  unfold step, resumed. simpl handler in *. rewrite Hw' in *. clear Hw'.
  revert Ht1 Ho1 Ha1 Henv HvA HiA HlvA HliA He.
  generalize (afterAutoEdit w (handleCancelEdit w)).
  intros A Ht1 Ho1 Ha1 Henv HvA HiA HlvA HliA He.
  pose proof (autosaveEffect_frame A) as Hfr. simpl in Hfr.
  destruct Hfr as (_ & _ & _ & _ & Hv & Hi & _ & _ & _ & Hlv & Hli & _ & _ & Hls & Hsi
                   & _ & Hp & _).
  assert (hasChanges A = false) as Hnc.
  { unfold hasChanges. rewrite HvA, HiA, HlvA, HliA. simpl.
    apply bool_decide_eq_false. naive_solver. }
  split_and!.
  - by rewrite Hv, HvA.
  - by rewrite Hi, HiA.
  - unfold hasChanges. rewrite Hv, Hi, Hlv, Hli. exact Hnc.
  - exact He.
  - by rewrite Hls, Henv.
  - by rewrite Hsi, Henv.
  - by rewrite Hp, Henv.
  - rewrite (autosaveEffect_idle _ Ht1 Ho1 Ha1) by auto. by rewrite Henv.
Qed.

Lemma cancel_edit_discards_pending_autosave_witness :
  (timers (env (step ClickCancel (run [Change "a"] sampleLoaded))) = []
   ∧ value (comp (step ClickCancel (run [Change "a"] sampleLoaded))) = []
   ∧ isEditing (comp (step ClickCancel (run [Change "a"] sampleLoaded))) = false)
  ∧ isEditing (comp (step ClickCancel
                       (run [ResponseSettled 0 (Status false); Change "a"]
                            (mount sampleUser "q1" true ∅ 1000)))) = true.
Proof.
  split.
  - pose proof (cancel_edit_discards_pending_autosave (run [Change "a"] sampleLoaded))
      as H.
    cbv zeta in H. destruct H as (Hv & _ & _ & He & _ & _ & _ & Hts).
    + apply reachable_run. unfold sampleLoaded. apply reachable_run, reachable_mount.
    + split_and!.
      * rewrite Hts. vm_compute. reflexivity.
      * rewrite Hv. vm_compute. reflexivity.
      * rewrite He. vm_compute. reflexivity.
  - pose proof (cancel_edit_discards_pending_autosave
                  (run [ResponseSettled 0 (Status false); Change "a"]
                       (mount sampleUser "q1" true ∅ 1000))) as H.
    cbv zeta in H. destruct H as (_ & _ & _ & He & _).
    + apply reachable_run, reachable_mount.
    + rewrite He. vm_compute. reflexivity.
Defined.

(** ** Clearing the note *)

(** Clearing an enabled note empties the body, the registry and the
    snapshot, removes the cache entry when the removal succeeds, and sends one
    silent request with empty notes when somebody is signed in. The pending
    autosave is cancelled; a remote sync that was pending stays pending. The
    editor closes, unless [autoEdit] is on and the note had content: then the
    effect that enters edit mode opens it again. *)
Theorem clear_note_keeps_pending_sync (w : World) (ok : bool) :
  reachable w → initialLoaded (comp w) = true →
  value (comp w) ≠ [] ∨ images (comp w) ≠ [] →
  let w' := step (ClickClear ok) w in
  let key := localStorageKey (user w) (questionId w) in
  (value (comp w') = [] ∧ images (comp w') = []
   ∧ lastSavedValueRef (comp w') = [] ∧ lastSavedImagesRef (comp w') = []
   ∧ lastSavedAt (comp w') = None
   ∧ isEditing (comp w') = autoEdit w && hasContent w)
  ∧ localStorage (env w')
    = (if ok then delete key (localStorage (env w)) else localStorage (env w))
  ∧ setItems (env w') = setItems (env w)
  ∧ posts (env w')
    = posts (env w)
        ++ match signedIn (user w) with
           | Some uid => [{| p_userId := uid; p_questionId := questionId w;
                             p_notes := []; p_notesImageUrls := []; p_silent := true |}]
           | None => []
           end
  ∧ toasts (env w') = toasts (env w) ++ [Efface]
  ∧ timers (env w') = filter (λ t, isAutosave t = false) (timers (env w)).
Proof.
  intros (Ht & Ho & Ha & _)%reachable_sound Hl Hc w' key. subst w'.
  assert (handler (ClickClear ok) w = clearNote ok w) as Eh.
  { simpl. rewrite Hl. simpl. by rewrite bool_decide_eq_true_2. }
  pose proof (tracked_afterAutoEdit w _ (tracked_handler (ClickClear ok) w Ht)) as Ht1.
  pose proof (owned_afterAutoEdit w _ (owned_handler (ClickClear ok) w Ht Ho)) as Ho1.
  pose proof (armed_afterAutoEdit w _ (armed_handler (ClickClear ok) w Ha)) as Ha1.
  unfold step, resumed. rewrite Eh in *. clear Eh.
  assert (isEditing (comp (clearNote ok w)) = false
          ∧ autoEdit (clearNote ok w) = autoEdit w
          ∧ initialLoaded (comp (clearNote ok w)) = initialLoaded (comp w)
          ∧ hasContent (clearNote ok w) = false
          ∧ hasChanges (clearNote ok w) = false) as (E1 & E2 & E3 & E4 & E5).
  { unfold hasContent, hasChanges, clearNote, syncToServer.
    repeat (case_match; simpl); split_and!; try done;
      apply bool_decide_eq_false; naive_solver. }
  pose proof (closing_isEditing w (clearNote ok w) E1 E2 E3) as He.
  rewrite E4, Hl in He. simpl in He. rewrite !andb_true_r in He.
  pose proof (afterAutoEdit_frame w (clearNote ok w)) as Hae. simpl in Hae.
  destruct Hae as (_ & _ & _ & Henv & _ & _ & _ & HvA & HiA & _ & _ & _ & HatA & HlvA
                   & HliA & _).
  assert (commit w (clearNote ok w) = autosaveEffect (afterAutoEdit w (clearNote ok w)))
    as Hw'.
  { unfold commit. rewrite decide_False; [done|].
    unfold autosaveDeps, clearNote, syncToServer.
    repeat (case_match; simpl); intros [= _ ?]; lia. }
  rewrite Hw' in *. clear Hw'.
  revert Ht1 Ho1 Ha1 Henv HvA HiA HatA HlvA HliA He.
  generalize (afterAutoEdit w (clearNote ok w)).
  intros A Ht1 Ho1 Ha1 Henv HvA HiA HatA HlvA HliA He.
  pose proof (autosaveEffect_frame A) as Hfr. simpl in Hfr.
  destruct Hfr as (_ & _ & _ & _ & Hv & Hi & _ & _ & Hat & Hlv & Hli & _ & _ & Hls & Hsi
                   & _ & Hp & _).
  destruct (autosaveEffect_isEditing A) as [_ Hto].
  assert (hasChanges A = false) as Hnc.
  { unfold hasChanges in *. by rewrite HvA, HiA, HlvA, HliA. }
  rewrite Hv, Hi, Hat, Hlv, Hli, He, Hls, Hsi, Hp, Hto.
  rewrite (autosaveEffect_idle _ Ht1 Ho1 Ha1) by auto.
  rewrite HvA, HiA, HatA, HlvA, HliA, Henv.
  unfold clearNote, syncToServer, key, localStorageKey. simpl.
  destruct ok, (signedIn (user w)); simpl; rewrite ?app_nil_r; done.
Qed.

Lemma clear_note_keeps_pending_sync_witness :
  (map p_notes
       (posts (env (run [Elapse 2000; Fire 2 true]
                        (step (ClickClear true)
                              (run [Change "a"; ClickSave true] sampleLoaded)))))
   = [[]; ("a" : str)]
   ∧ timers (env (step (ClickClear true) (run [Change "a"; ClickSave true] sampleLoaded)))
     = filter (λ t, isAutosave t = false)
              (timers (env (run [Change "a"; ClickSave true] sampleLoaded))))
  ∧ isEditing (comp (step (ClickClear true)
                       (run [ResponseSettled 0 (Status false); Change "a"]
                            (mount sampleUser "q1" true ∅ 1000)))) = true.
Proof.
  split; [split; [by vm_compute|]|].
  - refine (proj2 (proj2 (proj2 (proj2 (proj2
      (clear_note_keeps_pending_sync (run [Change "a"; ClickSave true] sampleLoaded)
                                     true _ _ _)))))).
    + apply reachable_run. unfold sampleLoaded. apply reachable_run, reachable_mount.
    + vm_compute. reflexivity.
    + left. vm_compute. discriminate.
  - pose proof (clear_note_keeps_pending_sync
                  (run [ResponseSettled 0 (Status false); Change "a"]
                       (mount sampleUser "q1" true ∅ 1000)) true) as H.
    cbv zeta in H. destruct H as ((_ & _ & _ & _ & _ & He) & _).
    + apply reachable_run, reachable_mount.
    + vm_compute. reflexivity.
    + left. vm_compute. discriminate.
    + rewrite He. vm_compute. reflexivity.
Defined.

(** ** A pending autosave fires *)

(** In any state the component can reach, when a pending autosave fires and
    the cache write succeeds: the cache entry of the current user and
    question holds the body on screen put through [cleanOrphanedImages] and
    the images on screen; that body is shown and is the snapshot, so nothing
    is left unsaved; no autosave is pending and the only remote sync pending
    is the one of this save, due 2000 ms later. *)
Theorem autosave_fire_saves_screen (w : World) (t : Timer) (r : Render) :
  reachable w → t ∈ timers (env w) → callback t = Autosave r →
  (due t ≤ now (env w))%N →
  let w' := step (Fire (handle t) true) w in
  ∃ cleaned,
    cleanOrphanedImages (value (comp w)) (map url (images (comp w))) = Some cleaned
    ∧ localStorage (env w')
      = <[localStorageKey (user w) (questionId w)
          := Note cleaned (images (comp w)) (now (env w))]> (localStorage (env w))
    ∧ value (comp w') = cleaned ∧ images (comp w') = images (comp w)
    ∧ lastSavedValueRef (comp w') = cleaned
    ∧ lastSavedImagesRef (comp w') = images (comp w)
    ∧ saveState (comp w') = saved
    ∧ filter (λ x, isAutosave x) (timers (env w')) = []
    ∧ filter (λ x, isServerSync x) (timers (env w'))
      = [mkTimer (nextHandle (env w)) (now (env w) + 2000)
                 (ServerSync (currentRender w) cleaned (map url (images (comp w))))].
Proof.
  intros Hr Hin Hcb Hdue w'.
  destruct (reachable_sound w Hr) as (Ht & _ & _ & Hu).
  destruct (Hu t r Hin Hcb) as (-> & _ & Hs).
  destruct (signedIn (user w)) as [uid|] eqn:Eu; [|done].
  destruct (fire_autosave w t (currentRender w) uid Ht Hin Hcb Hdue Eu eq_refl)
    as (cleaned & Hc & _ & Hna & Hsy & _).
  fold w' in Hna, Hsy. exists cleaned. split; [exact Hc|].
  assert (w' = commit w (save true (currentRender w) true
                           (setTimers (filter (λ t', handle t' ≠ handle t)
                                              (timers (env w)))
                                      (nextHandle (env w)) w))) as Ew.
  { unfold w', step, resumed. simpl handler.
    rewrite fire_found by (done || by apply N.leb_le). by rewrite Hcb. }
  assert (∃ w0, w' = commit w (save true (currentRender w) true w0)
                ∧ localStorage (env w0) = localStorage (env w)
                ∧ now (env w0) = now (env w) ∧ images (comp w0) = images (comp w))
    as (w0 & Ew0 & El & En & Ei) by (eexists; split; [exact Ew|done]).
  clear Ew. rename Ew0 into Ew.
  destruct (save_stored true (currentRender w) w0 uid Eu) as (c & Hc' & Hst).
  rewrite Hc in Hc'. injection Hc' as <-. cbv zeta in Hst.
  destruct Hst as (_ & Hls & Hv & Hi & _ & _ & Hss & _ & Hlv & Hli & _).
  pose proof (commit_frame w (save true (currentRender w) true w0)) as Hcf.
  cbv zeta in Hcf. rewrite <- Ew in Hcf.
  destruct Hcf as (Hv' & Hi' & _ & Hss' & _ & Hlv' & Hli' & Hls' & _).
  split_and!; [|by rewrite Hv', Hv|by rewrite Hi', Hi|by rewrite Hlv', Hlv
              |by rewrite Hli', Hli|by rewrite Hss', Hss|exact Hna|exact Hsy].
  rewrite Hls', Hls. simpl. by rewrite El, En.
Qed.

Lemma autosave_fire_saves_screen_witness :
  ∃ cleaned,
    cleanOrphanedImages "a " [] = Some cleaned
    ∧ value (comp (step (Fire 1 true) (run [Change "a "; Elapse 500] sampleLoaded)))
      = cleaned.
Proof.
  destruct (autosave_fire_saves_screen (run [Change "a "; Elapse 500] sampleLoaded)
              (mkTimer 1 1500 (Autosave {| r_user := sampleUser; r_questionId := "q1";
                                           r_value := "a "; r_images := [] |}))
              {| r_user := sampleUser; r_questionId := "q1"; r_value := "a ";
                 r_images := [] |}) as (cleaned & Hc & _ & Hv & _).
  - apply reachable_run. unfold sampleLoaded. apply reachable_run, reachable_mount.
  - vm_compute. left.
  - reflexivity.
  - vm_compute. discriminate.
  - exists cleaned. split; [exact Hc|exact Hv].
Defined.

(** ** Remote syncs stay in the background *)

Lemma quiet_notify silent t w :
  t ≠ Synchronise → t ≠ ErreurDeSynchronisation → quiet w → quiet (notify silent t w).
Proof.
  intros H1 H2 [Hp Ht]. unfold notify. destruct silent; [done|]. split; [done|].
  simpl. intros t' [Hin|Hin%list_elem_of_singleton]%elem_of_app; [by apply Ht|by subst].
Qed.

Lemma quiet_syncToServer r c urls w : quiet w → quiet (syncToServer r c urls true w).
Proof.
  intros [Hp Ht]. unfold syncToServer. destruct (signedIn _); [|done]. split; [|done].
  simpl. intros p [Hin|Hin%list_elem_of_singleton]%elem_of_app; [by apply Hp|by subst].
Qed.

Lemma quiet_frame w w' :
  posts (env w') = posts (env w) → toasts (env w') = toasts (env w) → quiet w → quiet w'.
Proof. unfold quiet. by intros -> ->. Qed.

Lemma quiet_save silent r ok w : quiet w → quiet (save silent r ok w).
Proof.
  intros H. unfold save. destruct (signedIn _); [|by apply quiet_notify].
  assert (∀ v, quiet v → quiet (saveFailed silent v)) as Hfail.
  { intros v Hv. unfold saveFailed. apply quiet_notify; [done..|].
    by apply (quiet_frame v). }
  destruct (cleanOrphanedImages _ _); [|apply Hfail; by apply (quiet_frame w)].
  unfold saveToLocalStorage. destruct ok; [|apply Hfail; by apply (quiet_frame w)].
  destruct H as [Hp Ht]. unfold notify. destruct silent; (split; [done|]); simpl; [done|].
  intros t [Hin|Hin%list_elem_of_singleton]%elem_of_app; [by apply Ht|by subst].
Qed.

Lemma quiet_handler ev w : quiet w → quiet (handler ev w).
Proof.
  intros H. destruct ev; simpl.
  - case_bool_decide; [done|]. apply (quiet_frame w); [| |done];
      unfold hydrate, loadEffect, syncWithServer, loadFromLocalStorage; simpl;
      repeat (case_match; simpl); done.
  - done.
  - apply (quiet_frame w); [| |done]; unfold responseSettled, takeFetch, finallyLoaded;
      repeat (case_match; simpl; simplify_eq/=); done.
  - apply (quiet_frame w); [| |done];
      unfold jsonSettled, takeFetch, finallyLoaded, applyServerData;
      repeat (case_match; simpl; simplify_eq/=); done.
  - done.
  - done.
  - done.
  - unfold fire. destruct (List.find _ _) as [t|]; [|done].
    destruct (_ <=? _)%N; [|done].
    assert (quiet (setTimers (filter (λ t', handle t' ≠ h) (timers (env w)))
                             (nextHandle (env w)) w)) as H' by done.
    destruct (callback t); [by apply quiet_save|by apply quiet_syncToServer|done].
  - unfold postSettled. destruct (posts (env w) !! k) as [p|] eqn:E; [|done].
    apply list_elem_of_lookup_2 in E. rewrite (proj1 H p E). done.
  - done.
  - done.
  - destruct (initialLoaded _); [|done]. unfold handleSaveEdit. by apply quiet_save.
  - destruct (_ && _); [|done]. unfold clearNote.
    match goal with
    | |- quiet (toast Efface (setLastSavedAt _ (setLastSavedImagesRef _
                   (setLastSavedValueRef _ ?v)))) =>
        assert (quiet v) as Hq
    end.
    { destruct (signedIn _); [apply quiet_syncToServer|]; destruct storageOk; done. }
    destruct Hq as [Hp Ht]. split; [done|]. simpl.
    intros t [Hin|Hin%list_elem_of_singleton]%elem_of_app; [by apply Ht|by subst].
Qed.

Lemma quiet_autosaveEffect v : quiet v → quiet (autosaveEffect v).
Proof.
  intros Hv. pose proof (autosaveEffect_frame v) as Hfr. simpl in Hfr.
  apply (quiet_frame v); [naive_solver..|done].
Qed.

Lemma quiet_commit before after : quiet after → quiet (commit before after).
Proof.
  intros H.
  assert (quiet (afterAutoEdit before after)) as H'.
  { destruct (afterAutoEdit_frame before after) as (_ & _ & _ & He & _).
    apply (quiet_frame after); [by rewrite He..|done]. }
  unfold commit. case_decide; [done|]. by apply quiet_autosaveEffect.
Qed.

Lemma quiet_step ev w : quiet w → quiet (step ev w).
Proof.
  intros H%(quiet_handler ev)%(quiet_commit w). unfold step.
  by destruct (resumed_cases ev w (commit w (handler ev w))) as [-> | ->].
Qed.

Lemma quiet_mount u q a storage t0 : quiet (mount u q a storage t0).
Proof.
  unfold mount. rewrite autoEditEffect_unloaded by done.
  assert (quiet (loadEffect (unmounted u q a storage t0))) as H.
  { apply (quiet_frame (unmounted u q a storage t0)).
    - unfold loadEffect, syncWithServer, loadFromLocalStorage; simpl;
        repeat (case_match; simpl); done.
    - unfold loadEffect, syncWithServer, loadFromLocalStorage; simpl;
        repeat (case_match; simpl); done.
    - split; simpl; by intros ? ?%elem_of_nil. }
  by apply quiet_commit, quiet_autosaveEffect.
Qed.

Lemma quiet_run evs w : quiet w → quiet (run evs w).
Proof.
  revert w. induction evs as [|ev evs IH]; intros w Hw; [done|].
  simpl. apply IH. by apply quiet_step.
Qed.

(** Every request the component sends to the remote store is sent silently,
    so the toasts that report a synchronisation or its failure never show,
    whatever the remote store answers. *)
Theorem remote_sync_never_toasts (u : option str) (q : str) (a : bool)
    (storage : gmap str Stored) (t0 : N) (evs : list Event) :
  let w := run evs (mount u q a storage t0) in
  (∀ p, p ∈ posts (env w) → p_silent p = true)
  ∧ (Synchronise ∉ toasts (env w)) ∧ (ErreurDeSynchronisation ∉ toasts (env w)).
Proof.
  destruct (quiet_run evs _ (quiet_mount u q a storage t0)) as [Hp Ht].
  split_and!; [done| |]; intros Hin; by destruct (Ht _ Hin).
Qed.

(** ** A session without a signed-in user *)

Lemma dormant_effect w :
  dormant w →
  (dormant (autosaveEffect w)
   ∧ localStorage (env (autosaveEffect w)) = localStorage (env w)
   ∧ user (autosaveEffect w) = user w).
Proof.
  intros (Hl & Hf & Ht & Hp & Hs & Hto & Hd & Hsd).
  unfold autosaveEffect, autosaveCleanupRun, autosaveBody, dormant.
  destruct (autosaveCleanup w); simpl; rewrite ?Hl, ?Hd; simpl; done.
Qed.

Lemma dormant_commit before after :
  dormant after →
  dormant (commit before after)
  ∧ localStorage (env (commit before after)) = localStorage (env after)
  ∧ user (commit before after) = user after.
Proof.
  intros Hd. unfold commit. rewrite afterAutoEdit_unloaded by apply Hd.
  case_decide; [done|]. by apply dormant_effect.
Qed.

Lemma dormant_handler ev w :
  guestEvent ev = true → signedIn (user w) = None → dormant w →
  dormant (handler ev w) ∧ localStorage (env (handler ev w)) = localStorage (env w)
  ∧ signedIn (user (handler ev w)) = None.
Proof.
  intros Hg Hu (Hl & Hf & Ht & Hp & Hs & Hto & Hd & Hsd). unfold dormant.
  destruct ev; simpl in *.
  - apply bool_decide_eq_true in Hg. case_bool_decide; [done|].
    unfold hydrate, loadEffect, syncWithServer, loadFromLocalStorage, loadCleanup,
      withProps, clearTimeout.
    destruct u as [[|c s]|]; try discriminate; simpl; rewrite Hd, Hsd, Ht; simpl;
      repeat (case_match; simpl); done.
  - done.
  - unfold responseSettled, takeFetch. by rewrite Hf.
  - unfold jsonSettled, takeFetch. by rewrite Hf.
  - done.
  - done.
  - done.
  - unfold fire. by rewrite Ht.
  - unfold postSettled. by rewrite Hp.
  - done.
  - done.
  - by rewrite Hl.
  - by rewrite Hl.
Qed.

Lemma dormant_run evs w :
  forallb guestEvent evs = true → signedIn (user w) = None → dormant w →
  dormant (run evs w) ∧ localStorage (env (run evs w)) = localStorage (env w)
  ∧ signedIn (user (run evs w)) = None.
Proof.
  revert w. induction evs as [|ev evs IH]; intros w Hg Hu Hd; [done|].
  simpl in Hg. apply andb_true_iff in Hg as [Hev Hg].
  destruct (dormant_handler ev w Hev Hu Hd) as (Hd1 & Hl1 & Hu1).
  assert (dormant (step ev w) ∧ localStorage (env (step ev w)) = localStorage (env w)
          ∧ signedIn (user (step ev w)) = None) as (Hd2 & Hl2 & Hu2).
  { unfold step. destruct (dormant_commit w _ Hd1) as (Hd2 & Hl2 & Hu2).
    destruct (resumed_cases ev w (commit w (handler ev w))) as [-> | ->];
      [by rewrite Hl2, Hu2|].
    split_and!; [exact Hd2|by rewrite <- Hl1, <- Hl2|by rewrite <- Hu2 in Hu1]. }
  simpl. destruct (IH (step ev w) Hg Hu2 Hd2) as (? & -> & ?). done.
Qed.

(** When nobody is signed in at mount and nobody signs in later, the note
    never finishes loading: no fetch is started, no timer is scheduled, the
    save and clear buttons stay disabled, and whatever is typed is neither
    written to the local cache nor sent to the remote store. *)
Theorem guest_notes_are_never_saved (u : option str) (q : str) (a : bool)
    (storage : gmap str Stored) (t0 : N) (evs : list Event) :
  signedIn u = None → forallb guestEvent evs = true →
  let w := run evs (mount u q a storage t0) in
  initialLoaded (comp w) = false
  ∧ fetches (env w) = [] ∧ timers (env w) = [] ∧ posts (env w) = []
  ∧ setItems (env w) = [] ∧ localStorage (env w) = storage ∧ toasts (env w) = [].
Proof.
  intros Hu Hg w.
  assert (dormant (mount u q a storage t0)
          ∧ localStorage (env (mount u q a storage t0)) = storage
          ∧ signedIn (user (mount u q a storage t0)) = None) as (Hd & Hl & Hu').
  { unfold mount. rewrite autoEditEffect_unloaded by done.
    assert (dormant (loadEffect (unmounted u q a storage t0))
            ∧ localStorage (env (loadEffect (unmounted u q a storage t0))) = storage
            ∧ user (loadEffect (unmounted u q a storage t0)) = u) as (Hd & Hl & Hu').
    { unfold dormant, loadEffect, syncWithServer, loadFromLocalStorage.
      destruct u as [[|c s]|]; try discriminate; simpl;
        repeat (case_match; simpl); done. }
    destruct (dormant_effect _ Hd) as (Hd1 & Hl1 & Hu1).
    destruct (dormant_commit (unmounted u q a storage t0) _ Hd1) as (Hd2 & Hl2 & Hu2).
    by rewrite Hl2, Hu2, Hl1, Hu1, Hl, Hu'. }
  destruct (dormant_run evs _ Hg Hu' Hd) as ((? & ? & ? & ? & ? & ? & _) & Hl' & _).
  unfold w. rewrite Hl', Hl. done.
Qed.

Lemma guest_notes_are_never_saved_witness :
  setItems (env (run [Change "draft"; Elapse 5000; ClickSave true; Navigate None "q2"]
                     (mount None "q1" false ∅ 1000))) = []
  ∧ posts (env (run [Change "draft"; Elapse 5000; ClickSave true; Navigate None "q2"]
                    (mount None "q1" false ∅ 1000))) = [].
Proof.
  pose proof (guest_notes_are_never_saved None "q1" false ∅ 1000%N
                [Change "draft"; Elapse 5000; ClickSave true; Navigate None "q2"]) as H.
  cbv zeta in H. destruct H as (_ & _ & _ & Hp & Hs & _).
  - reflexivity.
  - reflexivity.
  - split; [exact Hs|exact Hp].
Defined.

(** ** The cache key *)

(** Notes of one user under different questions never share a cache entry,
    and neither do notes of users whose ids hold no underscore. A user id
    with an underscore can collide with another user's key, and a user whose
    id is [guest] shares the entries of the signed-out visitor. *)
Theorem localStorageKey_separates :
  (∀ u q1 q2, localStorageKey u q1 = localStorageKey u q2 → q1 = q2)
  ∧ (∀ u1 u2 q1 q2,
       ("_"%char ∉ default ("guest" : str) (signedIn u1)) →
       ("_"%char ∉ default ("guest" : str) (signedIn u2)) →
       localStorageKey u1 q1 = localStorageKey u2 q2 →
       default ("guest" : str) (signedIn u1) = default ("guest" : str) (signedIn u2)
       ∧ q1 = q2)
  ∧ localStorageKey (Some ("a_b" : str)) "c" = localStorageKey (Some ("a" : str)) "b_c"
  ∧ (∀ q, localStorageKey (Some ("guest" : str)) q = localStorageKey None q).
Proof.
  split_and!.
  - intros u q1 q2 H. unfold localStorageKey in H.
    apply app_inv_head in H. apply app_inv_head in H. by apply app_inv_head in H.
  - intros u1 u2 q1 q2 H1 H2 H. unfold localStorageKey in H.
    apply app_inv_head in H.
    pose proof (breakAt_app "_"%char _ q1 H1) as E1.
    pose proof (breakAt_app "_"%char _ q2 H2) as E2.
    change (list_ascii_of_string "_" ++ q1) with ("_"%char :: q1) in H.
    change (list_ascii_of_string "_" ++ q2) with ("_"%char :: q2) in H.
    rewrite H in E1. rewrite E1 in E2. injection E2 as E3 E4. split; [exact E3|exact E4].
  - reflexivity.
  - reflexivity.
Qed.

Lemma localStorageKey_separates_witness :
  default ("guest" : str) (signedIn (Some ("u1" : str)))
  = default ("guest" : str) (signedIn (Some ("u1" : str)))
  ∧ ("q1" : str) = "q1".
Proof.
  apply (proj1 (proj2 localStorageKey_separates) (Some ("u1" : str)) (Some ("u1" : str))).
  - vm_compute. intros H. repeat (inversion H as [|? ? ? H']; clear H; rename H' into H).
  - vm_compute. intros H. repeat (inversion H as [|? ? ? H']; clear H; rename H' into H).
  - reflexivity.
Defined.

(** ** Switching to another note *)

(** What the load effect shows from the cache. *)
Lemma loadEffect_comp w :
  let w' := loadEffect w in
  let shown :=
    match localStorage (env w) !! localStorageKey (user w) (questionId w) with
    | Some (Note v imgs t) =>
        if bool_decide (v ≠ [] ∨ imgs ≠ []) then Some (v, imgs, t) else None
    | _ => None
    end in
  value (comp w') = match shown with Some (v, _, _) => v | None => [] end
  ∧ images (comp w') = match shown with Some (_, imgs, _) => imgs | None => [] end
  ∧ lastSavedAt (comp w')
    = match shown with Some (_, _, t) => Some t | None => lastSavedAt (comp w) end
  ∧ lastSavedValueRef (comp w') = value (comp w')
  ∧ lastSavedImagesRef (comp w') = images (comp w')
  ∧ initialLoaded (comp w') = false ∧ isEditing (comp w') = false
  ∧ imagesId (comp w') ≠ imagesId (comp w)
  ∧ user w' = user w ∧ questionId w' = questionId w
  ∧ localStorage (env w') = localStorage (env w)
  ∧ setItems (env w') = setItems (env w) ∧ posts (env w') = posts (env w).
Proof.
  unfold loadEffect, syncWithServer, loadFromLocalStorage. simpl.
  repeat (case_match; simpl; simplify_eq/=); split_and!; (done || lia).
Qed.

(** When the user or the question changes, the screen shows the note cached
    for the new pair, or nothing when the cache holds none, never the body or
    the images of the note left; the snapshot is what is shown, the note
    counts as not loaded, and nothing is written or sent. The time of the
    last save is the cached one, and stays that of the note left when the
    cache holds nothing for the new pair. *)
Theorem navigation_shows_cached_note (w : World) (u : option str) (q : str) :
  ¬ (u = user w ∧ q = questionId w) →
  let w' := step (Navigate u q) w in
  let shown :=
    match localStorage (env w) !! localStorageKey u q with
    | Some (Note v imgs t) =>
        if bool_decide (v ≠ [] ∨ imgs ≠ []) then Some (v, imgs, t) else None
    | _ => None
    end in
  user w' = u ∧ questionId w' = q
  ∧ value (comp w') = match shown with Some (v, _, _) => v | None => [] end
  ∧ images (comp w') = match shown with Some (_, imgs, _) => imgs | None => [] end
  ∧ lastSavedAt (comp w')
    = match shown with Some (_, _, t) => Some t | None => lastSavedAt (comp w) end
  ∧ lastSavedValueRef (comp w') = value (comp w')
  ∧ lastSavedImagesRef (comp w') = images (comp w')
  ∧ initialLoaded (comp w') = false
  ∧ localStorage (env w') = localStorage (env w)
  ∧ setItems (env w') = setItems (env w) ∧ posts (env w') = posts (env w).
Proof.
  intros Hne w'. unfold w', step, resumed. simpl handler.
  rewrite bool_decide_eq_false_2 by done.
  unfold hydrate.
  pose proof (loadEffect_comp (withProps u q (loadCleanup w))) as H. cbv zeta in H.
  change (localStorage (env (withProps u q (loadCleanup w))))
    with (localStorage (env w)) in H.
  change (user (withProps u q (loadCleanup w))) with u in H.
  change (questionId (withProps u q (loadCleanup w))) with q in H.
  change (lastSavedAt (comp (withProps u q (loadCleanup w))))
    with (lastSavedAt (comp w)) in H.
  change (setItems (env (withProps u q (loadCleanup w)))) with (setItems (env w)) in H.
  change (posts (env (withProps u q (loadCleanup w)))) with (posts (env w)) in H.
  revert H. generalize (loadEffect (withProps u q (loadCleanup w))). intros v H.
  destruct H as (Hv & Hi & Hat & Hlv & Hli & Hl & _ & _ & Hu & Hq & Hls & Hsi & Hp).
  assert (commit w v = v ∨ commit w v = autosaveEffect v) as [-> | ->]
    by (unfold commit; rewrite afterAutoEdit_unloaded by done; case_decide; auto).
  - by split_and!.
  - pose proof (autosaveEffect_frame v) as Hfr. simpl in Hfr.
    destruct Hfr as (_ & _ & -> & -> & -> & -> & -> & _ & -> & -> & -> & _ & _ & -> & ->
                     & _ & -> & _).
    by split_and!.
Qed.

Lemma navigation_shows_cached_note_witness :
  value (comp (step (Navigate sampleUser "q1")
                    (run [Change "draft"] (mount sampleUser "q2" false helloCache 1000))))
  = ("hello" : str).
Proof.
  pose proof (navigation_shows_cached_note
                (run [Change "draft"] (mount sampleUser "q2" false helloCache 1000))
                sampleUser "q1") as H.
  cbv zeta in H. destruct H as (_ & _ & Hv & _).
  - intros [_ H]. vm_compute in H. discriminate.
  - rewrite Hv. vm_compute. reflexivity.
Defined.

(** * Further properties of the placeholder codec *)

(** ** Stripping only takes code units out *)

Lemma eraseAll_sublist {A} (re : Js.Matcher A) (s : str) :
  shrinks re → (∀ s a rest, re s = Some (a, rest) → ∃ pre, s = pre ++ rest) →
  Js.eraseAll re s `sublist_of` s.
Proof.
  intros Hre Hpre. unfold Js.eraseAll.
  induction s as [|s a rest E IH|c r E IH] using (scan_rect re Hre).
  - by rewrite scan_nil.
  - rewrite (scan_match re Hre s a rest E). simpl.
    destruct (Hpre s a rest E) as [pre ->]. by apply sublist_inserts_l.
  - rewrite (scan_skip re Hre c r E). simpl. by apply sublist_skip.
Qed.

Lemma removeIds_sublist ids s : removeIds ids s `sublist_of` s.
Proof.
  revert s. induction ids as [|i ids IH]; intros s; [done|]. simpl.
  etrans; [apply IH|]. apply eraseAll_sublist.
  - apply literally_shrinks, reference_nonempty.
  - intros s' [] rest. unfold Js.literally.
    destruct (Js.stripPrefix _ _) as [r|] eqn:E; [|done]. intros [= <-].
    apply stripPrefix_Some in E. by exists (reference i).
Qed.

Lemma trim_sublist s : Js.trim s `sublist_of` s.
Proof.
  unfold Js.trim.
  destruct (trimStart_suffix s) as (w1 & E1 & _).
  destruct (trimEnd_prefix (Js.trimStart s)) as (w2 & E2 & _).
  rewrite E1 at 2. rewrite E2 at 2.
  apply sublist_inserts_l, sublist_inserts_r. done.
Qed.

(** Orphan stripping only takes code units out of the body: what it
    returns is the body with some code units deleted, so it is never longer
    and never holds a code unit the body did not hold. With at least as many
    URLs as the body has placeholders, and at least one, it only trims. *)
Theorem cleanOrphanedImages_only_deletes (content : str) (urls : list str) :
  ∃ cleaned,
    cleanOrphanedImages content urls = Some cleaned
    ∧ cleaned `sublist_of` content
    ∧ length cleaned ≤ length content
    ∧ (urls ≠ [] → length (extractImageIds content) ≤ length urls →
       cleaned = Js.trim content).
Proof.
  rewrite cleanOrphanedImages_eq. eexists. split; [done|].
  assert (match urls with
          | [] => Js.eraseAll imageRegex content
          | _ :: _ =>
              Js.trim (removeIds (drop (length urls) (extractImageIds content)) content)
          end `sublist_of` content) as Hsub.
  { destruct urls as [|u urls].
    - apply eraseAll_sublist; [apply imageRegex_shrinks|].
      intros s i rest [-> _]%imageRegex_inv. by exists (reference i).
    - etrans; [apply trim_sublist|apply removeIds_sublist]. }
  split_and!; [done|by apply sublist_length|].
  intros Hne Hlen. destruct urls as [|u urls]; [done|].
  by rewrite drop_ge by done.
Qed.

Lemma cleanOrphanedImages_only_deletes_witness :
  ∃ cleaned,
    cleanOrphanedImages " [IMAGE:a] and [IMAGE:b] " [("u1" : str); ("u2" : str)]
    = Some cleaned
    ∧ cleaned = Js.trim " [IMAGE:a] and [IMAGE:b] ".
Proof.
  destruct (cleanOrphanedImages_only_deletes " [IMAGE:a] and [IMAGE:b] "
              [("u1" : str); ("u2" : str)]) as (cleaned & Hc & _ & _ & Ht).
  exists cleaned. split; [exact Hc|]. apply Ht; [discriminate|].
  vm_compute. repeat constructor.
Defined.

(** ** Placeholders left after stripping *)

Lemma filter_drop_NoDup {A} `{EqDecision A} n (l : list A) :
  NoDup l → filter (λ j, j ∉ drop n l) l = take n l.
Proof.
  intros Hnd.
  trans (filter (λ j, j ∉ drop n l) (take n l ++ drop n l)); [by rewrite take_drop|].
  rewrite filter_app.
  rewrite <- (take_drop n l) in Hnd. apply NoDup_app in Hnd as (_ & Hdis & _).
  rewrite (filter_all _ (take n l)) by (intros x Hx; by apply Hdis).
  rewrite (filter_none _ (drop n l)) by (intros x Hx Hno; by apply Hno).
  apply app_nil_r.
Qed.

Lemma id_imap (g : nat → str) (ids : list str) :
  id <$> imap (λ k i, {| id := i; url := g k; description := [] |}) ids = ids.
Proof.
  revert g. induction ids as [|i ids IH]; intros g; [done|].
  simpl. f_equal. apply (IH (g ∘ S)).
Qed.

(** On a body whose every opening bracket starts a placeholder, the
    placeholders left after stripping are at most as many as the URLs; when
    the ids are pairwise distinct they are the first ones, in order. Each
    one then finds a URL at its position: with URLs that are all non-empty,
    the registry rebuilt on hydration has a record for every placeholder of
    the body shown, in the order of the body. *)
Theorem stripped_placeholders_have_urls (content : str) (urls : list str) (cleaned : str) :
  tidy content = true → cleanOrphanedImages content urls = Some cleaned →
  length (extractImageIds cleaned) ≤ length urls
  ∧ (NoDup (extractImageIds content) →
     extractImageIds cleaned = take (length urls) (extractImageIds content))
  ∧ (Forall (λ u, u ≠ []) urls →
     id <$> rebuildImages (extractImageIds cleaned) urls = extractImageIds cleaned).
Proof.
  intros Ht Hc. rewrite (cleaned_ids content urls cleaned Ht Hc). clear Hc.
  assert (length (filter (λ j, j ∉ drop (length urls) (extractImageIds content))
                         (extractImageIds content)) ≤ length urls) as Hlen
    by apply filter_drop_length.
  split_and!; [done|by apply filter_drop_NoDup|].
  intros Hu. revert Hlen.
  generalize (filter (λ j, j ∉ drop (length urls) (extractImageIds content))
                     (extractImageIds content)).
  intros ids Hlen. unfold rebuildImages.
  rewrite filter_all.
  - apply id_imap.
  - intros img Hin. apply elem_of_lookup_imap in Hin as (k & i & -> & Hk). simpl.
    apply lookup_lt_Some in Hk.
    destruct (urls !! k) as [u|] eqn:Eu.
    + simpl. by apply (Forall_lookup_1 _ _ _ _ Hu Eu).
    + apply lookup_ge_None in Eu. lia.
Qed.

Lemma stripped_placeholders_have_urls_witness :
  extractImageIds "[IMAGE:a] and [IMAGE:b]" = [("a" : str); ("b" : str)]
  ∧ length (extractImageIds "[IMAGE:a] and") ≤ 1.
Proof.
  split; [by vm_compute|].
  refine (proj1 (stripped_placeholders_have_urls "[IMAGE:a] and [IMAGE:b]"
                   [("http://x/1.png" : str)] "[IMAGE:a] and" _ _)).
  - vm_compute. reflexivity.
  - vm_compute. reflexivity.
Defined.

(** * Editing operations of the rich text input *)

(** ** Generated ids *)

Lemma string_of_uint_plain (u : Decimal.uint) :
  plainId (list_ascii_of_string (NilEmpty.string_of_uint u)).
Proof.
  induction u; simpl; [constructor|..]; (constructor; [by vm_compute|done]).
Qed.

Lemma NilZero_string_of_uint_plain (u : Decimal.uint) :
  plainId (list_ascii_of_string (NilZero.string_of_uint u)).
Proof.
  destruct u; try apply (string_of_uint_plain (_ _)).
  constructor; [by vm_compute|constructor].
Qed.

Lemma plainId_brackets i : plainId i → ("]"%char ∉ i) ∧ ("["%char ∉ i).
Proof.
  unfold plainId. rewrite Forall_forall. intros H.
  split; intros Hin; specialize (H _ Hin); by vm_compute in H.
Qed.

Lemma plainId_escape i : plainId i → escapeRegExp i = i.
Proof.
  induction 1 as [|c i Hc _ IH]; [done|]. unfold escapeRegExp in *. simpl.
  by rewrite Hc, IH.
Qed.

Lemma generateImageId_plain e :
  plainId (sample e (calls e)).2 →
  plainId (generateImageId e).1 ∧ (generateImageId e).1 ≠ [].
Proof.
  unfold generateImageId. destruct (sample e (calls e)) as [millis suffix]. simpl.
  intros Hs. split; [|done]. unfold plainId.
  repeat (apply Forall_cons; split; [by vm_compute|]).
  apply Forall_app. split; [apply NilZero_string_of_uint_plain|].
  apply Forall_cons. split; [by vm_compute|done].
Qed.

(** ** Inserting an image *)

Lemma pieces_app_good ps s :
  Forall goodPiece ps → pieces (textOf ps ++ s) = ps ++ pieces s.
Proof.
  induction 1 as [|[c|j] ps Hp _ IH]; [done| |].
  - rewrite textOf_skip. simpl. rewrite pieces_skip by by apply imageRegex_head.
    by rewrite IH.
  - destruct Hp as (Hj & Hjc & _). rewrite textOf_match, <- app_assoc.
    rewrite (pieces_match _ j (textOf ps ++ s)) by by apply imageRegex_reference.
    by rewrite IH.
Qed.

(** A cursor that is not inside a placeholder splits the pieces of a body. *)
Lemma pieces_at_cursor value c :
  tidy (take c value) = true →
  pieces value = pieces (take c value) ++ pieces (drop c value).
Proof.
  intros Ht%tidy_good. rewrite <- (take_drop c value) at 1.
  rewrite <- (textOf_pieces (take c value)) at 1. by apply pieces_app_good.
Qed.

Lemma idsOf_app (ps qs : list (Js.piece str)) : idsOf (ps ++ qs) = idsOf ps ++ idsOf qs.
Proof.
  induction ps as [|[c|j] ps IH]; simpl; [done|done|by rewrite IH].
Qed.

Lemma textOf_app ps qs : textOf (ps ++ qs) = textOf ps ++ textOf qs.
Proof. unfold textOf. by rewrite flat_map_app. Qed.

(** The body [insertImageAtCursor] returns, read as pieces. *)
Lemma insert_pieces value c i :
  tidy (take c value) = true → i ≠ [] → "]"%char ∉ i →
  pieces (take c value ++ reference i ++ drop c value)
  = pieces (take c value) ++ Js.Matched i :: pieces (drop c value).
Proof.
  intros Ht%tidy_good Hi Hc.
  rewrite <- (textOf_pieces (take c value)) at 1.
  rewrite pieces_app_good by done. f_equal.
  apply pieces_match. by apply imageRegex_reference.
Qed.

Lemma insertImageAtCursor_eq value images c imageUrl description e :
  insertImageAtCursor value images (Some c) imageUrl description e
  = (take c value ++ reference (generateImageId e).1 ++ drop c value,
     images ++ [{| id := (generateImageId e).1; url := imageUrl;
                   description := if decide (description = []) then "Image"
                                  else description |}],
     (generateImageId e).2).
Proof.
  unfold insertImageAtCursor. destruct (generateImageId e) as [j e'].
  by destruct description.
Qed.

(** Inserting an image with the cursor outside every placeholder adds one
    placeholder at the cursor, between the placeholders before and after it,
    and appends to the registry the record that binds its id to the URL; an
    empty description becomes [Image]. Without a textarea nothing changes. *)
Theorem insertImageAtCursor_binds_placeholder (value : str) (images : list ImageData)
    (cursorPos : nat) (imageUrl description : str) (e : Entropy) :
  plainId (sample e (calls e)).2 → tidy (take cursorPos value) = true →
  let i := (generateImageId e).1 in
  let result := insertImageAtCursor value images (Some cursorPos) imageUrl description e in
  result.1.1 = take cursorPos value ++ reference i ++ drop cursorPos value
  ∧ extractImageIds result.1.1
    = extractImageIds (take cursorPos value) ++ i :: extractImageIds (drop cursorPos value)
  ∧ result.1.2
    = images ++ [{| id := i; url := imageUrl;
                    description := if decide (description = []) then "Image"
                                   else description |}]
  ∧ (i ∉ id <$> images →
     ∃ img, editImage result.1.2 i = Some img ∧ url img = imageUrl)
  ∧ insertImageAtCursor value images None imageUrl description e = (value, images, e).
Proof.
  intros Hp Ht i result.
  destruct (generateImageId_plain e Hp) as [Hpl Hne].
  destruct (plainId_brackets _ Hpl) as [Hc _].
  unfold result. rewrite insertImageAtCursor_eq. fold i. cbn [fst snd].
  split_and!; [done| |done| |done].
  - rewrite !extractImageIds_idsOf. rewrite insert_pieces by done.
    rewrite idsOf_app. reflexivity.
  - intros Hfresh.
    exists {| id := i; url := imageUrl;
              description := if decide (description = []) then "Image" else description |}.
    split; [|done]. unfold editImage. induction images as [|a images IH]; simpl.
    + by rewrite bool_decide_eq_true_2.
    + rewrite fmap_cons, not_elem_of_cons in Hfresh. destruct Hfresh as [Ha Hf].
      rewrite bool_decide_eq_false_2 by done. by apply IH.
Qed.

Lemma insertImageAtCursor_binds_placeholder_witness :
  extractImageIds
    (insertImageAtCursor "see [IMAGE:a] here" [] (Some 4) "http://x/2.png" []
                         sampleEntropy).1.1
  = extractImageIds (take 4 ("see [IMAGE:a] here" : str))
      ++ (generateImageId sampleEntropy).1
      :: extractImageIds (drop 4 ("see [IMAGE:a] here" : str)).
Proof.
  refine (proj1 (proj2 (insertImageAtCursor_binds_placeholder
                          "see [IMAGE:a] here" [] 4 "http://x/2.png" [] sampleEntropy
                          _ _))).
  - vm_compute. repeat constructor.
  - vm_compute. reflexivity.
Defined.

(** ** Removing an image *)

Lemma RegExp_plainId i :
  plainId i → Js.RegExp ("\[IMAGE:" ++ i ++ "\]") = Some (reference i).
Proof.
  intros H. rewrite <- (plainId_escape i H) at 1. apply RegExp_referenceSource.
Qed.

(** For an id without pattern syntax characters, removing an image takes the
    records of that id out of the registry and, on a body whose every opening
    bracket starts a placeholder, takes out exactly the placeholders of that
    id: the rest of the body and the other placeholders stay as they are. *)
Theorem removeImage_removes_id (value : str) (images : list ImageData) (imageId : str) :
  plainId imageId → tidy value = true →
  ∃ newValue newImages,
    removeImage value images imageId = Some (newValue, newImages)
    ∧ newImages = filter (λ img, id img ≠ imageId) images
    ∧ (imageId ∉ id <$> newImages)
    ∧ newValue = textOf (without [imageId] (pieces value))
    ∧ extractImageIds newValue = filter (λ j, j ≠ imageId) (extractImageIds value).
Proof.
  intros Hp Ht%tidy_good. destruct (plainId_brackets _ Hp) as [Hc _].
  unfold removeImage. rewrite RegExp_plainId by done. cbn [mbind option_bind].
  assert (Js.eraseAll (Js.literally (reference imageId)) value
          = textOf (without [imageId] (pieces value))) as ->.
  { rewrite <- (textOf_pieces value) at 1. by rewrite erase_textOf. }
  eexists _, _. split; [done|]. split; [done|].
  split_and!; [|done|].
  - intros (img & E & [Hne _]%list_elem_of_filter)%list_elem_of_fmap. by apply Hne.
  - rewrite extractImageIds_textOf by by apply without_good.
    rewrite idsOf_without, extractImageIds_idsOf.
    apply filter_ext_in. intros j _. rewrite list_elem_of_singleton. done.
Qed.

Lemma removeImage_removes_id_witness :
  ∃ newValue newImages,
    removeImage "[IMAGE:img1] and [IMAGE:img2]" ghostImages "img1"
    = Some (newValue, newImages)
    ∧ newImages = filter (λ img, id img ≠ ("img1" : str)) ghostImages.
Proof.
  destruct (removeImage_removes_id "[IMAGE:img1] and [IMAGE:img2]" ghostImages "img1")
    as (v & imgs & E & Hi & _).
  - vm_compute. repeat constructor.
  - vm_compute. reflexivity.
  - exists v, imgs. split; [exact E|exact Hi].
Defined.

(** Removing the image that has just been inserted gives back the body and
    the registry as they were, when the cursor was outside every placeholder
    of a body whose every opening bracket starts a placeholder and the
    generated id was not in use. *)
Theorem insert_then_remove (value : str) (images : list ImageData) (cursorPos : nat)
    (imageUrl description : str) (e : Entropy) :
  plainId (sample e (calls e)).2 →
  tidy value = true → tidy (take cursorPos value) = true →
  let i := (generateImageId e).1 in
  let inserted := insertImageAtCursor value images (Some cursorPos) imageUrl description e in
  i ∉ extractImageIds value → i ∉ id <$> images →
  removeImage inserted.1.1 inserted.1.2 i = Some (value, images).
Proof.
  intros Hp Hv Ht i inserted Hfv Hfi.
  destruct (generateImageId_plain e Hp) as [Hpl Hne].
  destruct (plainId_brackets _ Hpl) as [Hc Ho].
  unfold inserted. rewrite insertImageAtCursor_eq. fold i. cbn [fst snd].
  fold i in Hpl, Hne, Hc, Ho. clearbody i. clear inserted. rename i into j.
  unfold removeImage. rewrite RegExp_plainId by done. cbn [mbind option_bind].
  f_equal. f_equal.
  - pose proof (pieces_at_cursor value cursorPos Ht) as Hps.
    pose proof (tidy_good _ Hv) as Hg. rewrite Hps in Hg.
    apply Forall_app in Hg as [Hg1 Hg2].
    rewrite extractImageIds_idsOf, Hps, idsOf_app, not_elem_of_app in Hfv.
    destruct Hfv as [Hf1 Hf2].
    rewrite <- (textOf_pieces (_ ++ _ ++ _)). rewrite insert_pieces by done.
    rewrite erase_textOf; [|done|].
    2:{ apply Forall_app. split; [done|]. by constructor. }
    unfold without. rewrite filter_app, filter_cons_False.
    2:{ simpl. intros Hs%bool_decide_unpack. apply Hs. by apply list_elem_of_singleton. }
    assert (∀ ps, j ∉ idsOf ps → filter (λ p, survives [j] p) ps = ps) as Hkeep.
    { clear. intros ps. induction ps as [|[c|k] ps IH]; intros Hj; [done| |].
      - rewrite filter_cons_True by done. by rewrite IH.
      - simpl in Hj. rewrite not_elem_of_cons in Hj. destruct Hj as [Hk Hj].
        rewrite filter_cons_True.
        + by rewrite IH.
        + simpl. apply bool_decide_pack. rewrite list_elem_of_singleton. congruence. }
    rewrite !Hkeep by done. rewrite <- Hps. apply textOf_pieces.
  - rewrite filter_app. simpl. rewrite filter_cons_False by (simpl; naive_solver).
    rewrite filter_nil, app_nil_r. apply filter_all.
    intros img Hin Heq. apply Hfi. apply list_elem_of_fmap. by exists img.
Qed.

Lemma insert_then_remove_witness :
  removeImage
    (insertImageAtCursor "see [IMAGE:a] here" ghostImages (Some 4) "http://x/2.png" []
                         sampleEntropy).1.1
    (insertImageAtCursor "see [IMAGE:a] here" ghostImages (Some 4) "http://x/2.png" []
                         sampleEntropy).1.2
    (generateImageId sampleEntropy).1
  = Some (("see [IMAGE:a] here" : str), ghostImages).
Proof.
  refine (insert_then_remove "see [IMAGE:a] here" ghostImages 4 "http://x/2.png" []
                             sampleEntropy _ _ _ _ _).
  - vm_compute. repeat constructor.
  - vm_compute. reflexivity.
  - vm_compute. reflexivity.
  - vm_compute. intros H%list_elem_of_singleton. discriminate.
  - vm_compute. intros H%list_elem_of_singleton. discriminate.
Defined.

(** ** Editing an image *)

(** Saving the dialog opened on an image of the registry changes no id and
    no other record: the ids stay in their order, looking the image up again
    gives the URL and the description of the form, and the lookup of every
    other id gives what it gave before. *)
Theorem saveImageEdit_updates_record (images : list ImageData) (imageId : str)
    (editing : ImageData) (form_url form_description : str) :
  editImage images imageId = Some editing →
  let newImages := saveImageEdit images (Some editing) form_url form_description in
  map id newImages = map id images
  ∧ editImage newImages imageId
    = Some {| id := imageId; url := form_url; description := form_description |}
  ∧ (∀ j, j ≠ imageId → editImage newImages j = editImage images j)
  ∧ saveImageEdit images None form_url form_description = images.
Proof.
  intros He newImages.
  assert (id editing = imageId) as Hid.
  { unfold editImage in He. apply find_some in He as [_ ?%bool_decide_eq_true]. done. }
  unfold newImages, saveImageEdit, editImage in *. rewrite Hid. clear Hid newImages.
  split_and!; [| |intros j Hj|done].
  - clear He. induction images as [|a images IH]; [done|]. simpl. rewrite IH.
    by case_decide.
  - induction images as [|a images IH]; [done|]. simpl in *.
    case_bool_decide as Ea.
    + rewrite decide_True by done. simpl. rewrite bool_decide_eq_true_2 by done.
      by rewrite Ea.
    + rewrite decide_False by done. rewrite bool_decide_eq_false_2 by done. by apply IH.
  - clear He. induction images as [|a images IH]; [done|]. simpl.
    case_decide as Ea; simpl.
    + rewrite !bool_decide_eq_false_2 by congruence. done.
    + case_bool_decide; [done|]. done.
Qed.

Lemma saveImageEdit_updates_record_witness :
  editImage (saveImageEdit ghostImages (Some {| id := "img1"; url := "http://x/1.png";
                                               description := [] |})
                           "http://x/9.png" "figure") "img1"
  = Some {| id := "img1"; url := "http://x/9.png"; description := "figure" |}.
Proof.
  refine (proj1 (proj2 (saveImageEdit_updates_record ghostImages "img1"
                          {| id := "img1"; url := "http://x/1.png"; description := [] |}
                          "http://x/9.png" "figure" _))).
  vm_compute. reflexivity.
Defined.

(** * Further properties of the legacy migration *)

Lemma find_url_None (acc : list ImageData) (u : str) :
  List.find (λ img, bool_decide (url img = u)) acc = None → u ∉ url <$> acc.
Proof.
  intros H (img & -> & Hin)%list_elem_of_fmap.
  apply list_elem_of_In in Hin. pose proof (find_none _ _ H img Hin) as Hn.
  simpl in Hn. by rewrite bool_decide_eq_true_2 in Hn.
Qed.

(** What the replacer adds to the array it pushes to. *)
Lemma migratePieces_added ps acc e :
  ∃ added,
    (migratePieces ps acc e).1.2 = acc ++ added
    ∧ NoDup (url <$> added)
    ∧ (∀ img, img ∈ added →
              (url img ∉ url <$> acc) ∧ Js.trim (url img) = url img
              ∧ Js.trim (description img) = description img)
    ∧ calls (migratePieces ps acc e).2 = calls e + length added
    ∧ sample (migratePieces ps acc e).2 = sample e.
Proof.
  revert acc e. induction ps as [|[c|[urlRaw descRaw]] ps IH]; intros acc e.
  - exists []. simpl. rewrite app_nil_r. split_and!; [done|constructor| |lia|done].
    by intros ? ?%elem_of_nil.
  - destruct (IH acc e) as (added & E & Hnd & Hall & Hc & Hs). exists added.
    simpl. destruct (migratePieces ps acc e) as [[w imgs] e']. by simpl in *.
  - simpl. destruct (List.find _ acc) as [existing|] eqn:Ef.
    + destruct (IH acc e) as (added & E & Hnd & Hall & Hc & Hs). exists added.
      destruct (migratePieces ps acc e) as [[w imgs] e']. by simpl in *.
    + apply find_url_None in Ef.
      unfold generateImageId. destruct (sample e (calls e)) as [millis suffix] eqn:Es.
      set (fresh := ("img_" ++ _ ++ "_" ++ suffix) : str).
      set (new := {| id := fresh; url := Js.trim urlRaw; description := Js.trim descRaw |}).
      set (e1 := {| sample := sample e; calls := S (calls e) |}).
      destruct (IH (acc ++ [new]) e1) as (added & E & Hnd & Hall & Hc & Hs).
      exists (new :: added).
      destruct (migratePieces ps (acc ++ [new]) e1) as [[w imgs] e']. simpl in *.
      split_and!.
      * by rewrite E, <- app_assoc.
      * apply NoDup_cons. split; [|done].
        intros (img & Eu & Hin)%list_elem_of_fmap.
        destruct (Hall img Hin) as (Hno & _). apply Hno.
        rewrite fmap_app, elem_of_app. right. rewrite <- Eu. simpl.
        by apply list_elem_of_singleton.
      * intros img [->|Hin]%elem_of_cons.
        -- simpl. by rewrite !trim_idemp.
        -- destruct (Hall img Hin) as (Hno & ? & ?). split_and!; [|done..].
           intros Hin'. apply Hno. rewrite fmap_app, elem_of_app. by left.
      * rewrite Hc. simpl. lia.
      * by rewrite Hs.
Qed.

(** The migration never drops or alters a record of the registry: it
    appends records, one per URL that was not registered yet, with trimmed
    URL and description, and generates one id for each; a URL already
    registered is reused. *)
Theorem migrateLegacy_extends_registry (value : str) (images : list ImageData)
    (e : Entropy) :
  ∃ added,
    (migrateLegacy value images e).1.2 = images ++ added
    ∧ NoDup (url <$> added)
    ∧ (∀ img, img ∈ added →
              (url img ∉ url <$> images) ∧ Js.trim (url img) = url img
              ∧ Js.trim (description img) = description img)
    ∧ length added ≤ calls (migrateLegacy value images e).2 - calls e
    ∧ sample (migrateLegacy value images e).2 = sample e.
Proof.
  assert (∃ added : list ImageData,
            images = images ++ added ∧ NoDup (url <$> added)
            ∧ (∀ img, img ∈ added →
                      (url img ∉ url <$> images) ∧ Js.trim (url img) = url img
                      ∧ Js.trim (description img) = description img)
            ∧ length added = 0) as Hnone.
  { exists []. rewrite app_nil_r. split_and!; [done|constructor| |done].
    by intros ? ?%elem_of_nil. }
  unfold migrateLegacy. destruct value as [|c value].
  { destruct Hnone as (added & ? & ? & ? & ?). exists added. simpl.
    split_and!; [done..|lia|done]. }
  destruct (Js.test legacyRegex (c :: value)); simpl.
  2:{ destruct Hnone as (added & ? & ? & ? & ?). exists added. simpl.
      split_and!; [done..|lia|done]. }
  destruct (migratePieces_added (Js.scan legacyRegex (c :: value)) images e)
    as (added & E & Hnd & Hall & Hc & Hs).
  destruct (migratePieces _ images e) as [[w imgs] e']. simpl in *.
  case_decide; simpl.
  - exists added. split_and!; [done..|lia|done].
  - destruct Hnone as (added0 & ? & ? & ? & ?). exists added0.
    split_and!; [done..|lia|done].
Qed.

(** ** Bodies without a bar *)

Lemma legacyRegex_no_bar s : "|"%char ∉ s → legacyRegex s = None.
Proof.
  intros H. unfold legacyRegex.
  destruct (Js.stripPrefix _ s) as [r|] eqn:E; [|done]. simpl.
  apply stripPrefix_Some in E. subst s.
  assert (Js.breakAt "|" r = None) as ->; [|done].
  apply breakAt_None. intros Hin. apply H. apply elem_of_app. by right.
Qed.

Lemma legacyRegex_shrinks : shrinks legacyRegex.
Proof.
  intros s [u d] rest. unfold legacyRegex.
  destruct (Js.stripPrefix _ s) as [r|] eqn:E; [|done]. simpl.
  apply stripPrefix_Some in E. subst s.
  destruct (Js.breakAt "|" r) as [[u' r1]|] eqn:E1; [|done]. simpl.
  destruct (Js.breakAt "]" r1) as [[d' rest']|] eqn:E2; [|done]. simpl.
  destruct u', d'; intros [= <- <- <-].
  apply breakAt_length in E1, E2. simpl in *. lia.
Qed.

(** A body without a bar holds no legacy token: the migration returns it and
    the registry as they are and generates no id. So the bodies the editor
    itself writes, with ids free of bars, are never migrated. *)
Theorem migrateLegacy_ignores_new_format (value : str) (images : list ImageData)
    (e : Entropy) :
  ("|"%char ∉ value) → migrateLegacy value images e = (value, images, e).
Proof.
  intros H. unfold migrateLegacy. destruct value as [|c value]; [done|].
  assert (Js.test legacyRegex (c :: value) = false) as ->; [|done].
  unfold Js.test, Js.execAll. revert H. generalize (c :: value). clear. intros s.
  induction s as [|s a rest E IH|c r E IH] using (scan_rect legacyRegex legacyRegex_shrinks);
    intros H.
  - done.
  - by rewrite legacyRegex_no_bar in E.
  - rewrite (scan_skip legacyRegex legacyRegex_shrinks) by done. simpl.
    apply IH. intros Hin. apply H. apply elem_of_cons. by right.
Qed.

Lemma migrateLegacy_ignores_new_format_witness :
  migrateLegacy "see [IMAGE:img_1700000000000_k3j9x2q1z] here" ghostImages sampleEntropy
  = (("see [IMAGE:img_1700000000000_k3j9x2q1z] here" : str), ghostImages, sampleEntropy).
Proof.
  apply migrateLegacy_ignores_new_format.
  vm_compute. intros H. repeat (inversion H as [|? ? ? H']; clear H; rename H' into H).
Defined.

(** * The preview of the rich text input *)

Lemma imageRegex_consumes : consumes imageRegex reference.
Proof.
  intros s i rest (-> & _ & _)%imageRegex_inv. split; [apply reference_nonempty|done].
Qed.

(** The captures of the indexed matches are the ones of the scan. *)
Lemma execFrom_captures {A} (re : Js.Matcher A) fuel index s :
  (λ m, m.2) <$> execFrom re fuel index s = Js.matched (Js.scanFrom re fuel s).
Proof.
  revert index s. induction fuel as [|n IH]; intros index s; [done|].
  destruct s as [|c r]; [done|]. simpl.
  destruct (re (c :: r)) as [[a rest]|]; simpl; [|apply IH].
  f_equal. apply IH.
Qed.

Lemma contents_app ps qs : contents (ps ++ qs) = contents ps ++ contents qs.
Proof. unfold contents. by rewrite fmap_app, concat_app. Qed.

Lemma pushRemaining_spec {A} (full idOf : A → str) T lastIndex :
  contents (pushRemaining T lastIndex) = drop lastIndex T
  ∧ Forall (partOk full idOf) (pushRemaining T lastIndex)
  ∧ omap part_imageId (pushRemaining T lastIndex) = [].
Proof.
  unfold pushRemaining. case_decide as Hlt.
  - split_and!; [by unfold contents; simpl; rewrite app_nil_r| |done].
    constructor; [|constructor]. split; [|done]. simpl.
    intros E. apply (f_equal length) in E. rewrite length_drop in E. simpl in E. lia.
  - split_and!; [|constructor|done]. by rewrite drop_ge by lia.
Qed.

(** One loop of the preview, started at [lastIndex] with the scan standing
    at [index]: the parts it pushes, followed by the text left, spell the
    subject from [lastIndex] on. *)
Lemma pushMatches_spec {A} (re : Js.Matcher A) (full idOf : A → str) T fuel pre s
    lastIndex :
  consumes re full → T = pre ++ s → length s ≤ fuel → lastIndex ≤ length pre →
  let result := pushMatches T idOf (execFrom re fuel (length pre) s) lastIndex in
  contents (result.1 ++ pushRemaining T result.2) = drop lastIndex T
  ∧ Forall (partOk full idOf) result.1
  ∧ omap part_imageId result.1
    = idOf <$> ((λ m, m.2) <$> execFrom re fuel (length pre) s)
  ∧ lastIndex ≤ result.2.
Proof.
  intros Hre. revert pre s lastIndex.
  induction fuel as [|n IH]; intros pre s lastIndex HT Hfuel Hlast.
  { destruct s; [|simpl in Hfuel; lia]. simpl.
    destruct (pushRemaining_spec full idOf T lastIndex) as (E & _).
    split_and!; [done|constructor|done|done]. }
  destruct s as [|c r].
  { simpl. destruct (pushRemaining_spec full idOf T lastIndex) as (E & _).
    split_and!; [done|constructor|done|done]. }
  cbn [execFrom]. destruct (re (c :: r)) as [[a rest]|] eqn:E.
  - destruct (Hre _ _ _ E) as [Hne Es].
    assert (length (c :: r) - length rest = length (full a)) as El
      by (rewrite Es, length_app; lia).
    assert (take (length (c :: r) - length rest) (c :: r) = full a) as Et
      by (rewrite El, Es; by rewrite take_app_length).
    cbv zeta. rewrite Et, El.
    assert (T = (pre ++ full a) ++ rest) as HT' by (by rewrite HT, Es, app_assoc).
    assert (length rest ≤ n) as Hfuel'.
    { simpl in Hfuel. apply (f_equal length) in Es. rewrite length_app in Es.
      simpl in Es. destruct (full a); [done|]. simpl in Es. lia. }
    specialize (IH (pre ++ full a) rest (length pre + length (full a)) HT' Hfuel').
    rewrite length_app in IH. specialize (IH (le_n _)). cbv zeta in IH.
    cbn [pushMatches].
    destruct (pushMatches T idOf (execFrom re n (length pre + length (full a)) rest)
                          (length pre + length (full a))) as [parts last].
    cbn [fst snd] in *. destruct IH as (Hc & Hok & Hid & Hle).
    assert (drop lastIndex T
            = substring T lastIndex (length pre) ++ full a
                ++ drop (length pre + length (full a)) T) as Hd.
    { unfold substring. rewrite HT, Es.
      rewrite (drop_app_le pre _ lastIndex) by lia.
      rewrite take_app_length' by (rewrite length_drop; lia).
      assert (drop (length pre + length (full a)) (pre ++ full a ++ rest) = rest) as ->; [|done].
      rewrite <- drop_drop. rewrite drop_app_length. apply drop_app_length. }
    split_and!.
    + rewrite <- app_assoc, contents_app. rewrite Hd.
      case_decide as Hlt.
      * unfold contents at 1. simpl. rewrite app_nil_r. f_equal.
        change (contents ((mkPart imagePart (full a) (Some (idOf a)) :: parts)
                            ++ pushRemaining T last)
                = full a ++ drop (length pre + length (full a)) T).
        rewrite <- Hc. unfold contents. simpl. done.
      * assert (substring T lastIndex (length pre) = []) as ->.
        { unfold substring. assert (length pre - lastIndex = 0) as -> by lia. done. }
        simpl. rewrite <- Hc. unfold contents. simpl. done.
    + apply Forall_app. split.
      * case_decide as Hlt; [|constructor]. constructor; [|constructor].
        split; [|done]. simpl. intros E0. apply (f_equal length) in E0.
        unfold substring in E0. rewrite length_take, length_drop in E0.
        rewrite HT in E0. rewrite length_app in E0. simpl in E0. lia.
      * constructor; [|done]. split; [done|]. simpl. by exists a.
    + rewrite omap_app. cbn [omap list_omap]. simpl.
      assert (omap part_imageId
                (if decide (lastIndex < length pre)
                 then [mkPart textPart (substring T lastIndex (length pre)) None]
                 else []) = []) as -> by by case_decide.
      simpl. by rewrite Hid.
    + lia.
  - assert (T = (pre ++ [c]) ++ r) as HT' by (by rewrite HT, <- app_assoc).
    assert (length r ≤ n) as Hfuel' by (simpl in Hfuel; lia).
    specialize (IH (pre ++ [c]) r lastIndex HT' Hfuel').
    rewrite length_app in IH. simpl in IH.
    replace (length pre + 1) with (S (length pre)) in IH by lia.
    apply IH. lia.
Qed.

(** For a body without legacy token the preview is the body cut into text
    and placeholders: the parts spell the body in order, the image parts
    carry the ids [extractImageIds] finds and spell their placeholders, no
    part is empty, and the fallback for an empty list of parts never runs.
    The preview is absent for an empty body without images only. *)
Theorem renderPreview_spells_body (value : str) (images : list ImageData) :
  Js.test legacyTest value = false →
  (renderPreview value images = None ↔ value = [] ∧ images = [])
  ∧ ∀ parts,
      renderPreview value images = Some parts →
      contents parts = value
      ∧ omap part_imageId parts = extractImageIds value
      ∧ Forall (λ p, part_content p ≠ []
                     ∧ match part_type p with
                       | textPart => part_imageId p = None
                       | imagePart =>
                           ∃ i, part_imageId p = Some i ∧ part_content p = reference i
                       end) parts.
Proof.
  intros Hno. unfold renderPreview. rewrite Hno.
  pose proof (pushMatches_spec imageRegex reference (λ i, i) value (length value) []
                value 0 imageRegex_consumes eq_refl (le_n _) (le_n _)) as H.
  cbv zeta in H. change (length []) with 0 in H.
  rewrite execFrom_captures in H. fold (execIndexed imageRegex value) in H.
  destruct (pushMatches value (λ imageId, imageId) (execIndexed imageRegex value) 0)
    as [imageParts lastIndex].
  cbn [fst snd] in H. destruct H as (Hc & Hok & Hid & _).
  destruct (pushRemaining_spec reference (λ i : str, i) value lastIndex) as (_ & Hokr & Hidr).
  rewrite drop_0 in Hc. cbn [app].
  case_bool_decide as He.
  - split; [done|]. intros parts [=].
  - split; [split; [done|by intros ?]|]. intros parts [= <-].
    assert (match imageParts ++ pushRemaining value lastIndex, value with
            | [], _ :: _ => [mkPart textPart value None]
            | _, _ => imageParts ++ pushRemaining value lastIndex
            end = imageParts ++ pushRemaining value lastIndex) as ->.
    { destruct (imageParts ++ pushRemaining value lastIndex); [|done].
      destruct value; [done|]. by unfold contents in Hc. }
    split_and!; [done| |].
    + rewrite omap_app, Hidr, app_nil_r, Hid. unfold extractImageIds, Js.execAll, Js.scan.
      by rewrite list_fmap_id.
    + apply Forall_app. split; [exact Hok|exact Hokr].
Qed.

Lemma renderPreview_spells_body_witness :
  ∃ parts,
    renderPreview "a [IMAGE:x] b[IMAGE:y]" [] = Some parts
    ∧ contents parts = ("a [IMAGE:x] b[IMAGE:y]" : str).
Proof.
  destruct (renderPreview "a [IMAGE:x] b[IMAGE:y]" []) as [parts|] eqn:E.
  - exists parts. split; [reflexivity|].
    refine (proj1 (proj2 (renderPreview_spells_body "a [IMAGE:x] b[IMAGE:y]" [] _)
                         parts E)).
    vm_compute. reflexivity.
  - vm_compute in E. discriminate.
Defined.

(** * Comment threads *)

Section threads.
Import LectureComments.

Lemma nodes_pos c : 0 < nodes c.
Proof. destruct c. simpl. lia. Qed.

Lemma list_sum_elem (f : Comment → nat) rs r : r ∈ rs → f r ≤ list_sum (map f rs).
Proof.
  induction rs as [|a rs IH]; [by intros ?%elem_of_nil|].
  intros [->|Hin]%elem_of_cons; simpl; [lia|]. specialize (IH Hin). lia.
Qed.

Lemma nodes_reply c rs r : replies c = Some rs → r ∈ rs → nodes r < nodes c.
Proof.
  intros E Hin. destruct c. simpl in *. subst.
  pose proof (list_sum_elem nodes rs r Hin). lia.
Qed.

(** Induction over a thread: a property holds for a comment when it holds
    for its replies. *)
Lemma thread_ind (P : Comment → Prop) :
  (∀ c, (∀ rs r, replies c = Some rs → r ∈ rs → P r) → P c) → ∀ c, P c.
Proof.
  intros H c. remember (nodes c) as n eqn:En. revert c En.
  induction n as [n IH] using lt_wf_ind. intros c ->.
  apply H. intros rs r E Hin. apply (IH (nodes r)); [|done].
  by apply (nodes_reply c rs).
Qed.

Lemma ids_eq c : ids c = id c :: flat_map ids (default [] (replies c)).
Proof. destruct c as [? ? ? ? ? ? ? [rs|]]; done. Qed.

Lemma nodes_eq c : nodes c = S (list_sum (map nodes (default [] (replies c)))).
Proof. destruct c as [? ? ? ? ? ? ? [rs|]]; done. Qed.

(** The breadth-first search finds an id exactly when a comment of the
    stack or below it carries it. *)
Lemma searchStack_spec fuel stack targetId :
  list_sum (map nodes stack) ≤ fuel →
  searchStack fuel stack targetId = bool_decide (targetId ∈ flat_map ids stack).
Proof.
  revert stack. induction fuel as [|n IH]; intros stack Hfuel.
  - destruct stack as [|c rest]; [done|]. simpl in Hfuel. pose proof (nodes_pos c). lia.
  - destruct stack as [|current rest]; [done|]. cbn [searchStack].
    case_decide as Hid.
    + symmetry. apply bool_decide_eq_true_2. cbn [flat_map]. rewrite ids_eq, Hid.
      apply elem_of_cons. by left.
    + rewrite IH.
      2:{ simpl in Hfuel. rewrite nodes_eq in Hfuel.
          rewrite map_app, list_sum_app. lia. }
      apply bool_decide_ext. cbn [flat_map].
      rewrite flat_map_app, ids_eq, !elem_of_app, elem_of_cons. naive_solver.
Qed.

Lemma holds_spec root targetId :
  holds root targetId = bool_decide (targetId ∈ ids root).
Proof.
  unfold holds. rewrite searchStack_spec by (rewrite nodes_eq; lia).
  rewrite ids_eq. case_bool_decide as E; simpl.
  - symmetry. apply bool_decide_eq_true_2. rewrite <- E. apply elem_of_cons. by left.
  - apply bool_decide_ext. rewrite elem_of_cons. naive_solver.
Qed.

Lemma findRootId_finds_thread_aux (comments : list Comment) (target : Comment) p :
  parentCommentId target = Some p → p ≠ [] →
  (∀ before root after,
     comments = before ++ root :: after →
     (∀ c, c ∈ before → id target ∉ ids c) → id target ∈ ids root →
     findRootId comments target = id root)
  ∧ ((∀ c, c ∈ comments → id target ∉ ids c) → findRootId comments target = p).
Proof.
  intros Ep Hp. unfold findRootId. rewrite Ep. destruct p as [|ch p]; [done|].
  split.
  - intros before root after -> Hbefore Hroot.
    assert (List.find (λ r, holds r (id target)) (before ++ root :: after) = Some root)
      as ->; [|done].
    induction before as [|b before IH]; simpl.
    + by rewrite holds_spec, bool_decide_eq_true_2.
    + rewrite holds_spec, bool_decide_eq_false_2
        by (apply Hbefore, elem_of_cons; by left).
      apply IH. intros c Hc. apply Hbefore, elem_of_cons. by right.
  - intros Hnone.
    assert (List.find (λ r, holds r (id target)) comments = None) as ->; [|done].
    induction comments as [|c comments IH]; [done|]. simpl.
    rewrite holds_spec, bool_decide_eq_false_2 by (apply Hnone, elem_of_cons; by left).
    apply IH. intros c' Hc'. apply Hnone, elem_of_cons. by right.
Qed.

(** [findRootId] answers the id of the target itself when the target names
    no parent; otherwise the id of the first top-level comment whose thread
    holds a comment with the target's id, and the parent id the target names
    when no thread holds one. The search always ends. *)
Theorem findRootId_finds_thread (comments : list Comment) (target : Comment) :
  (parentCommentId target = None ∨ parentCommentId target = Some [] →
   findRootId comments target = id target)
  ∧ (∀ p, parentCommentId target = Some p → p ≠ [] →
       (∀ before root after,
          comments = before ++ root :: after →
          (∀ c, c ∈ before → id target ∉ ids c) → id target ∈ ids root →
          findRootId comments target = id root)
       ∧ ((∀ c, c ∈ comments → id target ∉ ids c) → findRootId comments target = p)).
Proof.
  split.
  - unfold findRootId. by intros [-> | ->].
  - intros p Ep Hp. by apply findRootId_finds_thread_aux.
Qed.

Lemma findRootId_finds_thread_witness :
  findRootId [thread2; thread1] reply2 = id thread1.
Proof.
  refine (proj1 (proj2 (findRootId_finds_thread [thread2; thread1] reply2) "c2" _ _)
                [thread2] thread1 [] _ _ _).
  - reflexivity.
  - discriminate.
  - reflexivity.
  - intros c ->%list_elem_of_singleton. vm_compute.
    intros H%list_elem_of_singleton. discriminate.
  - vm_compute. apply elem_of_cons. right. apply elem_of_cons. right.
    apply elem_of_cons. by left.
Defined.

End threads.

(** ** Replying *)

Section replying.
Import LectureComments.

Lemma elem_of_flat_map {A B} (f : A → list B) (l : list A) (x : B) :
  x ∈ flat_map f l ↔ ∃ y, y ∈ l ∧ x ∈ f y.
Proof.
  split.
  - intros H. apply list_elem_of_In in H. apply in_flat_map in H as (y & H1 & H2).
    exists y. split; by apply list_elem_of_In.
  - intros (y & H1 & H2). apply list_elem_of_In, in_flat_map.
    exists y. split; by apply list_elem_of_In.
Qed.

Lemma threads_eq c : threads c = c :: flat_map threads (default [] (replies c)).
Proof. destruct c as [? ? ? ? ? ? ? [rs|]]; done. Qed.

Lemma withReplies_same c : withReplies c (replies c) = c.
Proof. by destruct c. Qed.

Lemma threads_ids node c : node ∈ threads c → id node ∈ ids c.
Proof.
  induction c as [c IH] using thread_ind. rewrite threads_eq, ids_eq.
  intros [->|Hin]%elem_of_cons; apply elem_of_cons; [by left|right].
  apply elem_of_flat_map in Hin as (r & Hr & Hin). apply elem_of_flat_map.
  exists r. split; [done|]. destruct (replies c) as [rs|] eqn:E; [|by apply elem_of_nil in Hr].
  by apply (IH rs).
Qed.

(** A thread that holds no comment with the parent's id is left as it is. *)
Lemma insert_absent parentId newReply c :
  parentId ∉ ids c → LectureComments.insert parentId newReply c = c.
Proof.
  induction c as [c IH] using thread_ind. rewrite ids_eq, not_elem_of_cons.
  intros [Hne Hno]. destruct c as [i ct ui ua an pc us [rs|]]; simpl in *.
  - rewrite decide_False by done. unfold withReplies. simpl. do 2 f_equal.
    rewrite <- (map_id rs) at 2. apply map_ext_in. intros r Hr%list_elem_of_In.
    apply (IH rs r eq_refl Hr). intros Hin. apply Hno, elem_of_flat_map. by exists r.
  - by rewrite decide_False by done.
Qed.

Lemma NoDup_flat_map_split (l1 l2 : list Comment) (c : Comment) :
  NoDup (flat_map ids (l1 ++ c :: l2)) →
  NoDup (ids c)
  ∧ (∀ x i, x ∈ l1 ++ l2 → i ∈ ids c → i ∉ ids x).
Proof.
  rewrite flat_map_app. cbn [flat_map]. intros H.
  apply NoDup_app in H as (_ & H1 & H2). apply NoDup_app in H2 as (Hc & H2 & _).
  split; [done|]. intros x i [Hx|Hx]%elem_of_app Hi Hix.
  - apply (H1 i); [apply elem_of_flat_map; by exists x|]. apply elem_of_app. by left.
  - apply (H2 i Hi). apply elem_of_flat_map. by exists x.
Qed.

(** In a thread without repeated ids that holds the parent, the parent gets
    the reply as its first reply and nothing else changes. *)
Lemma insert_present parentId newReply node c :
  NoDup (ids c) → node ∈ threads c → id node = parentId →
  withReplies node (Some (newReply :: default [] (replies node)))
    ∈ threads (LectureComments.insert parentId newReply c)
  ∧ ids (LectureComments.insert parentId newReply c) ≡ₚ ids newReply ++ ids c
  ∧ id (LectureComments.insert parentId newReply c) = id c.
Proof.
  induction c as [c IH] using thread_ind. intros Hnd Hin Hid.
  destruct (decide (id c = parentId)) as [Hc|Hc].
  - assert (node = c) as ->.
    { rewrite threads_eq in Hin. apply elem_of_cons in Hin as [->|Hin]; [done|]. exfalso.
      rewrite ids_eq in Hnd. apply NoDup_cons in Hnd as [Hnd _]. apply Hnd.
      apply elem_of_flat_map in Hin as (r & Hr & Hin). apply elem_of_flat_map.
      exists r. split; [done|]. rewrite Hc, <- Hid. by apply threads_ids. }
    assert (LectureComments.insert parentId newReply c
            = withReplies c (Some (newReply :: default [] (replies c)))) as ->.
    { destruct c. simpl in *. by rewrite decide_True. }
    split_and!; [rewrite threads_eq; apply elem_of_cons; by left| |done].
    rewrite (ids_eq (withReplies _ _)), (ids_eq c). simpl.
    by rewrite Permutation_middle.
  - rewrite threads_eq in Hin. apply elem_of_cons in Hin as [->|Hin]; [done|].
    apply elem_of_flat_map in Hin as (child & Hch & Hin).
    destruct (replies c) as [rs|] eqn:Er; [|by apply elem_of_nil in Hch]. simpl in Hch.
    apply list_elem_of_split in Hch as (l1 & l2 & ->).
    assert (NoDup (flat_map ids (l1 ++ child :: l2))) as Hnd'.
    { rewrite ids_eq, Er in Hnd. by apply NoDup_cons in Hnd as [_ ?]. }
    destruct (NoDup_flat_map_split _ _ _ Hnd') as [Hndc Hother].
    pose proof (threads_ids _ _ Hin) as Hidin. rewrite Hid in Hidin.
    destruct (IH _ child eq_refl (ltac:(apply elem_of_app; right; apply elem_of_cons; by left))
                Hndc Hin Hid) as (Hm & Hp & _).
    assert (LectureComments.insert parentId newReply c
            = withReplies c (Some (l1 ++ LectureComments.insert parentId newReply child
                                      :: l2))) as ->.
    { destruct c. simpl in *. rewrite decide_False by done. rewrite Er.
      unfold withReplies. simpl. do 2 f_equal. rewrite map_app. simpl.
      rewrite (map_ext_in _ (λ x, x) l1), (map_ext_in _ (λ x, x) l2), !map_id; [done|..].
      - intros x Hx%list_elem_of_In. apply insert_absent.
        apply (Hother x parentId); [apply elem_of_app; by right|done].
      - intros x Hx%list_elem_of_In. apply insert_absent.
        apply (Hother x parentId); [apply elem_of_app; by left|done]. }
    split_and!; [| |done].
    + rewrite threads_eq. apply elem_of_cons. right. simpl.
      apply elem_of_flat_map. exists (LectureComments.insert parentId newReply child).
      split; [|done]. apply elem_of_app. right. apply elem_of_cons. by left.
    + rewrite (ids_eq (withReplies _ _)), (ids_eq c), Er. simpl.
      rewrite !flat_map_app. cbn [flat_map]. rewrite Hp.
      rewrite <- Permutation_middle. apply Permutation_skip.
      rewrite <- !app_assoc. apply Permutation_app_swap_app.
Qed.

(** When the list has not changed since the render that sent the reply, no
    id is repeated and the comment replied to is in the list (as a
    top-level comment when it names no parent), [submitReply] makes the new
    reply the first reply of that comment and changes nothing else: the ids
    afterwards are the ids before and those of the reply, and the top-level
    comments are as many as before. *)
Theorem submitReply_adds_first_reply (comments : list Comment)
    (parent newReply node : Comment) :
  NoDup (flat_map ids comments) →
  node ∈ flat_map threads comments → id node = id parent →
  (parentCommentId parent = None ∨ parentCommentId parent = Some [] → node ∈ comments) →
  let comments' := submitReply comments comments parent newReply in
  withReplies node (Some (newReply :: default [] (replies node)))
    ∈ flat_map threads comments'
  ∧ flat_map ids comments' ≡ₚ ids newReply ++ flat_map ids comments
  ∧ length comments' = length comments.
Proof.
  intros Hnd Hin Hid Htop comments'.
  assert (∃ l1 root l2, comments = l1 ++ root :: l2 ∧ node ∈ threads root
                        ∧ findRootId comments parent = id root)
    as (l1 & root & l2 & -> & Hroot & Hfind).
  { destruct (parentCommentId parent) as [[|ch p]|] eqn:Ep.
    - pose proof (Htop (or_intror eq_refl)) as Hn.
      apply list_elem_of_split in Hn as (l1 & l2 & ->).
      exists l1, node, l2. split_and!; [done|rewrite threads_eq; apply elem_of_cons; by left|].
      unfold findRootId. by rewrite Ep.
    - apply elem_of_flat_map in Hin as (root & (l1 & l2 & ->)%list_elem_of_split & Hin).
      exists l1, root, l2. split_and!; [done..|].
      destruct (findRootId_finds_thread_aux (l1 ++ root :: l2) parent (ch :: p) Ep)
        as [Hfound _]; [done|].
      apply (Hfound l1 root l2); [done| |rewrite <- Hid; by apply threads_ids].
      intros c Hc Hidc. destruct (NoDup_flat_map_split _ _ _ Hnd) as [_ Hother].
      apply (Hother c (id parent)); [apply elem_of_app; by left| |done].
      rewrite <- Hid. by apply threads_ids.
    - pose proof (Htop (or_introl eq_refl)) as Hn.
      apply list_elem_of_split in Hn as (l1 & l2 & ->).
      exists l1, node, l2. split_and!; [done|rewrite threads_eq; apply elem_of_cons; by left|].
      unfold findRootId. by rewrite Ep. }
  destruct (NoDup_flat_map_split _ _ _ Hnd) as [Hndr Hother].
  destruct (insert_present (id parent) newReply node root Hndr Hroot Hid) as (Hm & Hp & Hi).
  assert (comments' = l1 ++ LectureComments.insert (id parent) newReply root :: l2) as ->.
  { unfold comments', submitReply. rewrite Hfind, map_app. simpl.
    rewrite decide_True by done.
    assert (∀ l, (∀ x, x ∈ l → x ∈ l1 ++ l2) →
                 map (λ c, if decide (id c = id root)
                           then LectureComments.insert (id parent) newReply c else c) l = l)
      as Hsame.
    { intros l Hl. rewrite <- (map_id l) at 2. apply map_ext_in.
      intros x Hx%list_elem_of_In. rewrite decide_False; [done|]. intros E.
      apply (Hother x (id root)); [by apply Hl|rewrite ids_eq; apply elem_of_cons; by left|].
      rewrite <- E, ids_eq. apply elem_of_cons. by left. }
    rewrite (Hsame l1), (Hsame l2); [done|..]; intros x Hx; apply elem_of_app; auto. }
  split_and!.
  - apply elem_of_flat_map. exists (LectureComments.insert (id parent) newReply root).
    split; [|done]. apply elem_of_app. right. apply elem_of_cons. by left.
  - rewrite !flat_map_app. cbn [flat_map]. rewrite Hp.
    rewrite <- !app_assoc. apply Permutation_app_swap_app.
  - rewrite !length_app. done.
Qed.

Lemma submitReply_adds_first_reply_witness :
  withReplies reply2 (Some [newReply3])
    ∈ flat_map threads (submitReply [thread2; thread1] [thread2; thread1] reply2 newReply3).
Proof.
  refine (proj1 (submitReply_adds_first_reply [thread2; thread1] reply2 newReply3 reply2
                   _ _ _ _)).
  - apply (bool_decide_unpack _). vm_compute. exact I.
  - vm_compute. apply elem_of_cons. right. apply elem_of_cons. right.
    apply elem_of_cons. right. apply elem_of_cons. by left.
  - reflexivity.
  - intros [H|H]; vm_compute in H; discriminate.
Defined.

End replying.

(** ** Editing and deleting *)

Section editing.
Import LectureComments.

Lemma flat_map_ids_map (g : Comment → Comment) (l : list Comment) :
  (∀ c, c ∈ l → ids (g c) = ids c) → flat_map ids (map g l) = flat_map ids l.
Proof.
  induction l as [|a l IH]; intros H; [done|]. simpl.
  rewrite H by (apply elem_of_cons; by left).
  rewrite IH; [done|]. intros c Hc. apply H, elem_of_cons. by right.
Qed.

Lemma merge_ids c u : f_id u = None → f_replies u = None → ids (merge c u) = ids c.
Proof. intros Hi Hr. rewrite !ids_eq. unfold merge. simpl. by rewrite Hi, Hr. Qed.

Lemma map_same {A} (g : A → A) (l : list A) : (∀ x, x ∈ l → g x = x) → map g l = l.
Proof.
  intros H. rewrite <- (map_id l) at 2. apply map_ext_in.
  intros x Hx%list_elem_of_In. by apply H.
Qed.

(** An edit reaches the top-level comments and their direct replies only.
    With a response that carries neither an id nor replies, the ids of all
    threads stay as they are and in their order; the top-level comments with
    the edited id and, under the other top-level comments, the direct replies
    with that id take the fields of the response; when the id is neither a
    top-level comment nor a direct reply, nothing changes. *)
Theorem handleEditComment_two_levels (comments : list Comment) (commentId : str)
    (updatedComment : Fields) :
  f_id updatedComment = None → f_replies updatedComment = None →
  let comments' := handleEditComment comments commentId updatedComment in
  flat_map ids comments' = flat_map ids comments
  ∧ length comments' = length comments
  ∧ (∀ c, c ∈ comments → id c = commentId → merge c updatedComment ∈ comments')
  ∧ (∀ c rs r, c ∈ comments → id c ≠ commentId → replies c = Some rs → r ∈ rs →
               id r = commentId →
               ∃ c', c' ∈ comments' ∧ id c' = id c
                     ∧ merge r updatedComment ∈ default [] (replies c'))
  ∧ ((∀ c, c ∈ comments →
           id c ≠ commentId ∧ ∀ r, r ∈ default [] (replies c) → id r ≠ commentId) →
     comments' = comments).
Proof.
  intros Hi Hr comments'. unfold comments', handleEditComment. split_and!.
  - apply flat_map_ids_map. intros c _. case_decide; [by apply merge_ids|].
    rewrite (ids_eq (withReplies _ _)), (ids_eq c). simpl. f_equal.
    destruct (replies c) as [rs|]; [|done]. simpl.
    apply flat_map_ids_map. intros r _. case_decide; [by apply merge_ids|done].
  - by rewrite length_map.
  - intros c Hc Hid. apply list_elem_of_In, in_map_iff. exists c.
    rewrite decide_True by done. split; [done|by apply list_elem_of_In].
  - intros c rs r Hc Hne Ers Hin Hid. eexists. split_and!.
    + apply list_elem_of_In, in_map_iff. exists c. split; [done|by apply list_elem_of_In].
    + by rewrite decide_False by done.
    + rewrite decide_False by done. simpl. rewrite Ers. simpl.
      apply list_elem_of_In, in_map_iff. exists r. rewrite decide_True by done.
      split; [done|by apply list_elem_of_In].
  - intros Hnone. apply map_same. intros c Hc. destruct (Hnone c Hc) as [Hne Hrs].
    rewrite decide_False by done.
    destruct c as [i ct ui ua an pc us [rs|]]; [|done]. unfold withReplies. simpl in *.
    do 2 f_equal. apply map_same. intros r Hin. by rewrite decide_False by by apply Hrs.
Qed.

Lemma handleEditComment_two_levels_witness :
  flat_map ids (handleEditComment [thread2; thread1] "c2"
                  {| f_id := None; f_content := Some ("edited" : str); f_userId := None;
                     f_updatedAt := Some ("t9" : str); f_isAnonymous := None;
                     f_parentCommentId := None; f_user := None; f_replies := None |})
  = flat_map ids [thread2; thread1].
Proof.
  refine (proj1 (handleEditComment_two_levels [thread2; thread1] "c2"
                   {| f_id := None; f_content := Some ("edited" : str); f_userId := None;
                      f_updatedAt := Some ("t9" : str); f_isAnonymous := None;
                      f_parentCommentId := None; f_user := None; f_replies := None |}
                   _ _)); reflexivity.
Defined.

(** A deletion reaches the top-level comments and their direct replies
    only: afterwards no top-level comment and no direct reply carries the
    id, the others are kept in order, each reply that is kept with its own
    thread intact, so the ids left are a subsequence of the ids before. A
    comment nested deeper is not removed: when the id is neither a top-level
    comment nor a direct reply, nothing changes. Deleting again changes
    nothing. *)
Theorem handleDeleteComment_two_levels (comments : list Comment) (commentId : str) :
  let comments' := handleDeleteComment comments commentId in
  (∀ c, c ∈ comments' →
        id c ≠ commentId
        ∧ ∀ r, r ∈ default [] (replies c) →
               id r ≠ commentId
               ∧ ∃ c0, c0 ∈ comments ∧ id c0 = id c ∧ r ∈ default [] (replies c0))
  ∧ map id comments' = filter (λ i, i ≠ commentId) (map id comments)
  ∧ flat_map ids comments' `sublist_of` flat_map ids comments
  ∧ ((∀ c, c ∈ comments →
           id c ≠ commentId ∧ ∀ r, r ∈ default [] (replies c) → id r ≠ commentId) →
     comments' = comments)
  ∧ handleDeleteComment comments' commentId = comments'.
Proof.
  intros comments'. unfold comments', handleDeleteComment.
  assert (∀ l, (∀ c, c ∈ l →
                     id c ≠ commentId
                     ∧ ∀ r, r ∈ default [] (replies c) → id r ≠ commentId) →
               map (λ c, withReplies c
                           match replies c with
                           | Some rs => Some (filter (λ r, id r ≠ commentId) rs)
                           | None => None
                           end)
                   (filter (λ c, id c ≠ commentId) l) = l) as Hsame.
  { intros l Hnone. rewrite filter_all by (intros c Hc; by apply Hnone).
    apply map_same. intros c Hc. destruct (Hnone c Hc) as [_ Hrs].
    destruct c as [i ct ui ua an pc us [rs|]]; [|done]. unfold withReplies. simpl in *.
    do 2 f_equal. by apply filter_all. }
  split_and!.
  - intros c (c0 & <- & [Hne Hc0]%list_elem_of_In%list_elem_of_filter)%list_elem_of_In%in_map_iff.
    split; [done|]. intros r Hr. simpl in Hr.
    destruct (replies c0) as [rs|] eqn:E; simpl in Hr; [|by apply elem_of_nil in Hr].
    apply list_elem_of_filter in Hr as [Hr Hin]. split; [done|].
    exists c0. rewrite E. done.
  - induction comments as [|c comments IH]; [done|]. simpl.
    destruct (decide (id c ≠ commentId)).
    + rewrite !filter_cons_True by done. simpl. by rewrite IH.
    + rewrite !filter_cons_False by done. done.
  - induction comments as [|c comments IH]; [done|].
    destruct (decide (id c ≠ commentId)).
    + rewrite filter_cons_True by done. cbn [map flat_map].
      apply sublist_app; [|done].
      rewrite (ids_eq (withReplies _ _)), (ids_eq c). simpl. apply sublist_skip.
      destruct (replies c) as [rs|]; [|done]. simpl. clear.
      induction rs as [|r rs IH]; [done|].
      destruct (decide (id r ≠ commentId)).
      * rewrite filter_cons_True by done. simpl. by apply sublist_app.
      * rewrite filter_cons_False by done. simpl. by apply sublist_inserts_l.
    + rewrite filter_cons_False by done. cbn [flat_map]. by apply sublist_inserts_l.
  - apply Hsame.
  - apply Hsame.
    intros c (c0 & <- & [Hne Hc0]%list_elem_of_In%list_elem_of_filter)%list_elem_of_In%in_map_iff.
    split; [done|]. intros r Hr. simpl in Hr.
    destruct (replies c0) as [rs|]; simpl in Hr; [|by apply elem_of_nil in Hr].
    by apply list_elem_of_filter in Hr as [Hr _].
Qed.

Lemma handleDeleteComment_two_levels_witness :
  handleDeleteComment [thread2; thread1] "c3" = [thread2; thread1].
Proof.
  refine (proj1 (proj2 (proj2 (proj2
            (handleDeleteComment_two_levels [thread2; thread1] "c3")))) _).
  intros c Hc. apply elem_of_cons in Hc as [->|Hc];
    [|apply list_elem_of_singleton in Hc as ->].
  - split; [discriminate|]. vm_compute. by intros r ?%elem_of_nil.
  - split; [discriminate|]. vm_compute. intros r ->%list_elem_of_singleton. discriminate.
Defined.

End editing.
